(** * repren: multi-pattern replacement and collision-safe file rewriting

    A shallow embedding of [repren.py] and the properties of its
    specification.  Python byte strings ([str] of Python 2, which the
    script targets: it reads the pattern file in binary mode and splits it
    with [str] separators) are [string]; offsets are [nat]; exceptions are
    values of [exn] carried by [result]; the file system and the global
    tally are threaded through a state-and-exception monad. *)

From Stdlib Require Import String Ascii List Arith Lia Bool.
From Stdlib Require Import Decimal DecimalNat DecimalString.
From stdpp Require Import gmap strings list sorting.

Local Open Scope string_scope.
Local Open Scope list_scope.
Local Open Scope nat_scope.

Local Arguments String.append : simpl nomatch.

(** ** Exceptions and results *)

(** The messages [fail] prints before [sys.exit(1)]; the arguments of the
    format string are kept, not the formatted text. *)
Inductive fail_msg :=
| InvalidLine (bits : list string)
| PathNotFound (path : string).

Inductive exn :=
| IndexError
| ValueError
| UnboundLocalError
| ReError (pattern : string)
| OSError (path : string)
| IOError (path : string)
| ShutilError (path : string)
| SystemExit (msg : fail_msg).

Inductive result (A : Type) :=
| Ok (a : A)
| Raise (e : exn).
Arguments Ok {A} a.
Arguments Raise {A} e.

Global Instance result_ret : MRet result := @Ok.
Global Instance result_bind : MBind result := λ A B k r,
  match r with
  | Ok a => k a
  | Raise e => Raise e
  end.

Definition is_ok {A} (r : result A) : bool :=
  match r with Ok _ => true | Raise _ => false end.

Fixpoint rmap {A B} (f : A → result B) (l : list A) : result (list B) :=
  match l with
  | [] => Ok []
  | x :: l' => y ← f x; ys ← rmap f l'; Ok (y :: ys)
  end.

(** ** Byte strings *)

Module Str.

Definition tab : ascii := ascii_of_nat 9.
Definition lf : ascii := ascii_of_nat 10.
Definition vt : ascii := ascii_of_nat 11.
Definition ff : ascii := ascii_of_nat 12.
Definition cr : ascii := ascii_of_nat 13.

Definition code (c : ascii) : nat := nat_of_ascii c.

Definition between (lo hi : nat) (c : ascii) : bool :=
  Nat.leb lo (code c) && Nat.leb (code c) hi.

Definition is_upper : ascii → bool := between 65 90.
Definition is_lower : ascii → bool := between 97 122.
Definition is_digit : ascii → bool := between 48 57.
Definition is_alnum (c : ascii) : bool := is_upper c || is_lower c || is_digit c.

(** [\w] on byte strings without LOCALE or UNICODE: [[a-zA-Z0-9_]]. *)
Definition is_word (c : ascii) : bool := is_alnum c || Ascii.eqb c "_".

(** [str.strip()] with no argument strips these six bytes. *)
Definition is_space (c : ascii) : bool :=
  Ascii.eqb c " " || Ascii.eqb c tab || Ascii.eqb c lf ||
  Ascii.eqb c vt || Ascii.eqb c ff || Ascii.eqb c cr.

Definition upper_char (c : ascii) : ascii :=
  if is_lower c then ascii_of_nat (code c - 32) else c.
Definition lower_char (c : ascii) : ascii :=
  if is_upper c then ascii_of_nat (code c + 32) else c.

Fixpoint map_chars (f : ascii → ascii) (s : string) : string :=
  match s with
  | EmptyString => EmptyString
  | String c s' => String (f c) (map_chars f s')
  end.

Definition upper : string → string := map_chars upper_char.
Definition lower : string → string := map_chars lower_char.

Fixpoint contains_char (c : ascii) (s : string) : bool :=
  match s with
  | EmptyString => false
  | String d s' => Ascii.eqb c d || contains_char c s'
  end.

(** [s.split(sep)] for a one-byte separator: one more piece than there are
    separators, empty pieces kept. *)
Fixpoint split (sep : ascii) (s : string) : list string :=
  match s with
  | EmptyString => [EmptyString]
  | String c s' =>
      if Ascii.eqb c sep then EmptyString :: split sep s'
      else match split sep s' with
           | w :: ws => String c w :: ws
           | [] => [String c EmptyString]
           end
  end.

(** [sep.join(words)]. *)
Fixpoint join (sep : string) (words : list string) : string :=
  match words with
  | [] => EmptyString
  | [w] => w
  | w :: ws => w +:+ sep +:+ join sep ws
  end.

Fixpoint lstrip (s : string) : string :=
  match s with
  | EmptyString => EmptyString
  | String c s' => if is_space c then lstrip s' else s
  end.

Fixpoint rstrip (s : string) : string :=
  match s with
  | EmptyString => EmptyString
  | String c s' =>
      match rstrip s' with
      | EmptyString => if is_space c then EmptyString else String c EmptyString
      | t => String c t
      end
  end.

Definition strip (s : string) : string := rstrip (lstrip s).

Definition startswith (p s : string) : bool := String.prefix p s.

(** [s[i:j]] and [s[i:]] for offsets that are not negative. *)
Definition slice (s : string) (i j : nat) : string := String.substring i (j - i) s.
Definition slice_from (s : string) (i : nat) : string :=
  String.substring i (String.length s - i) s.

(** [str.splitlines()] on a byte string: lines end at LF, CR or CR LF, the
    terminators are dropped, and a terminator at the very end opens no
    further line. *)
Fixpoint splitlines_aux (cur : string) (s : string) : list string :=
  match s with
  | EmptyString => if String.eqb cur EmptyString then [] else [cur]
  | String c s' =>
      if Ascii.eqb c lf then cur :: splitlines_aux EmptyString s'
      else if Ascii.eqb c cr then
        match s' with
        | String d s'' =>
            if Ascii.eqb d lf then cur :: splitlines_aux EmptyString s''
            else cur :: splitlines_aux EmptyString s'
        | EmptyString => [cur]
        end
      else splitlines_aux (cur +:+ String c EmptyString) s'
  end.

Definition splitlines (s : string) : list string := splitlines_aux EmptyString s.

(** ["%s" % i] for a natural number. *)
Definition of_nat (n : nat) : string := NilEmpty.string_of_uint (Nat.to_uint n).

End Str.

(** ** Case handling *)

(** [_camel_split_pat1.sub("\\1\t\\2", name)], the pattern being
    [([^A-Z])([A-Z])]: a left-to-right scan that never revisits a byte it
    has consumed. *)
Fixpoint _camel_split_pat1_sub (s : string) : string :=
  match s with
  | EmptyString => EmptyString
  | String c1 rest =>
      match rest with
      | String c2 rest' =>
          if negb (Str.is_upper c1) && Str.is_upper c2
          then String c1 (String Str.tab (String c2 (_camel_split_pat1_sub rest')))
          else String c1 (_camel_split_pat1_sub rest)
      | EmptyString => String c1 EmptyString
      end
  end.

(** [_camel_split_pat2.sub("\\1\t\\2", temp)], the pattern being
    [([A-Z])([A-Z][^A-Z])]. *)
Fixpoint _camel_split_pat2_sub (s : string) : string :=
  match s with
  | EmptyString => EmptyString
  | String c1 rest =>
      match rest with
      | String c2 (String c3 rest') =>
          if Str.is_upper c1 && Str.is_upper c2 && negb (Str.is_upper c3)
          then String c1 (String Str.tab (String c2 (String c3 (_camel_split_pat2_sub rest'))))
          else String c1 (_camel_split_pat2_sub rest)
      | _ => String c1 (_camel_split_pat2_sub rest)
      end
  end.

Definition _split_name (name : string) : string * list string :=
  if Str.contains_char "_" name then ("_", Str.split "_" name)
  else
    let temp := _camel_split_pat1_sub name in
    let temp := _camel_split_pat2_sub temp in
    ("", Str.split Str.tab temp).

(** [word[0]] raises IndexError on the empty string; [word[1:]] does not. *)
Definition _capitalize (word : string) : result string :=
  match word with
  | EmptyString => Raise IndexError
  | String c rest => Ok (String (Str.upper_char c) (Str.lower rest))
  end.

Definition to_lower_camel (name : string) : result string :=
  let words := snd (_split_name name) in
  match words with
  | [] => Raise IndexError
  | w0 :: ws =>
      caps ← rmap _capitalize ws; Ok (Str.lower w0 +:+ Str.join "" caps)
  end.

Definition to_upper_camel (name : string) : result string :=
  let words := snd (_split_name name) in
  caps ← rmap _capitalize words; Ok (Str.join "" caps).

Definition to_lower_underscore (name : string) : result string :=
  let words := snd (_split_name name) in
  Ok (Str.join "_" (map Str.lower words)).

Definition to_upper_underscore (name : string) : result string :=
  let words := snd (_split_name name) in
  Ok (Str.join "_" (map Str.upper words)).

(** [_name_pat.sub(f, expr)] with [_name_pat = \w+]: every maximal run of
    word bytes is replaced by [f] of it, the other bytes are copied.  [cur]
    is the run being read. *)
Definition flush_name (f : string → result string) (cur : string) : result string :=
  if String.eqb cur EmptyString then Ok EmptyString else f cur.

Fixpoint _name_pat_sub (f : string → result string) (cur s : string) : result string :=
  match s with
  | EmptyString => flush_name f cur
  | String c s' =>
      if Str.is_word c then _name_pat_sub f (cur +:+ String c EmptyString) s'
      else
        t ← flush_name f cur;
        u ← _name_pat_sub f EmptyString s';
        Ok (t +:+ String c u)
  end.

(** [_name_pat.findall(expr)]: the maximal runs themselves. *)
Fixpoint _name_pat_findall (cur s : string) : list string :=
  match s with
  | EmptyString => if String.eqb cur EmptyString then [] else [cur]
  | String c s' =>
      if Str.is_word c then _name_pat_findall (cur +:+ String c EmptyString) s'
      else (if String.eqb cur EmptyString then [] else [cur])
             ++ _name_pat_findall EmptyString s'
  end.

Definition name_tokens (expr : string) : list string :=
  _name_pat_findall EmptyString expr.

Definition _transform_expr (expr : string) (transform : string → result string)
  : result string :=
  _name_pat_sub transform EmptyString expr.

Definition all_case_variants (expr : string) : result (list string) :=
  rmap (_transform_expr expr)
       [to_lower_camel; to_upper_camel; to_lower_underscore; to_upper_underscore].

(** ** Regular expressions

    The script uses Python's [re] through four operations: [re.compile],
    [re.escape], [regex.finditer] and [match.expand].  A match object is
    its span, its text and its template expansion; a compiled pattern is its
    source text, its flag and its scan function.  What [re] itself computes
    is supplied by an [Engine]. *)

Record Match := {
  m_start : nat;
  m_end : nat;
  m_group : string;
  m_expand : string → result string
}.

Record regex := {
  re_pattern : string;
  re_insensitive : bool;
  re_finditer : string → list Match
}.

Class Engine := {
  engine_compile : string → bool → result (string → list Match);
  re_escape : string → string
}.

Definition re_compile `{Engine} (pattern : string) (insensitive : bool) : result regex :=
  scan ← engine_compile pattern insensitive;
  Ok {| re_pattern := pattern; re_insensitive := insensitive; re_finditer := scan |}.

Definition span (m : Match) : nat * nat := (m_start m, m_end m).

(** ** String matching *)

Definition _overlap (match1 match2 : Match) : bool :=
  (m_start match1 <? m_end match2) && (m_start match2 <? m_end match1).

(** [bisect.bisect_left(a, x)]: the binary search of the library, its
    [while lo < hi] loop run for at most [fuel] iterations.  The interval
    shrinks at every iteration, so [len(a)] iterations are enough, and
    [a[mid]] is always in range. *)
Fixpoint bisect_loop (fuel : nat) (a : list nat) (x lo hi : nat) : nat :=
  match fuel with
  | 0 => lo
  | S fuel' =>
      if lo <? hi then
        let mid := (lo + hi) / 2 in
        match a !! mid with
        | Some v =>
            if v <? x then bisect_loop fuel' a x (S mid) hi
            else bisect_loop fuel' a x lo mid
        | None => lo
        end
      else lo
  end.

Definition bisect_left (a : list nat) (x : nat) : nat :=
  bisect_loop (length a) a x 0 (length a).

(** [l.insert(index, x)] for [0 <= index]. *)
Definition list_insert_at {A} (index : nat) (x : A) (l : list A) : list A :=
  take index l ++ x :: drop index l.

(** The neighbour test of the loop body; [non_overlaps[i]] is in range
    whenever it is read (lemma [sdo_lengths]). *)
Definition overlaps_at (non_overlaps : list (Match * string)) (i : nat) (m : Match) : bool :=
  match non_overlaps !! i with
  | Some (other, _) => _overlap other m
  | None => false
  end.

(** One iteration of the loop of [_sort_drop_overlaps] on the pair
    [(non_overlaps, starts)]; the messages sent to [log] are not kept. *)
Definition sdo_step (st : list (Match * string) * list nat) (mr : Match * string)
  : list (Match * string) * list nat :=
  let '(non_overlaps, starts) := st in
  let '(match_, replacement) := mr in
  let index := bisect_left starts (m_start match_) in
  if (0 <? index) && overlaps_at non_overlaps (index - 1) match_ then st
  else if (index <? length non_overlaps) && overlaps_at non_overlaps index match_ then st
  else (list_insert_at index (match_, replacement) non_overlaps,
        list_insert_at index (m_start match_) starts).

Definition sdo_loop (matches : list (Match * string))
  : list (Match * string) * list nat :=
  fold_left sdo_step matches ([], []).

Definition _sort_drop_overlaps (matches : list (Match * string)) : list (Match * string) :=
  fst (sdo_loop matches).

Fixpoint _apply_replacements_from (input : string) (pos : nat)
    (matches : list (Match * string)) : result string :=
  match matches with
  | [] => Ok (Str.slice_from input pos)
  | (match_, replacement) :: rest =>
      piece ← m_expand match_ replacement;
      tail ← _apply_replacements_from input (m_end match_) rest;
      Ok (Str.slice input pos (m_start match_) +:+ piece +:+ tail)
  end.

Definition _apply_replacements (input : string) (matches : list (Match * string))
  : result string :=
  _apply_replacements_from input 0 matches.

Record _MatchCounts := { found : nat; valid : nat }.

Definition counts_add (c o : _MatchCounts) : _MatchCounts :=
  {| found := found c + found o; valid := valid c + valid o |}.

Record _Tally := {
  t_files : nat;
  t_chars : nat;
  t_matches : nat;
  t_valid_matches : nat;
  t_files_written : nat;
  t_renames : nat
}.

Definition _Tally_init : _Tally :=
  {| t_files := 0; t_chars := 0; t_matches := 0; t_valid_matches := 0;
     t_files_written := 0; t_renames := 0 |}.

(** The matches of every rule, rule by rule in declaration order. *)
Definition collect_matches (input : string) (patterns : list (regex * string))
  : list (Match * string) :=
  flat_map (fun '(regex, replacement) =>
              map (fun m => (m, replacement)) (re_finditer regex input))
           patterns.

(** ** The world: files, tally and the moves performed *)

Inductive entry :=
| File (content : string) (mode : N)
| Dir.

Record World := {
  fs : gmap string entry;
  tally : _Tally;
  moved : list (string * string)
}.

Definition M (A : Type) : Type := World → result A * World.

Global Instance M_ret : MRet M := λ A a w, (Ok a, w).
Global Instance M_bind : MBind M := λ A B k c w,
  match c w with
  | (Ok a, w') => k a w'
  | (Raise e, w') => (Raise e, w')
  end.

Definition raise {A} (e : exn) : M A := λ w, (Raise e, w).
Definition lift {A} (r : result A) : M A := λ w, (r, w).
Definition get_fs : M (gmap string entry) := λ w, (Ok (fs w), w).
Definition put_fs (f : gmap string entry) : M unit :=
  λ w, (Ok tt, {| fs := f; tally := tally w; moved := moved w |}).
Definition modify_tally (f : _Tally → _Tally) : M unit :=
  λ w, (Ok tt, {| fs := fs w; tally := f (tally w); moved := moved w |}).
Definition record_move (src dst : string) : M unit :=
  λ w, (Ok tt, {| fs := fs w; tally := tally w; moved := moved w ++ [(src, dst)] |}).

Definition multi_replace (input : string) (patterns : list (regex * string))
    (is_path : bool) (source_name : option string) : M (string * _MatchCounts) :=
  let matches := collect_matches input patterns in
  let valid_matches := _sort_drop_overlaps matches in
  result ← lift (_apply_replacements input valid_matches);
  _ ← (if negb is_path then
         modify_tally (fun t =>
           {| t_files := t_files t;
              t_chars := t_chars t + String.length input;
              t_matches := t_matches t + length matches;
              t_valid_matches := t_valid_matches t + length valid_matches;
              t_files_written := t_files_written t;
              t_renames := t_renames t |})
       else mret tt);
  mret (result, {| found := length matches; valid := length valid_matches |}).

(** ** An engine for escaped literals

    The fragment of [re] in which a pattern is a sequence of bytes that
    stand for themselves (written plainly when they are not special, behind
    a backslash when they are not alphanumeric, as [re.escape] writes them)
    and of [\b] assertions, and a template is plain text with the escapes
    [\n], [\t], [\r] and [\\].  Inside the fragment a match at a position is
    unique, so the scan is the same for every version of [re].  Patterns and
    templates outside the fragment are reported as [ReError]; the fragment is
    used only for the concrete runs below. *)

Module Simple.

Inductive atom :=
| Lit (c : ascii)
| WordB.

Definition is_special (c : ascii) : bool :=
  Str.contains_char c ".^$*+?{}[]|()\".

Definition backslash : ascii := ascii_of_nat 92.

Fixpoint parse_atoms (p : string) : option (list atom) :=
  match p with
  | EmptyString => Some []
  | String c rest =>
      if Ascii.eqb c backslash then
        match rest with
        | String d rest' =>
            if Ascii.eqb d "b" then cons WordB <$> parse_atoms rest'
            else if Str.is_alnum d then None
            else cons (Lit d) <$> parse_atoms rest'
        | EmptyString => None
        end
      else if is_special c then None
      else cons (Lit c) <$> parse_atoms rest
  end.

Definition char_eq (insensitive : bool) (c d : ascii) : bool :=
  if insensitive then Ascii.eqb (Str.lower_char c) (Str.lower_char d)
  else Ascii.eqb c d.

Definition is_word_opt (c : option ascii) : bool :=
  match c with Some c => Str.is_word c | None => false end.

Definition head_char (s : string) : option ascii :=
  match s with String c _ => Some c | EmptyString => None end.

(** The length of the match of [atoms] that starts where [s] starts, the
    byte before being [prev]. *)
Fixpoint match_atoms (insensitive : bool) (atoms : list atom)
    (prev : option ascii) (s : string) : option nat :=
  match atoms with
  | [] => Some 0
  | WordB :: atoms' =>
      if xorb (is_word_opt prev) (is_word_opt (head_char s))
      then match_atoms insensitive atoms' prev s
      else None
  | Lit c :: atoms' =>
      match s with
      | String d s' =>
          if char_eq insensitive c d
          then S <$> match_atoms insensitive atoms' (Some d) s'
          else None
      | EmptyString => None
      end
  end.

(** The spans of [finditer]: leftmost matches, each search starting where
    the match before ended.  [skip] counts the bytes still inside the
    match before. *)
Fixpoint finditer_spans (insensitive : bool) (atoms : list atom)
    (prev : option ascii) (pos skip : nat) (s : string) : list (nat * nat) :=
  let here :=
    match skip with
    | 0 => match_atoms insensitive atoms prev s
    | S _ => None
    end in
  match s with
  | EmptyString =>
      match here with
      | Some n => [(pos, pos + n)]
      | None => []
      end
  | String c s' =>
      match here with
      | Some n =>
          (pos, pos + n) :: finditer_spans insensitive atoms (Some c) (S pos) (n - 1) s'
      | None => finditer_spans insensitive atoms (Some c) (S pos) (skip - 1) s'
      end
  end.

Definition escape_char (d : ascii) : option ascii :=
  if Ascii.eqb d "n" then Some Str.lf
  else if Ascii.eqb d "t" then Some Str.tab
  else if Ascii.eqb d "r" then Some Str.cr
  else if Ascii.eqb d backslash then Some backslash
  else None.

Fixpoint expand_template (whole template : string) : result string :=
  match template with
  | EmptyString => Ok EmptyString
  | String c rest =>
      if Ascii.eqb c backslash then
        match rest with
        | String d rest' =>
            match escape_char d with
            | Some e => t ← expand_template whole rest'; Ok (String e t)
            | None => Raise (ReError whole)
            end
        | EmptyString => Raise (ReError whole)
        end
      else t ← expand_template whole rest; Ok (String c t)
  end.

Definition make_match (input : string) (sp : nat * nat) : Match :=
  {| m_start := fst sp;
     m_end := snd sp;
     m_group := Str.slice input (fst sp) (snd sp);
     m_expand := fun template => expand_template template template |}.

Definition compile (pattern : string) (insensitive : bool)
  : result (string → list Match) :=
  match parse_atoms pattern with
  | Some atoms =>
      Ok (fun input =>
            map (make_match input) (finditer_spans insensitive atoms None 0 0 input))
  | None => Raise (ReError pattern)
  end.

(** [re.escape] of Python 2: a backslash before every byte that is not
    alphanumeric, NUL written as [\000]. *)
Fixpoint escape (pattern : string) : string :=
  match pattern with
  | EmptyString => EmptyString
  | String c rest =>
      if Str.is_alnum c then String c (escape rest)
      else if Ascii.eqb c (ascii_of_nat 0) then "\000" +:+ escape rest
      else String backslash (String c (escape rest))
  end.

#[export] Instance engine : Engine :=
  {| engine_compile := compile; re_escape := escape |}.

End Simple.

(** ** Pattern files *)

(** Comparison of [(pattern, replacement)] tuples: byte-wise lexicographic
    on the first component, then on the second. *)
Definition pair_compare (a b : string * string) : comparison :=
  match String.compare (fst a) (fst b) with
  | Eq => String.compare (snd a) (snd b)
  | c => c
  end.

Definition pair_leb (a b : string * string) : bool :=
  match pair_compare a b with Gt => false | _ => true end.

Definition pair_lt (a b : string * string) : Prop := pair_compare a b = Lt.

Fixpoint insert_sorted (x : string * string) (l : list (string * string))
  : list (string * string) :=
  match l with
  | [] => [x]
  | y :: l' => if pair_leb x y then x :: l else y :: insert_sorted x l'
  end.

(** [sorted(l)]: a stable sort into ascending order. *)
Definition sorted (l : list (string * string)) : list (string * string) :=
  foldr insert_sorted [] l.

(** [set(l)]: the distinct elements; the order in which a set is iterated
    does not reach the caller, which sorts it. *)
Definition py_set (l : list (string * string)) : list (string * string) :=
  remove_dups l.

Section Parse.
Context `{Engine}.

Definition wrap_word_breaks (word_breaks : bool) (regex_variant : string) : string :=
  if word_breaks then "\b" +:+ regex_variant +:+ "\b" else regex_variant.

(** The variable [pairs] of [parse_patterns] when the inner loop starts. *)
Definition line_pairs (regex replacement : string) (preserve_case : bool)
  : result (list (string * string)) :=
  pairs ← (if preserve_case then
             vr ← all_case_variants regex;
             vp ← all_case_variants replacement;
             Ok (zip vr vp)
           else Ok []);
  Ok (sorted (py_set (pairs ++ [(regex, replacement)]))).

Definition compile_pair (word_breaks insensitive : bool) (p : string * string)
  : result (regex * string) :=
  r ← re_compile (wrap_word_breaks word_breaks (fst p)) insensitive;
  Ok (r, snd p).

(** The body of the loop over the lines: the rules the line adds. *)
Definition parse_line (literal word_breaks insensitive preserve_case : bool)
    (line : string) : result (list (regex * string)) :=
  let bits := Str.split Str.tab line in
  if Str.startswith "#" (Str.strip line) then Ok []
  else if negb (String.eqb (Str.strip line) "") && (length bits =? 2) then
    match bits with
    | [regex; replacement] =>
        let regex := if literal then re_escape regex else regex in
        pairs ← line_pairs regex replacement preserve_case;
        rmap (compile_pair word_breaks insensitive) pairs
    | _ => Raise ValueError
    end
  else Raise (SystemExit (InvalidLine bits)).

(** [except Exception as e: raise e] hands every exception on, and
    [sys.exit] is not an [Exception]: the first line that raises ends the
    parse. *)
Definition parse_patterns (patterns_str : string)
    (literal word_breaks insensitive preserve_case : bool)
  : result (list (regex * string)) :=
  blocks ← rmap (parse_line literal word_breaks insensitive preserve_case)
                (Str.splitlines patterns_str);
  Ok (concat blocks).

End Parse.

(** What a rule list shows when printed: pattern texts and replacements. *)
Definition rule_texts (rules : list (regex * string)) : list (string * string) :=
  map (fun '(r, replacement) => (re_pattern r, replacement)) rules.

(** ** File handling

    The operating system is a finite map from path strings to entries; paths
    are compared as strings.  A write reaches the file when it is issued, and
    may fail part-way as the platform's [io_fault] says: [io_fault p k = Some n]
    makes the [k]-th write to [p] store [n] bytes at most and raise. *)

Definition BACKUP_SUFFIX : string := ".orig".
Definition TEMP_SUFFIX : string := ".repren.tmp".
Definition DEFAULT_EXCLUDE_PAT : string := "\.".

Class Platform := {
  io_fault : string → nat → option nat;
  (** the file mode creation mask of the process: its bits are cleared in
      the mode of every file that is created *)
  umask : N;
  (** the triples [os.walk(top)] yields when the consumer keeps, in each
      [dirs], the names that satisfy [keep] *)
  os_walk : gmap string entry → string → (string → bool)
            → list (string * list string * list string);
  (** [re.compile(exclude_pat).match], as a test on names *)
  exclude_compile : string → result (string → bool)
}.

Definition fail {A} (msg : fail_msg) : M A := raise (SystemExit msg).

Definition os_path_exists (f : gmap string entry) (path : string) : bool :=
  bool_decide (is_Some (f !! path)).

Definition os_path_isdir (f : gmap string entry) (path : string) : bool :=
  match f !! path with Some Dir => true | _ => false end.

Definition os_path_isfile (f : gmap string entry) (path : string) : bool :=
  match f !! path with Some (File _ _) => true | _ => false end.

Module Path.

(** The text up to and including the last slash, and the text after it. *)
Fixpoint rsplit_slash (p : string) : string * string :=
  match p with
  | EmptyString => (EmptyString, EmptyString)
  | String c p' =>
      let '(head, tail) := rsplit_slash p' in
      if Str.contains_char "/" p' then (String c head, tail)
      else if Ascii.eqb c "/" then ("/", p')
      else (EmptyString, String c p')
  end.

Fixpoint all_slashes (s : string) : bool :=
  match s with
  | EmptyString => true
  | String c s' => Ascii.eqb c "/" && all_slashes s'
  end.

Fixpoint rstrip_slashes (s : string) : string :=
  match s with
  | EmptyString => EmptyString
  | String c s' =>
      match rstrip_slashes s' with
      | EmptyString => if Ascii.eqb c "/" then EmptyString else String c EmptyString
      | t => String c t
      end
  end.

(** [os.path.dirname] of posixpath. *)
Definition dirname (p : string) : string :=
  let head := fst (rsplit_slash p) in
  if negb (String.eqb head "") && negb (all_slashes head) then rstrip_slashes head
  else head.

Definition basename (p : string) : string := snd (rsplit_slash p).

(** [os.path.join(a, b)] of posixpath for two components. *)
Definition join (a b : string) : string :=
  if Str.startswith "/" b then b
  else if String.eqb a "" || String.eqb (Str.slice_from a (String.length a - 1)) "/"
       then a +:+ b
       else a +:+ "/" +:+ b.

(** The proper ancestors of [p] that a recursive [mkdir] visits, shortest
    first: the prefixes of [p] that end before a slash and are not empty. *)
Fixpoint ancestors_aux (before : string) (p : string) : list string :=
  match p with
  | EmptyString => []
  | String c p' =>
      (if Ascii.eqb c "/" && negb (String.eqb before "") then [before] else [])
        ++ ancestors_aux (before +:+ String c EmptyString) p'
  end.

Definition ancestors (p : string) : list string := ancestors_aux EmptyString p.

End Path.

(** [os.makedirs(dir)]: missing ancestors are created, an ancestor that is a
    file stops it, and so does [dir] itself when it exists.  What was created
    before the failure stays. *)
Fixpoint mkdir_ancestors (f : gmap string entry) (ps : list string)
  : result unit * gmap string entry :=
  match ps with
  | [] => (Ok tt, f)
  | p :: ps' =>
      match f !! p with
      | None => mkdir_ancestors (<[p := Dir]> f) ps'
      | Some Dir => mkdir_ancestors f ps'
      | Some (File _ _) => (Raise (OSError p), f)
      end
  end.

Definition os_makedirs (dir : string) : M unit :=
  f ← get_fs;
  let '(r, f') := mkdir_ancestors f (Path.ancestors dir) in
  _ ← put_fs f';
  _ ← lift r;
  match f' !! dir with
  | None => put_fs (<[dir := Dir]> f')
  | Some _ => raise (OSError dir)
  end.

Definition make_parent_dirs (path : string) : M string :=
  let dir := Path.dirname path in
  f ← get_fs;
  _ ← (if negb (String.eqb dir "") && negb (os_path_isdir f dir)
       then os_makedirs dir else mret tt);
  mret path.

(** [shutil.move(src, dst)]: into [dst] when it is a directory, which fails
    if the name is taken there; a rename otherwise, which replaces a file at
    [dst].  Only the entry at [src] itself moves. *)
Definition shutil_move (src dst : string) : M unit :=
  f ← get_fs;
  match f !! src with
  | None => raise (OSError src)
  | Some e =>
      let real_dst :=
        if os_path_isdir f dst then Path.join dst (Path.basename src) else dst in
      if os_path_isdir f dst && os_path_exists f real_dst
      then raise (ShutilError real_dst)
      else
        _ ← put_fs (<[real_dst := e]> (delete src f));
        record_move src real_dst
  end.

(** [trailing_num.match(s).group(1)]: [trailing_num] is a greedy group of
    any bytes but line feeds, then a dot, then one digit or more, then [$]. *)
Module TrailingNum.

(** [\d*$] at the start of [s]: digits up to the end, or up to a line feed
    that ends the string. *)
Fixpoint digits_end (s : string) : bool :=
  match s with
  | EmptyString => true
  | String c s' =>
      if Str.is_digit c then digits_end s'
      else Ascii.eqb c Str.lf && String.eqb s' ""
  end.

(** [\d+$] at the start of [s]. *)
Definition num_end (s : string) : bool :=
  match s with
  | EmptyString => false
  | String c s' => Str.is_digit c && digits_end s'
  end.

(** The greedy group first takes the byte, unless it is a line feed, and gives
    it back when the rest does not match. *)
Fixpoint group1 (s : string) : option string :=
  match s with
  | EmptyString => None
  | String c s' =>
      match (if Ascii.eqb c Str.lf then None else group1 s') with
      | Some g => Some (String c g)
      | None => if Ascii.eqb c "." && num_end s' then Some EmptyString else None
      end
  end.

End TrailingNum.

Definition next_candidate (dest_path : string) (i : nat) : string :=
  let dest_path :=
    match TrailingNum.group1 dest_path with
    | Some g => g
    | None => dest_path
    end in
  dest_path +:+ "." +:+ Str.of_nat i.

(** The [while] loop of [move_file], run for at most [fuel] iterations. *)
Fixpoint move_file_loop (fuel : nat) (f : gmap string entry)
    (dest_path : string) (i : nat) : option string :=
  if os_path_exists f dest_path then
    match fuel with
    | 0 => None
    | S fuel' => move_file_loop fuel' f (next_candidate dest_path i) (S i)
    end
  else Some dest_path.

(** The loop is run with more fuel than it can use (lemma
    [move_file_loop_total]), so the last branch is never taken. *)
Definition move_file (source_path dest_path : string) (clobber : bool) : M unit :=
  if negb clobber then
    f ← get_fs;
    match move_file_loop (size f + 2) f dest_path 1 with
    | Some dest_path => shutil_move source_path dest_path
    | None => raise (OSError dest_path)
    end
  else shutil_move source_path dest_path.

(** An open output file: its path, the offset of the next write and the
    number of writes issued so far. *)
Record handle := { h_path : string; h_pos : nat; h_calls : nat }.

Definition stat_mode (e : entry) : N :=
  match e with
  | File _ mode => mode
  | Dir => 493%N
  end.

(** [os.stat(path).st_mode & 0o777]. *)
Definition os_stat_perms (path : string) : M N :=
  f ← get_fs;
  match f !! path with
  | Some e => mret (N.land (stat_mode e) 511%N)
  | None => raise (OSError path)
  end.

(** [open(path, "rb")]: the model reads the content when the file is opened. *)
Definition open_rb (path : string) : M string :=
  f ← get_fs;
  match f !! path with
  | Some (File content _) => mret content
  | _ => raise (IOError path)
  end.

(** [os.open(path, os.O_WRONLY | os.O_CREAT, perms)]: a missing file is
    created empty with the bits of [perms] that the umask leaves
    ([perms & ~umask]); an existing one is opened as it is, not truncated,
    and keeps its mode. *)
Definition os_open_wronly_creat `{Platform} (path : string) (perms : N) : M handle :=
  f ← get_fs;
  match f !! path with
  | None =>
      _ ← put_fs (<[path := File "" (N.ldiff perms umask)]> f);
      mret {| h_path := path; h_pos := 0; h_calls := 0 |}
  | Some (File _ _) => mret {| h_path := path; h_pos := 0; h_calls := 0 |}
  | Some Dir => raise (OSError path)
  end.

Definition overwrite (content : string) (pos : nat) (data : string) : string :=
  String.substring 0 pos content +:+ data +:+
  Str.slice_from content (pos + String.length data).

Section Files.
Context `{Platform}.

(** [output.write(data)]. *)
Definition file_write (output : handle) (data : string) : M handle :=
  f ← get_fs;
  match f !! h_path output with
  | Some (File content mode) =>
      let fault := io_fault (h_path output) (h_calls output) in
      let stored :=
        match fault with
        | Some n => String.substring 0 n data
        | None => data
        end in
      _ ← put_fs (<[h_path output := File (overwrite content (h_pos output) stored) mode]> f);
      match fault with
      | Some _ => raise (IOError (h_path output))
      | None =>
          mret {| h_path := h_path output;
                  h_pos := h_pos output + String.length stored;
                  h_calls := S (h_calls output) |}
      end
  | _ => raise (IOError (h_path output))
  end.

(** The lines a binary file yields when iterated: each ends with its line
    feed, but for a last one that has none. *)
Fixpoint file_lines_aux (cur s : string) : list string :=
  match s with
  | EmptyString => if String.eqb cur "" then [] else [cur]
  | String c s' =>
      if Ascii.eqb c Str.lf then (cur +:+ String c "") :: file_lines_aux "" s'
      else file_lines_aux (cur +:+ String c "") s'
  end.

Definition file_lines (content : string) : list string := file_lines_aux "" content.

Definition transform_fn : Type := string → M (string * _MatchCounts).

Fixpoint transform_lines (transform : option transform_fn) (lines : list string)
    (output : handle) (counts : _MatchCounts) : M _MatchCounts :=
  match lines with
  | [] => mret counts
  | line :: lines' =>
      match transform with
      | Some t =>
          '(new_line, new_counts) ← t line;
          output ← file_write output new_line;
          transform_lines transform lines' output (counts_add counts new_counts)
      | None => raise UnboundLocalError
      end
  end.

(** In the branch that is not [by_line] the counts of the transform are
    dropped: [counts] is returned as it was created.  Without a transform the
    tuple assignment unpacks the content itself, which takes a content of two
    bytes. *)
Definition transform_stream (transform : option transform_fn) (input : string)
    (output : handle) (by_line : bool) : M _MatchCounts :=
  let counts := {| found := 0; valid := 0 |} in
  if by_line then transform_lines transform (file_lines input) output counts
  else
    '(new_contents, _) ←
       match transform with
       | Some t => '(c, n) ← t input; mret (c, Some n)
       | None =>
           match input with
           | String c0 (String c1 EmptyString) => mret (String c0 "", None)
           | _ => raise ValueError
           end
       end;
    _ ← file_write output new_contents;
    mret counts.

Definition os_remove (path : string) : M unit :=
  f ← get_fs;
  match f !! path with
  | Some (File _ _) => put_fs (delete path f)
  | _ => raise (OSError path)
  end.

Definition tally_file (counts : _MatchCounts) (renamed : bool) (t : _Tally) : _Tally :=
  {| t_files := t_files t + 1;
     t_chars := t_chars t;
     t_matches := t_matches t;
     t_valid_matches := t_valid_matches t;
     t_files_written := t_files_written t + (if 0 <? found counts then 1 else 0);
     t_renames := t_renames t + (if (0 <? found counts) && renamed then 1 else 0) |}.

Definition transform_file (transform : option transform_fn)
    (source_path dest_path orig_suffix temp_suffix : string)
    (by_line dry_run : bool) : M _MatchCounts :=
  let counts := {| found := 0; valid := 0 |} in
  match transform with
  | Some _ =>
      let orig_path := source_path +:+ orig_suffix in
      let temp_path := dest_path +:+ temp_suffix in
      _ ← make_parent_dirs temp_path;
      perms ← os_stat_perms source_path;
      input ← open_rb source_path;
      output ← os_open_wronly_creat temp_path perms;
      counts ← transform_stream transform input output by_line;
      _ ← (if negb dry_run && (0 <? found counts) then
             _ ← move_file source_path orig_path true;
             move_file temp_path dest_path false
           else os_remove temp_path);
      _ ← modify_tally (tally_file counts (negb (String.eqb dest_path source_path)));
      mret counts
  | None => mret counts
  end.

Definition rewrite_file (path : string) (patterns : list (regex * string))
    (do_renames do_contents by_line dry_run : bool) : M unit :=
  dest_path ← (if do_renames
               then r ← multi_replace path patterns true None; mret (fst r)
               else mret path);
  let transform : option transform_fn :=
    if do_contents
    then Some (fun contents => multi_replace contents patterns false (Some path))
    else None in
  _ ← transform_file transform path dest_path BACKUP_SUFFIX TEMP_SUFFIX by_line dry_run;
  mret tt.

Definition endswith (suffix s : string) : bool :=
  String.eqb (Str.slice_from s (String.length s - String.length suffix)) suffix
  && (String.length suffix <=? String.length s).

Fixpoint walk_paths (exclude : string → bool) (paths : list string) : M (list string) :=
  match paths with
  | [] => mret []
  | path :: paths' =>
      f ← get_fs;
      _ ← (if os_path_exists f path then mret tt else fail (PathNotFound path));
      here ← mret (if os_path_isfile f path then [path]
                   else flat_map (fun '(root, dirs, files) =>
                          map (Path.join root)
                              (filter (fun name => negb (exclude name)
                                                   && negb (endswith BACKUP_SUFFIX name)
                                                   && negb (endswith TEMP_SUFFIX name) = true)
                                      files))
                          (os_walk f path (fun d => negb (exclude d))));
      rest ← walk_paths exclude paths';
      mret (here ++ rest)
  end.

Definition walk_files (paths : list string) (exclude_pat : string) : M (list string) :=
  exclude ← lift (exclude_compile exclude_pat);
  walk_paths exclude paths.

(** The [for] loop of [rewrite_files]: no exception is caught in it. *)
Fixpoint rewrite_each (paths : list string) (patterns : list (regex * string))
    (do_renames do_contents by_line dry_run : bool) : M unit :=
  match paths with
  | [] => mret tt
  | path :: paths' =>
      _ ← rewrite_file path patterns do_renames do_contents by_line dry_run;
      rewrite_each paths' patterns do_renames do_contents by_line dry_run
  end.

Definition rewrite_files (root_paths : list string) (patterns : list (regex * string))
    (do_renames do_contents : bool) (exclude_pat : string)
    (by_line dry_run : bool) : M unit :=
  paths ← walk_files root_paths exclude_pat;
  rewrite_each paths patterns do_renames do_contents by_line dry_run.

End Files.

(** ** A concrete platform for the runs below

    Directory listings are read off the map: the children of [top] are the
    entries whose [dirname] is [top], in the order of the map. *)

Module Posix.

Definition children (f : gmap string entry) (top : string) : list (string * entry) :=
  omap (fun '(p, e) =>
          if String.eqb (Path.dirname p) top && negb (String.eqb (Path.basename p) "")
          then Some (Path.basename p, e) else None)
       (map_to_list f).

Definition is_dir_entry (ne : string * entry) : bool :=
  match snd ne with Dir => true | File _ _ => false end.

Fixpoint walk (fuel : nat) (f : gmap string entry) (top : string)
    (keep : string → bool) : list (string * list string * list string) :=
  match fuel with
  | 0 => []
  | S fuel' =>
      let names := children f top in
      let dirs := map fst (filter (fun ne => is_dir_entry ne = true) names) in
      let files := map fst (filter (fun ne => is_dir_entry ne = false) names) in
      (top, dirs, files)
        :: flat_map (fun d => walk fuel' f (Path.join top d) keep)
                    (filter (fun d => keep d = true) dirs)
  end.

Definition exclude (pat : string) : result (string → bool) :=
  match Simple.parse_atoms pat with
  | Some atoms =>
      Ok (fun name => bool_decide (is_Some (Simple.match_atoms false atoms None name)))
  | None => Raise (ReError pat)
  end.

(** The usual mask, 022: files are created without write permission for
    group and others. *)
Definition default_umask : N := 18%N.

Definition platform (fault : string → nat → option nat) : Platform :=
  {| io_fault := fault;
     umask := default_umask;
     os_walk := fun f top keep => walk (size f) f top keep;
     exclude_compile := exclude |}.

Definition no_fault : string → nat → option nat := fun _ _ => None.

(** The first write to [path] stores [n] bytes and fails. *)
Definition fault_at (path : string) (n : nat) : string → nat → option nat :=
  fun p k => if String.eqb p path && (k =? 0) then Some n else None.

End Posix.

(** ** Vocabulary of the properties *)

(** *** Pattern files and rule lists for the concrete runs

    A pattern file is written as its lines; the rules are those the script
    itself compiles from it, with the engine for escaped literals. *)

Definition LF : string := String Str.lf "".
Definition TAB : string := String Str.tab "".

Definition rule_line (pattern replacement : string) : string :=
  pattern +:+ TAB +:+ replacement.

Definition text_of_lines (lines : list string) : string := Str.join LF lines.

Definition pattern_file (lines : list (string * string)) : string :=
  text_of_lines (map (fun '(p, r) => rule_line p r) lines).

(** [parse_patterns] with no flag but, possibly, preserve_case. *)
Definition parse_simple (patterns_str : string) (preserve_case : bool)
  : result (list (regex * string)) :=
  @parse_patterns Simple.engine patterns_str false false false preserve_case.

Definition compiled (lines : list (string * string)) (preserve_case : bool)
  : list (regex * string) :=
  match parse_simple (pattern_file lines) preserve_case with
  | Ok rules => rules
  | Raise _ => []
  end.

Definition texts_of (r : result (list (regex * string))) : result (list (string * string)) :=
  rules ← r; Ok (rule_texts rules).

Definition spans_of (matches : list (Match * string)) : list (nat * nat * string) :=
  map (fun '(m, replacement) => (span m, replacement)) matches.

(** The value [multi_replace] returns for file contents. *)
Definition run_multi_replace (input : string) (rules : list (regex * string)) (w : World)
  : result (string * _MatchCounts) :=
  fst (multi_replace input rules false None w).

Definition output_of (r : result (string * _MatchCounts)) : option string :=
  match r with
  | Ok (out, _) => Some out
  | Raise _ => None
  end.

Definition empty_world : World := {| fs := ∅; tally := _Tally_init; moved := [] |}.

Definition tie_rules : list (regex * string) := compiled [("a", "X"); ("ab", "Y")] false.
Definition swap_rules : list (regex * string) := compiled [("foo", "bar"); ("bar", "foo")] false.
Definition case_rules : list (regex * string) := compiled [("foo_bar", "xxx_yyy")] true.
Definition empty_rules : list (regex * string) := compiled [("", "X"); ("ab", "Y")] false.
Definition foo_rules : list (regex * string) := compiled [("foo", "quux")] false.

(** Replacing one rule after the other, as a sequential tool would. *)
Definition sequential_replace (input : string) (rules : list (regex * string)) (w : World)
  : result string :=
  fold_left (fun acc rule =>
               s ← acc;
               r ← run_multi_replace s [rule] w;
               Ok (fst r))
            rules (Ok input).

(** *** Case handling *)

(** No word of the token is empty. *)
Definition words_nonempty (token : string) : Prop :=
  Forall (fun w => w ≠ "") (snd (_split_name token)).

(** *** Selections *)

(** The insertion point of [x] in a sorted list, found by a scan from the
    left: the length of the run of elements below [x]. *)
Fixpoint bisect_scan (a : list nat) (x : nat) : nat :=
  match a with
  | [] => 0
  | y :: a' => if y <? x then S (bisect_scan a' x) else 0
  end.

Definition start_of (mr : Match * string) : nat := m_start (fst mr).
Definition end_of (mr : Match * string) : nat := m_end (fst mr).

(** Ascending start offsets. *)
Definition ascending (l : list (Match * string)) : Prop :=
  StronglySorted le (map start_of l).

(** No two elements have intersecting half-open intervals. *)
Definition pairwise_disjoint (l : list (Match * string)) : Prop :=
  ∀ i j a b, i < j → l !! i = Some a → l !! j = Some b →
             _overlap (fst a) (fst b) = false.

(** The state of the loop: [starts] lists the start offsets of
    [non_overlaps], in ascending order. *)
Definition sdo_inv (st : list (Match * string) * list nat) : Prop :=
  snd st = map start_of (fst st) ∧ StronglySorted le (snd st).

(** Each match ends where the next starts, or before. *)
Definition before (mr1 mr2 : Match * string) : Prop := end_of mr1 ≤ start_of mr2.
Definition nonempty (mr : Match * string) : Prop := start_of mr < end_of mr.

(** The state of the loop when no match is empty: the selected matches
    follow one another without touching. *)
Definition sdo_chain (st : list (Match * string) * list nat) : Prop :=
  sdo_inv st ∧ StronglySorted before (fst st) ∧ Forall nonempty (fst st).

(** *** Rules of a line *)

Definition pair_le (a b : string * string) : Prop := pair_leb a b = true.

(** Removing later duplicates and keeping the order of first occurrences:
    the stable deduplication the specification describes. *)
Fixpoint dedup_stable (seen l : list (string * string)) : list (string * string) :=
  match l with
  | [] => []
  | x :: l' =>
      if bool_decide (x ∈ seen) then dedup_stable seen l'
      else x :: dedup_stable (x :: seen) l'
  end.

(** The pairs of a line as the specification orders them: the four variant
    pairs in their fixed order, then the original pair, later duplicates
    removed. *)
Definition spec_line_pairs (regex replacement : string) : result (list (string * string)) :=
  vr ← all_case_variants regex;
  vp ← all_case_variants replacement;
  Ok (dedup_stable [] (zip vr vp ++ [(regex, replacement)])).

Fixpoint tab_count (line : string) : nat :=
  match line with
  | EmptyString => 0
  | String c line' => (if Ascii.eqb c Str.tab then 1 else 0) + tab_count line'
  end.

(** *** Moves *)

(** The path [move_file] would build next when [dest_path] exists: its
    numeric suffix, if it has one, taken off. *)
Definition base_of (dest_path : string) : string :=
  match TrailingNum.group1 dest_path with
  | Some g => g
  | None => dest_path
  end.

(** The path the loop of [move_file] tests in its [n]-th iteration. *)
Fixpoint candidate (dest_path : string) (n : nat) : string :=
  match n with
  | 0 => dest_path
  | S n' => next_candidate (candidate dest_path n') n
  end.

Fixpoint all_digits (s : string) : bool :=
  match s with
  | EmptyString => true
  | String c s' => Str.is_digit c && all_digits s'
  end.

Fixpoint last_char (s : string) : option ascii :=
  match s with
  | EmptyString => None
  | String c s' =>
      match last_char s' with
      | None => Some c
      | Some d => Some d
      end
  end.

(** [base] is [dest_path] without its numeric suffix: the text before a
    final dot that only digits follow, or [dest_path] itself when it does not
    end so. *)
Definition stripped (dest_path base : string) : Prop :=
  (∃ d, d ≠ "" ∧ all_digits d = true ∧ dest_path = base +:+ "." +:+ d) ∨
  (base = dest_path ∧
   ∀ b d, d ≠ "" → all_digits d = true → dest_path ≠ b +:+ "." +:+ d).

(** A file whose name has a line feed before its numeric suffix, and a new
    file. *)
Definition lf_files : World :=
  {| fs := list_to_map [("a" +:+ LF +:+ "b.1", File "A" 420%N);
                        ("new", File "C" 384%N)];
     tally := _Tally_init;
     moved := [] |}.

Definition three_files : World :=
  {| fs := list_to_map [("out", File "A" 420%N); ("out.1", File "B" 420%N);
                        ("new", File "C" 384%N)];
     tally := _Tally_init;
     moved := [] |}.

(** *** Transforms of files *)

(** From [w] to [w'] no move was performed and every entry but the one at
    [temp_path] is as it was. *)
Definition keeps (temp_path : string) (w w' : World) : Prop :=
  moved w' = moved w ∧
  ∀ p x, p ≠ temp_path → fs w !! p = Some x → fs w' !! p = Some x.

(** Whatever its outcome, the computation touches [temp_path] only. *)
Definition safe {A} (temp_path : string) (c : M A) : Prop :=
  ∀ w r w', c w = (r, w') → keeps temp_path w w'.

(** The computation never ends in an [IOError]. *)
Definition no_io_error {A} (c : M A) : Prop :=
  ∀ w w' p, c w ≠ (Raise (IOError p), w').

(** A transform that leaves files and moves alone, as [multi_replace] does. *)
Definition pure_transform (t : string → M (string * _MatchCounts)) : Prop :=
  ∀ s w, fs (snd (t s w)) = fs w ∧ moved (snd (t s w)) = moved w.

Definition run_files : World :=
  {| fs := list_to_map
             [("a.txt", File ("foo" +:+ LF +:+ "bar foo" +:+ LF) 420%N);
              ("a.txt.orig", File "OLD" 420%N);
              ("b.txt", File "foo" 384%N);
              ("c.txt", File "a foo" 420%N)];
     tally := _Tally_init;
     moved := [] |}.

(** On [faulty] the first write to the temporary file of [a.txt] stores two
    bytes and fails; on [sound] no write fails. *)
Definition faulty : Platform := Posix.platform (Posix.fault_at "a.txt.repren.tmp" 2).
Definition sound : Platform := Posix.platform Posix.no_fault.

(** The transform [rewrite_file] builds for [a.txt]. *)
Definition foo_transform : string → M (string * _MatchCounts) :=
  fun contents => multi_replace contents foo_rules false (Some "a.txt").

Definition run_roots : list string := ["b.txt"; "a.txt"; "c.txt"].

(** The worlds of the faulty run: after [b.txt], and after the failure on
    [a.txt]. *)
Definition after_b : World :=
  snd (@rewrite_each faulty ["b.txt"] foo_rules false true true false run_files).

Definition after_a : World :=
  snd (@rewrite_file faulty "a.txt" foo_rules false true true false after_b).

(** *** Replacements *)

(** The match is inside the buffer and its replacement expands to the text
    it matched. *)
Definition echoes (input : string) (mr : Match * string) : Prop :=
  start_of mr ≤ end_of mr ∧ end_of mr ≤ String.length input ∧
  m_expand (fst mr) (snd mr) = Ok (Str.slice input (start_of mr) (end_of mr)).

Definition echo_rules : list (regex * string) :=
  compiled [("foo", "foo"); ("bar", "bar")] false.

(** *** Names *)

(** The string without the bytes equal to [c]. *)
Fixpoint del_char (c : ascii) (s : string) : string :=
  match s with
  | EmptyString => EmptyString
  | String d s' => if Ascii.eqb d c then del_char c s' else String d (del_char c s')
  end.

(** Every tab is followed by a byte that is not a tab. *)
Fixpoint tabs_followed (s : string) : bool :=
  match s with
  | EmptyString => true
  | String c s' =>
      if Ascii.eqb c Str.tab then
        match s' with
        | EmptyString => false
        | String d _ => negb (Ascii.eqb d Str.tab) && tabs_followed s'
        end
      else tabs_followed s'
  end.

Definition first_char (s : string) : option ascii :=
  match s with
  | EmptyString => None
  | String c _ => Some c
  end.

(** *** Pattern lines *)

Definition is_comment (line : string) : bool := Str.startswith "#" (Str.strip line).

(** The rule a line stands for when case is not preserved: its pattern,
    escaped and wrapped as the flags say, and its replacement. *)
Definition plain_rule `{Engine} (literal word_breaks : bool) (line : string)
  : option (string * string) :=
  match Str.split Str.tab line with
  | [pattern; replacement] =>
      Some (wrap_word_breaks word_breaks (if literal then re_escape pattern else pattern),
            replacement)
  | _ => None
  end.

(** A pattern file of two rules and a comment, and its rules with literal
    and word_breaks. *)
Definition mixed_file : string :=
  text_of_lines [rule_line "a.b" "X"; "  # note"; rule_line "c" "Y"].

Definition mixed_rules : list (regex * string) :=
  match @parse_patterns Simple.engine mixed_file true true false false with
  | Ok rules => rules
  | Raise _ => []
  end.

(** The rules a line gives with preserve_case, as texts: the four variant
    pairs and the original pair, each once and in strictly ascending order,
    each pattern wrapped in word breaks when word_breaks is set. *)
Definition case_block `{Engine} (literal word_breaks : bool) (line : string)
    (block : list (string * string)) : Prop :=
  ∃ pattern replacement vr vp emitted,
    Str.split Str.tab line = [pattern; replacement] ∧
    all_case_variants (if literal then re_escape pattern else pattern) = Ok vr ∧
    all_case_variants replacement = Ok vp ∧
    block = map (fun p => (wrap_word_breaks word_breaks p.1, p.2)) emitted ∧
    StronglySorted pair_lt emitted ∧
    ∀ p, p ∈ emitted ↔
         p ∈ zip vr vp ++ [(if literal then re_escape pattern else pattern, replacement)].

(** A pattern file of two rules with a comment between them, and its rules
    with preserve_case. *)
Definition case_file : string :=
  text_of_lines [rule_line "foo_bar" "xxx_yyy"; "# note"; rule_line "baz" "qux"].

Definition case_file_rules : list (regex * string) :=
  match parse_simple case_file true with
  | Ok rules => rules
  | Raise _ => []
  end.

(** *** Computations *)

(** The computation leaves the world as it found it, whatever it returns. *)
Definition static {A} (c : M A) : Prop := ∀ w, snd (c w) = w.

(** *** Directories *)

Definition bare_tree : World :=
  {| fs := list_to_map [("top", Dir); ("notes.txt", File "n" 420%N)];
     tally := _Tally_init;
     moved := [] |}.

(** *** Walks *)

Definition dot_files : World :=
  {| fs := list_to_map [(".hidden", File "h" 420%N); ("old.orig", File "o" 420%N)];
     tally := _Tally_init;
     moved := [] |}.

Definition source_tree : World :=
  {| fs := list_to_map
             [("src", Dir);
              ("src/a.txt", File "foo" 420%N);
              ("src/a.txt.orig", File "old" 420%N);
              ("src/b.txt.repren.tmp", File "tmp" 420%N);
              ("src/.hidden", File "h" 420%N);
              ("src/.git", Dir);
              ("src/.git/config", File "c" 420%N);
              ("src/lib", Dir);
              ("src/lib/c.txt", File "foo" 420%N);
              ("top.orig", File "t" 420%N)];
     tally := _Tally_init;
     moved := [] |}.

(** A path [walk_files] may list: a root that is a file, or a name found in
    a walked directory that the exclusion pattern does not match and that
    ends neither in the backup nor in the temporary suffix. *)
Definition listed (f : gmap string entry) (roots : list string)
    (exclude : string → bool) (p : string) : Prop :=
  (p ∈ roots ∧ os_path_isfile f p = true) ∨
  ∃ root name, p = Path.join root name ∧ exclude name = false ∧
               endswith BACKUP_SUFFIX name = false ∧
               endswith TEMP_SUFFIX name = false.

(** *** Discarded transforms *)

(** From [w] to [w'] no move was performed, and every path but [temp_path]
    holds what it held or is a directory that was created. *)
Definition untouched (temp_path : string) (w w' : World) : Prop :=
  moved w' = moved w ∧
  ∀ p, p ≠ temp_path →
       fs w' !! p = fs w !! p ∨ (fs w !! p = None ∧ fs w' !! p = Some Dir).

(** *** Committed rewrites *)

(** The text [multi_replace] returns for [line]. *)
Definition replaced (patterns : list (regex * string)) (line : string) : result string :=
  _apply_replacements line (_sort_drop_overlaps (collect_matches line patterns)).

(** The matches [multi_replace] finds in the lines, and those it selects. *)
Definition found_in (patterns : list (regex * string)) (lines : list string) : nat :=
  sum_list (map (fun line => length (collect_matches line patterns)) lines).

Definition valid_in (patterns : list (regex * string)) (lines : list string) : nat :=
  sum_list (map (fun line =>
                   length (_sort_drop_overlaps (collect_matches line patterns))) lines).

(** A file that owner, group and others may read and write. *)
Definition shared_file : World :=
  {| fs := list_to_map [("c.txt", File "a foo" 438%N)];
     tally := _Tally_init;
     moved := [] |}.

(** *** Counters *)

(** The counters of the summary are consistent: no more matches are valid
    than were found, no more files renamed than written, no more written
    than read. *)
Definition tally_ok (t : _Tally) : Prop :=
  t_valid_matches t ≤ t_matches t ∧
  t_renames t ≤ t_files_written t ∧
  t_files_written t ≤ t_files t.

(** Whatever its outcome, the computation keeps the counters consistent. *)
Definition steady {A} (c : M A) : Prop :=
  ∀ w, tally_ok (tally w) → tally_ok (tally (snd (c w))).

(** Whatever its outcome, the computation leaves the counters alone. *)
Definition quiet {A} (c : M A) : Prop := ∀ w, tally (snd (c w)) = tally w.

(** *** Files read *)

(** When the computation returns, it has counted [n] files as read. *)
Definition reads {A} (n : nat) (c : M A) : Prop :=
  ∀ w a w', c w = (Ok a, w') → t_files (tally w') = t_files (tally w) + n.

(** *** A source that is its own temporary file *)

(** A file whose name ends like a temporary file, rules that change its
    first line and take the ending off its name, and a platform on which the
    first write to it stores two bytes and fails. *)
Definition leftover_file : World :=
  {| fs := list_to_map
             [("x.repren.tmp", File ("foo" +:+ LF +:+ "keep me" +:+ LF) 420%N)];
     tally := _Tally_init;
     moved := [] |}.

Definition strip_rules : list (regex * string) :=
  compiled [("foo", "quux"); ("\.repren\.tmp", "")] false.

Definition leftover_faulty : Platform :=
  Posix.platform (Posix.fault_at "x.repren.tmp" 2).

(** * Properties *)

(** ** Case handling *)

Example all_case_variants_foo_bar :
  all_case_variants "foo_bar" = Ok ["fooBar"; "FooBar"; "foo_bar"; "FOO_BAR"].
Proof. reflexivity. Qed.

Example all_case_variants_camel :
  all_case_variants "XMLFooHTTPBar(x)" =
  Ok ["xmlFooHttpBar(x)"; "XmlFooHttpBar(X)"; "xml_foo_http_bar(x)"; "XML_FOO_HTTP_BAR(X)"].
Proof. reflexivity. Qed.

Lemma rbind_ok {A B} (r : result A) (k : A → result B) (b : B) :
  (r ≫= k) = Ok b ↔ ∃ a, r = Ok a ∧ k a = Ok b.
Proof.
  destruct r as [a|e]; simpl.
  - split; [eauto|]. by intros (a' & [= <-] & Hk).
  - split; [discriminate|]. by intros (a' & [=] & _).
Qed.

Lemma is_ok_true {A} (r : result A) : is_ok r = true ↔ ∃ a, r = Ok a.
Proof.
  destruct r; simpl; split; eauto; try discriminate. by intros [? [=]].
Qed.

Lemma is_ok_bind {A B} (r : result A) (k : A → result B) :
  is_ok (r ≫= k) = true ↔ ∃ a, r = Ok a ∧ is_ok (k a) = true.
Proof.
  destruct r as [a|e]; simpl.
  - split; [eauto|]. by intros (a' & [= <-] & Hk).
  - split; [discriminate|]. by intros (a' & [=] & _).
Qed.

Lemma rmap_length {A B} (f : A → result B) (l : list A) (ys : list B) :
  rmap f l = Ok ys → length ys = length l.
Proof.
  revert ys. induction l as [|x l IH]; intros ys; simpl.
  - by intros [= <-].
  - intros Hr. apply rbind_ok in Hr as (y & _ & Hr).
    apply rbind_ok in Hr as (ys' & Hys & [= <-]).
    simpl. f_equal. by apply IH.
Qed.

Lemma rmap_is_ok {A B} (f : A → result B) (l : list A) :
  is_ok (rmap f l) = true ↔ Forall (fun x => is_ok (f x) = true) l.
Proof.
  induction l as [|x l IH]; simpl.
  - split; [constructor|done].
  - rewrite Forall_cons, <- IH. split.
    + intros Hr. apply is_ok_bind in Hr as (y & Hy & Hr).
      apply is_ok_bind in Hr as (ys & Hys & _).
      rewrite Hy, Hys. done.
    + intros [Hx Hl]. apply is_ok_true in Hx as [y Hy].
      apply is_ok_true in Hl as [ys Hys]. by rewrite Hy, Hys.
Qed.

Lemma _capitalize_is_ok (word : string) :
  is_ok (_capitalize word) = true ↔ word ≠ "".
Proof. destruct word; simpl; split; congruence. Qed.

Lemma to_upper_camel_is_ok (name : string) :
  is_ok (to_upper_camel name) = true ↔ words_nonempty name.
Proof.
  unfold to_upper_camel, words_nonempty. split.
  - intros Hr. apply is_ok_bind in Hr as (caps & Hcaps & _).
    assert (Hok : is_ok (rmap _capitalize (_split_name name).2) = true)
      by (rewrite Hcaps; done).
    apply rmap_is_ok in Hok. eapply Forall_impl; [exact Hok|].
    intros w. apply _capitalize_is_ok.
  - intros Hw. apply is_ok_bind.
    assert (Hok : is_ok (rmap _capitalize (_split_name name).2) = true).
    { apply rmap_is_ok. eapply Forall_impl; [exact Hw|].
      intros w. apply _capitalize_is_ok. }
    apply is_ok_true in Hok as [caps Hcaps]. eauto.
Qed.

Lemma split_not_nil (sep : ascii) (s : string) : Str.split sep s ≠ [].
Proof.
  destruct s as [|c s]; simpl; [done|].
  destruct (Ascii.eqb c sep); [done|]. by destruct (Str.split sep s).
Qed.

Lemma _split_name_not_nil (name : string) : snd (_split_name name) ≠ [].
Proof.
  unfold _split_name. destruct (Str.contains_char "_" name); apply split_not_nil.
Qed.

Lemma to_lower_camel_is_ok (name : string) :
  words_nonempty name → is_ok (to_lower_camel name) = true.
Proof.
  unfold to_lower_camel, words_nonempty.
  pose proof (_split_name_not_nil name) as Hne.
  destruct (_split_name name).2 as [|w0 ws]; [done|].
  intros Hw. apply Forall_cons in Hw as [_ Hw].
  apply is_ok_bind.
  assert (Hok : is_ok (rmap _capitalize ws) = true).
  { apply rmap_is_ok. eapply Forall_impl; [exact Hw|].
    intros w. apply _capitalize_is_ok. }
  apply is_ok_true in Hok as [caps Hcaps]. eauto.
Qed.

Lemma flush_name_is_ok (f : string → result string) (cur : string) :
  is_ok (flush_name f cur) = true ↔
  Forall (fun t => is_ok (f t) = true) (if String.eqb cur "" then [] else [cur]).
Proof.
  unfold flush_name. destruct (String.eqb cur ""); simpl.
  - split; [constructor|done].
  - rewrite Forall_singleton. done.
Qed.

Lemma _name_pat_sub_is_ok (f : string → result string) (cur s : string) :
  is_ok (_name_pat_sub f cur s) = true ↔
  Forall (fun t => is_ok (f t) = true) (_name_pat_findall cur s).
Proof.
  revert cur. induction s as [|c s IH]; intros cur; simpl.
  - apply flush_name_is_ok.
  - destruct (Str.is_word c); [apply IH|].
    rewrite Forall_app, <- flush_name_is_ok, <- IH. split.
    + intros Hr. apply is_ok_bind in Hr as (t & Ht & Hr).
      apply is_ok_bind in Hr as (u & Hu & _).
      rewrite Ht, Hu. done.
    + intros [Ht Hu]. apply is_ok_true in Ht as [t Ht].
      apply is_ok_true in Hu as [u Hu]. by rewrite Ht, Hu.
Qed.

Lemma _transform_expr_is_ok (expr : string) (transform : string → result string) :
  is_ok (_transform_expr expr transform) = true ↔
  ∀ t, t ∈ name_tokens expr → is_ok (transform t) = true.
Proof.
  unfold _transform_expr, name_tokens.
  rewrite _name_pat_sub_is_ok, Forall_forall. done.
Qed.

(** C10: [all_case_variants] returns its four variants exactly when no
    maximal run of word bytes of the expression splits into an empty word;
    otherwise [_capitalize] raises on the empty word. *)
Theorem all_case_variants_total_iff (expr : string) :
  (∀ t, t ∈ name_tokens expr → words_nonempty t) ↔
  ∃ a b c d, all_case_variants expr = Ok [a; b; c; d].
Proof.
  unfold all_case_variants. split.
  - intros Hw.
    assert (Hok : is_ok (rmap (_transform_expr expr)
             [to_lower_camel; to_upper_camel; to_lower_underscore; to_upper_underscore])
             = true).
    { apply rmap_is_ok. repeat apply Forall_cons_2; [| | | |constructor];
        apply _transform_expr_is_ok; intros t Ht.
      - apply to_lower_camel_is_ok; auto.
      - apply to_upper_camel_is_ok; auto.
      - done.
      - done. }
    apply is_ok_true in Hok as [vs Hvs].
    pose proof (rmap_length _ _ _ Hvs) as Hlen.
    destruct vs as [|a [|b [|c [|d [|? ?]]]]]; simpl in Hlen; try discriminate.
    exists a, b, c, d. exact Hvs.
  - intros (a & b & c & d & Hvs) t Ht.
    assert (Hok : is_ok (rmap (_transform_expr expr)
             [to_lower_camel; to_upper_camel; to_lower_underscore; to_upper_underscore])
             = true) by (rewrite Hvs; done).
    apply rmap_is_ok in Hok.
    apply Forall_cons in Hok as [_ Hok]. apply Forall_cons in Hok as [Hup _].
    apply to_upper_camel_is_ok. eapply _transform_expr_is_ok; eauto.
Qed.

Section Underscores.

Lemma split_app_sep (sep : ascii) (x y : string) :
  Str.split sep (x +:+ String sep y) = Str.split sep x ++ Str.split sep y.
Proof.
  induction x as [|c x IH]; cbn [append Str.split].
  - by rewrite Ascii.eqb_refl.
  - rewrite IH. destruct (Ascii.eqb c sep); [done|].
    pose proof (split_not_nil sep x) as Hne.
    by destruct (Str.split sep x).
Qed.

Lemma contains_char_middle (c : ascii) (x y : string) :
  Str.contains_char c (x +:+ String c y) = true.
Proof.
  induction x as [|d x IH]; cbn [append Str.contains_char].
  - by rewrite Ascii.eqb_refl.
  - rewrite IH. apply orb_true_r.
Qed.

Lemma _split_name_underscore (x y : string) :
  snd (_split_name (x +:+ String "_" y)) = Str.split "_" x ++ Str.split "_" y.
Proof.
  unfold _split_name. rewrite contains_char_middle. cbn [snd].
  apply split_app_sep.
Qed.

(** A name with a leading, a trailing or a doubled underscore has an empty
    word. *)
Lemma underscore_empty_word (x y : string) :
  ¬ words_nonempty ("_" +:+ y) ∧
  ¬ words_nonempty (x +:+ "_") ∧
  ¬ words_nonempty (x +:+ "__" +:+ y).
Proof.
  unfold words_nonempty. repeat split; intros Hw.
  - change ("_" +:+ y) with ("" +:+ String "_" y) in Hw.
    rewrite _split_name_underscore in Hw.
    apply Forall_app in Hw as [Hw _]. by apply Forall_cons in Hw as [Hw _].
  - rewrite _split_name_underscore in Hw.
    apply Forall_app in Hw as [_ Hw]. by apply Forall_cons in Hw as [Hw _].
  - change (x +:+ "__" +:+ y) with (x +:+ String "_" (String "_" y)) in Hw.
    rewrite _split_name_underscore in Hw.
    apply Forall_app in Hw as [_ Hw]. cbn [Str.split] in Hw.
    rewrite Ascii.eqb_refl in Hw. by apply Forall_cons in Hw as [Hw _].
Qed.

End Underscores.

(** Two such names: each has an empty word, and the variants are not
    computed. *)
Example all_case_variants_empty_word :
  snd (_split_name "_foo") = [""; "foo"] ∧
  snd (_split_name "foo__bar") = ["foo"; ""; "bar"] ∧
  all_case_variants "_foo" = Raise IndexError ∧
  all_case_variants "foo__bar" = Raise IndexError ∧
  name_tokens "f(_foo, x.y)" = ["f"; "_foo"; "x"; "y"].
Proof. repeat split; reflexivity. Qed.

(** ** Match resolution

    What the neighbour test of [_sort_drop_overlaps] guarantees, and what it
    does not. *)

Section Selection.

Implicit Types (l : list (Match * string)) (a : list nat) (mr : Match * string).

Lemma bisect_scan_le a x : bisect_scan a x ≤ length a.
Proof.
  induction a as [|y a IH]; simpl; [lia|].
  destruct (y <? x); simpl; lia.
Qed.

Lemma bisect_scan_take a x : Forall (fun y => y < x) (take (bisect_scan a x) a).
Proof.
  induction a as [|y a IH]; simpl; [constructor|].
  destruct (y <? x) eqn:Hyx; simpl; [|constructor].
  constructor; [by apply Nat.ltb_lt|exact IH].
Qed.

Lemma bisect_scan_drop a x :
  StronglySorted le a → Forall (fun y => x ≤ y) (drop (bisect_scan a x) a).
Proof.
  induction 1 as [|y a Hs IH Hy]; simpl; [constructor|].
  destruct (y <? x) eqn:Hyx; simpl; [exact IH|].
  apply Nat.ltb_ge in Hyx. constructor; [exact Hyx|].
  eapply Forall_impl; [exact Hy|]. simpl. intros; lia.
Qed.

(** In a sorted list the elements below [x] are those left of the point
    the scan finds. *)
Lemma bisect_scan_lookup (a : list nat) (x j v : nat) :
  StronglySorted le a → a !! j = Some v → (v < x ↔ j < bisect_scan a x).
Proof.
  intros Hs Hj.
  pose proof (bisect_scan_take a x) as Ht.
  pose proof (bisect_scan_drop a x Hs) as Hd.
  rewrite Forall_forall in Ht, Hd.
  destruct (decide (j < bisect_scan a x)) as [Hlt|Hge].
  - split; [done|]. intros _. apply Ht.
    apply list_elem_of_lookup. exists j. by rewrite lookup_take_lt.
  - split; [|done]. intros Hv. exfalso.
    assert (x ≤ v); [|lia]. apply Hd.
    apply list_elem_of_lookup. exists (j - bisect_scan a x).
    rewrite lookup_drop. rewrite <- Hj. f_equal. lia.
Qed.

Lemma bisect_loop_scan (a : list nat) (x fuel lo hi : nat) :
  StronglySorted le a →
  lo ≤ bisect_scan a x ≤ hi → hi ≤ length a → hi - lo ≤ fuel →
  bisect_loop fuel a x lo hi = bisect_scan a x.
Proof.
  intros Hs. revert lo hi.
  induction fuel as [|fuel IH]; intros lo hi Hbetween Hhi Hfuel;
    cbn [bisect_loop]; [lia|].
  destruct (lo <? hi) eqn:Hlohi; [|apply Nat.ltb_ge in Hlohi; lia].
  apply Nat.ltb_lt in Hlohi.
  assert (Hmid : lo ≤ (lo + hi) / 2 < hi).
  { split; [apply Nat.div_le_lower_bound; lia|apply Nat.Div0.div_lt_upper_bound; lia]. }
  destruct (lookup_lt_is_Some_2 a ((lo + hi) / 2) ltac:(lia)) as [v Hv].
  rewrite Hv.
  pose proof (bisect_scan_lookup a x _ v Hs Hv) as Hiff.
  destruct (v <? x) eqn:Hvx.
  - apply Nat.ltb_lt in Hvx. apply IH; [|lia..]. apply Hiff in Hvx. lia.
  - apply Nat.ltb_ge in Hvx. apply IH; [|lia..].
    assert (¬ (lo + hi) / 2 < bisect_scan a x) by (rewrite <- Hiff; lia). lia.
Qed.

(** On a sorted list the binary search finds the point of the scan. *)
Lemma bisect_left_scan (a : list nat) (x : nat) :
  StronglySorted le a → bisect_left a x = bisect_scan a x.
Proof.
  intros Hs. apply bisect_loop_scan; [done| |lia..].
  pose proof (bisect_scan_le a x). lia.
Qed.

Lemma insert_at_bisect_sorted a x :
  StronglySorted le a → StronglySorted le (list_insert_at (bisect_scan a x) x a).
Proof.
  intros Hs. unfold list_insert_at.
  pose proof (bisect_scan_take a x) as Ht.
  pose proof (bisect_scan_drop a x Hs) as Hd.
  rewrite <- (take_drop (bisect_scan a x) a) in Hs.
  apply StronglySorted_app in Hs as (Hcross & Hs1 & Hs2).
  apply StronglySorted_app_2; [|exact Hs1|].
  - intros x1 x2 H1 H2. rewrite Forall_forall in Ht. specialize (Ht _ H1).
    apply elem_of_cons in H2 as [->|H2]; [lia|]. by apply Hcross.
  - apply SSorted_cons; [exact Hs2|]. exact Hd.
Qed.

Lemma map_insert_at {A B} (f : A → B) (i : nat) (x : A) (k : list A) :
  map f (list_insert_at i x k) = list_insert_at i (f x) (map f k).
Proof.
  unfold list_insert_at. by rewrite map_app, firstn_map, skipn_map.
Qed.

(** In the loop the binary search is the scan: [starts] is sorted. *)
Lemma sdo_step_scan l a m r :
  StronglySorted le a →
  sdo_step (l, a) (m, r) =
    let index := bisect_scan a (m_start m) in
    if (0 <? index) && overlaps_at l (index - 1) m then (l, a)
    else if (index <? length l) && overlaps_at l index m then (l, a)
    else (list_insert_at index (m, r) l, list_insert_at index (m_start m) a).
Proof. intros Hs. unfold sdo_step. by rewrite (bisect_left_scan a _ Hs). Qed.

Lemma sdo_step_inv st mr : sdo_inv st → sdo_inv (sdo_step st mr).
Proof.
  destruct st as [l a], mr as [m r]. intros [Heq Hs]. cbn [fst snd] in *.
  rewrite (sdo_step_scan _ _ _ _ Hs). cbn zeta.
  destruct (_ && _); [done|]. destruct (_ && _); [done|].
  split; cbn [fst snd].
  - rewrite map_insert_at. by rewrite Heq.
  - by apply insert_at_bisect_sorted.
Qed.

Lemma fold_sdo_inv matches st :
  sdo_inv st → sdo_inv (fold_left sdo_step matches st).
Proof.
  revert st. induction matches as [|mr matches IH]; intros st Hst; simpl; [done|].
  apply IH. by apply sdo_step_inv.
Qed.

Lemma sdo_loop_inv matches : sdo_inv (sdo_loop matches).
Proof. apply fold_sdo_inv. split; simpl; [done|constructor]. Qed.

(** [starts] and [non_overlaps] have one length: the two reads of
    [non_overlaps] in the loop body are in range. *)
Lemma sdo_lengths matches :
  length (snd (sdo_loop matches)) = length (fst (sdo_loop matches)).
Proof.
  destruct (sdo_loop_inv matches) as [-> _]. by rewrite length_map.
Qed.

Lemma starts_ascending matches : StronglySorted le (snd (sdo_loop matches)).
Proof. apply sdo_loop_inv. Qed.

(** The selection is in ascending start order, whatever the matches. *)
Lemma sort_drop_overlaps_ascending matches :
  ascending (_sort_drop_overlaps matches).
Proof.
  unfold ascending, _sort_drop_overlaps.
  destruct (sdo_loop_inv matches) as [Heq Hs]. by rewrite <- Heq.
Qed.

Lemma StronglySorted_lookup_lt {A} (R : relation A) (k : list A) i j x y :
  StronglySorted R k → i < j → k !! i = Some x → k !! j = Some y → R x y.
Proof.
  intros Hs. revert i j. induction Hs as [|z k Hs IH Hz]; intros i j Hij Hi Hj.
  - by rewrite lookup_nil in Hi.
  - destruct j as [|j]; [lia|]. simpl in Hj.
    destruct i as [|i]; simpl in Hi.
    + injection Hi as <-. rewrite Forall_forall in Hz.
      apply Hz. eapply list_elem_of_lookup_2; eauto.
    + eapply IH; [|eauto..]. lia.
Qed.

Lemma chain_disjoint l : StronglySorted before l → pairwise_disjoint l.
Proof.
  intros Hs i j x y Hij Hi Hj.
  pose proof (StronglySorted_lookup_lt _ _ _ _ _ _ Hs Hij Hi Hj) as Hb.
  unfold before, end_of, start_of in Hb. unfold _overlap.
  apply andb_false_iff. right. apply Nat.ltb_ge. exact Hb.
Qed.

(** Left of the insertion point: when the match before it does not overlap
    the new one, nothing left of the point reaches into the new match. *)
Lemma left_clear l m r :
  StronglySorted before l →
  let index := bisect_scan (map start_of l) (m_start m) in
  ((0 <? index) && overlaps_at l (index - 1) m = false) →
  m_start m ≤ m_end m →
  Forall (fun e => before e (m, r)) (take index l).
Proof.
  intros Hs index Hchk Hm.
  pose proof (bisect_scan_take (map start_of l) (m_start m)) as Ht.
  fold index in Ht. rewrite firstn_map in Ht.
  assert (Hle : index ≤ length l).
  { unfold index. etrans; [apply bisect_scan_le|]. by rewrite length_map. }
  destruct index as [|i] eqn:Hidx; [constructor|].
  simpl in Hchk. rewrite Nat.sub_0_r in Hchk.
  destruct (lookup_lt_is_Some_2 l i ltac:(lia)) as [[p rp] Hp].
  unfold overlaps_at in Hchk. rewrite Hp in Hchk.
  rewrite (take_S_r _ _ _ Hp) in Ht |- *.
  assert (Hp_lt : m_start p < m_start m).
  { rewrite map_app, Forall_app in Ht. destruct Ht as [_ Ht].
    simpl in Ht. rewrite Forall_singleton in Ht. exact Ht. }
  assert (Hp_end : m_end p ≤ m_start m).
  { unfold _overlap in Hchk. apply andb_false_iff in Hchk as [Hc|Hc].
    - apply Nat.ltb_ge in Hc. lia.
    - by apply Nat.ltb_ge in Hc. }
  apply Forall_app. split; [|by rewrite Forall_singleton].
  apply Forall_forall. intros e He.
  assert (Hb : before e (p, rp)).
  { rewrite <- (take_drop (S i) l), (take_S_r _ _ _ Hp) in Hs.
    apply StronglySorted_app_1_l in Hs.
    eapply StronglySorted_app_1_elem_of; [exact Hs|exact He|]. set_solver. }
  unfold before, end_of, start_of in *. simpl in *.
  (* a match before [p] ends before [p] starts *)
  lia.
Qed.

(** Right of the insertion point: when the match at the point does not
    overlap the new one and no selected match is empty, the new match ends
    before everything from the point on. *)
Lemma right_clear l m r :
  StronglySorted before l →
  Forall nonempty l →
  StronglySorted le (map start_of l) →
  let index := bisect_scan (map start_of l) (m_start m) in
  ((index <? length l) && overlaps_at l index m = false) →
  Forall (fun e => before (m, r) e) (drop index l).
Proof.
  intros Hs Hne Hsorted index Hchk.
  pose proof (bisect_scan_drop (map start_of l) (m_start m) Hsorted) as Hd.
  fold index in Hd. rewrite skipn_map in Hd.
  destruct (decide (index < length l)) as [Hlt|Hge];
    [|rewrite drop_ge by lia; constructor].
  destruct (lookup_lt_is_Some_2 l index Hlt) as [[n rn] Hn].
  apply Nat.ltb_lt in Hlt. rewrite Hlt in Hchk. simpl in Hchk.
  unfold overlaps_at in Hchk. rewrite Hn in Hchk.
  rewrite (drop_S _ _ _ Hn) in Hd |- *.
  simpl in Hd. apply Forall_cons in Hd as [Hn_ge _].
  assert (Hn_ne : m_start n < m_end n).
  { rewrite Forall_forall in Hne.
    apply (Hne (n, rn)). eapply list_elem_of_lookup_2; eauto. }
  assert (Hn_start : m_end m ≤ m_start n).
  { unfold _overlap in Hchk. apply andb_false_iff in Hchk as [Hc|Hc].
    - by apply Nat.ltb_ge in Hc.
    - apply Nat.ltb_ge in Hc. unfold start_of in Hn_ge. simpl in Hn_ge. lia. }
  constructor; [exact Hn_start|].
  apply Forall_forall. intros e He.
  assert (Hb : before (n, rn) e).
  { rewrite <- (take_drop index l), (drop_S _ _ _ Hn) in Hs.
    apply StronglySorted_app_1_r, StronglySorted_cons in Hs as [Hall _].
    rewrite Forall_forall in Hall. by apply Hall. }
  unfold before, end_of, start_of in *. simpl in *. lia.
Qed.

Lemma sdo_step_chain st mr : nonempty mr → sdo_chain st → sdo_chain (sdo_step st mr).
Proof.
  intros Hmr (Hinv & Hs & Hne).
  split; [by apply sdo_step_inv|].
  destruct st as [l a], mr as [m r]. destruct Hinv as [Heq Hsorted].
  cbn [fst snd] in *. rewrite (sdo_step_scan _ _ _ _ Hsorted). cbn zeta. subst a.
  destruct ((0 <? _) && _) eqn:Hleft; [done|].
  destruct ((_ <? length l) && _) eqn:Hright; [done|].
  cbn [fst snd].
  pose proof (left_clear l m r Hs Hleft ltac:(unfold nonempty, start_of, end_of in Hmr; simpl in Hmr; lia)) as Hl.
  pose proof (right_clear l m r Hs Hne Hsorted Hright) as Hr.
  set (index := bisect_scan (map start_of l) (m_start m)) in *.
  unfold list_insert_at. split.
  - pose proof Hs as Hs'. rewrite <- (take_drop index l) in Hs'.
    apply StronglySorted_app in Hs' as (Hcross & Hs1 & Hs2).
    apply StronglySorted_app_2; [|exact Hs1|by apply SSorted_cons].
    intros x1 x2 H1 H2. apply elem_of_cons in H2 as [->|H2]; [|by apply Hcross].
    rewrite Forall_forall in Hl. by apply Hl.
  - rewrite <- (take_drop index l) in Hne. apply Forall_app in Hne as [Hn1 Hn2].
    apply Forall_app. split; [exact Hn1|]. by constructor.
Qed.

Lemma fold_sdo_chain matches st :
  Forall nonempty matches → sdo_chain st → sdo_chain (fold_left sdo_step matches st).
Proof.
  revert st. induction matches as [|mr matches IH]; intros st Hall Hst; simpl; [done|].
  apply Forall_cons in Hall as [Hmr Hall].
  apply IH; [exact Hall|]. by apply sdo_step_chain.
Qed.

(** When no collected match is empty, the selection is pairwise disjoint. *)
Lemma sort_drop_overlaps_disjoint matches :
  Forall nonempty matches → pairwise_disjoint (_sort_drop_overlaps matches).
Proof.
  intros Hall. apply chain_disjoint.
  apply (fold_sdo_chain matches ([], []) Hall).
  repeat split; simpl; constructor.
Qed.

End Selection.

Section Resolution.

(** X4: when no rule matches the empty string in the buffer, the selection
    of [multi_replace] is ascending and pairwise disjoint. *)
Lemma selection_disjoint_without_empty_matches
    (input : string) (patterns : list (regex * string)) :
  (∀ rule, rule ∈ patterns →
           Forall (fun m => m_start m < m_end m) (re_finditer rule.1 input)) →
  ascending (_sort_drop_overlaps (collect_matches input patterns)) ∧
  pairwise_disjoint (_sort_drop_overlaps (collect_matches input patterns)).
Proof.
  intros Hrules. split; [apply sort_drop_overlaps_ascending|].
  apply sort_drop_overlaps_disjoint.
  unfold collect_matches. apply Forall_forall. intros [m repl] Hm.
  apply list_elem_of_In, in_flat_map in Hm as ([r repl'] & Hr & Hm).
  apply in_map_iff in Hm as (m' & [= <- <-] & Hm').
  apply list_elem_of_In in Hr. specialize (Hrules _ Hr). simpl in Hrules.
  rewrite Forall_forall in Hrules. apply Hrules. by apply list_elem_of_In.
Qed.

End Resolution.

(** C1 at a failing input: with the rules (empty pattern) -> X, ab -> Y and
    the buffer ab, the selection is in ascending start order but holds the
    matches at 0-2 and at 1-1, which intersect; the output is YXaXbX. *)
Theorem sort_drop_overlaps_empty_match_overlap :
  rule_texts empty_rules = [("", "X"); ("ab", "Y")] ∧
  spans_of (collect_matches "ab" empty_rules)
    = [((0, 0), "X"); ((1, 1), "X"); ((2, 2), "X"); ((0, 2), "Y")] ∧
  spans_of (_sort_drop_overlaps (collect_matches "ab" empty_rules))
    = [((0, 2), "Y"); ((0, 0), "X"); ((1, 1), "X"); ((2, 2), "X")] ∧
  ascending (_sort_drop_overlaps (collect_matches "ab" empty_rules)) ∧
  ¬ pairwise_disjoint (_sort_drop_overlaps (collect_matches "ab" empty_rules)) ∧
  output_of (run_multi_replace "ab" empty_rules empty_world) = Some "YXaXbX".
Proof.
  split; [reflexivity|]. split; [reflexivity|]. split; [reflexivity|].
  split; [|split; [|reflexivity]].
  - unfold ascending.
    change (StronglySorted le [0; 0; 1; 2]).
    repeat constructor; lia.
  - intros Hd.
    pose (sel := _sort_drop_overlaps (collect_matches "ab" empty_rules)).
    destruct (sel !! 0) as [a|] eqn:Ha; [|vm_compute in Ha; discriminate Ha].
    destruct (sel !! 2) as [b|] eqn:Hb; [|vm_compute in Hb; discriminate Hb].
    specialize (Hd 0 2 a b ltac:(lia) Ha Hb).
    vm_compute in Ha, Hb.
    injection Ha as <-. injection Hb as <-.
    vm_compute in Hd. discriminate Hd.
Qed.

(** C6: with the rules a -> X, ab -> Y declared in this order and the
    buffer ab, the match of a at 0-1 is accepted, the match of ab at 0-2 is
    rejected, and the output is Xb. *)
Theorem multi_replace_order_tie_break :
  rule_texts tie_rules = [("a", "X"); ("ab", "Y")] ∧
  spans_of (collect_matches "ab" tie_rules) = [((0, 1), "X"); ((0, 2), "Y")] ∧
  spans_of (_sort_drop_overlaps (collect_matches "ab" tie_rules)) = [((0, 1), "X")] ∧
  ∀ w, run_multi_replace "ab" tie_rules w = Ok ("Xb", {| found := 2; valid := 1 |}).
Proof.
  repeat split; try reflexivity.
Qed.

(** C7: the rules foo -> bar, bar -> foo turn the buffer foo bar into
    bar foo: both matches are found in the original buffer before anything is
    replaced; one rule after the other would give foo foo. *)
Theorem multi_replace_swap :
  rule_texts swap_rules = [("foo", "bar"); ("bar", "foo")] ∧
  spans_of (collect_matches "foo bar" swap_rules) = [((0, 3), "bar"); ((4, 7), "foo")] ∧
  (∀ w, run_multi_replace "foo bar" swap_rules w
        = Ok ("bar foo", {| found := 2; valid := 2 |})) ∧
  ∀ w, sequential_replace "foo bar" swap_rules w = Ok "foo foo".
Proof.
  repeat split; try reflexivity.
Qed.

(** ** Pattern files *)

Section Lines.
Context `{Engine}.

Lemma split_length (sep : ascii) (s : string) :
  length (Str.split sep s) = S (length (filter (fun c => c = sep) (list_ascii_of_string s))).
Proof.
  induction s as [|c s IH]; [done|].
  cbn [Str.split list_ascii_of_string]. rewrite filter_cons.
  destruct (Ascii.eqb_spec c sep) as [->|Hne].
  - rewrite decide_True by done. simpl. by rewrite IH.
  - rewrite decide_False by done.
    destruct (Str.split sep s) as [|w ws] eqn:Hs; [by destruct (split_not_nil sep s)|].
    simpl in *. exact IH.
Qed.

Lemma tab_count_filter (line : string) :
  tab_count line = length (filter (fun c => c = Str.tab) (list_ascii_of_string line)).
Proof.
  induction line as [|c line IH]; [done|].
  cbn [tab_count list_ascii_of_string]. rewrite filter_cons.
  destruct (Ascii.eqb_spec c Str.tab) as [->|Hne].
  - rewrite decide_True by done. simpl. by rewrite IH.
  - rewrite decide_False by done. simpl. exact IH.
Qed.

(** The pieces of a line are one more than its tabs. *)
Lemma split_tab_count (line : string) :
  length (Str.split Str.tab line) = S (tab_count line).
Proof. by rewrite split_length, tab_count_filter. Qed.

(** A comment line adds no rule. *)
Lemma parse_line_comment (literal word_breaks insensitive preserve_case : bool)
    (line : string) :
  Str.startswith "#" (Str.strip line) = true →
  parse_line literal word_breaks insensitive preserve_case line = Ok [].
Proof. intros Hc. unfold parse_line. by rewrite Hc. Qed.

(** A line that is not a comment and has no tab, or more than one, is the
    fatal error, with the pieces of the line in the message. *)
Lemma parse_line_tab_count (literal word_breaks insensitive preserve_case : bool)
    (line : string) :
  Str.startswith "#" (Str.strip line) = false →
  tab_count line ≠ 1 →
  parse_line literal word_breaks insensitive preserve_case line
    = Raise (SystemExit (InvalidLine (Str.split Str.tab line))).
Proof.
  intros Hc Htabs. unfold parse_line. rewrite Hc, split_tab_count.
  destruct (S (tab_count line) =? 2) eqn:Hlen.
  - apply Nat.eqb_eq in Hlen. lia.
  - by rewrite andb_false_r.
Qed.

(** A blank line is the same fatal error, whatever its tabs. *)
Lemma parse_line_blank (literal word_breaks insensitive preserve_case : bool)
    (line : string) :
  Str.strip line = "" →
  parse_line literal word_breaks insensitive preserve_case line
    = Raise (SystemExit (InvalidLine (Str.split Str.tab line))).
Proof. intros Hb. unfold parse_line. rewrite Hb. reflexivity. Qed.

End Lines.

(** C5 at a failing input: a pattern file with an empty line between two
    rules is refused with the message for an invalid line, naming the
    pieces of the empty line; without that line, and with a comment in its
    place, the two rules are compiled. *)
Theorem parse_patterns_blank_line_fails :
  parse_simple (text_of_lines [rule_line "a" "b"; ""; rule_line "c" "d"]) false
    = Raise (SystemExit (InvalidLine [""])) ∧
  parse_simple (text_of_lines [rule_line "a" "b"; "   "; rule_line "c" "d"]) false
    = Raise (SystemExit (InvalidLine ["   "])) ∧
  texts_of (parse_simple (text_of_lines [rule_line "a" "b"; "  # note"; rule_line "c" "d"]) false)
    = Ok [("a", "b"); ("c", "d")] ∧
  texts_of (parse_simple (text_of_lines [rule_line "a" "b"; rule_line "c" "d"]) false)
    = Ok [("a", "b"); ("c", "d")].
Proof. repeat split; reflexivity. Qed.

(** *** The order of the rules of a line *)

Section PairOrder.

Implicit Types (s t : string) (a b c : string * string).

Lemma compare_refl s : String.compare s s = Eq.
Proof.
  pose proof (String.compare_antisym s s) as Ha.
  destruct (String.compare s s); simpl in Ha; congruence.
Qed.

Lemma compare_cases s t :
  match String.compare s t with
  | Lt => String.le s t ∧ s ≠ t
  | Eq => s = t
  | Gt => String.le t s ∧ s ≠ t
  end.
Proof.
  destruct (String.compare s t) eqn:Hc.
  - by apply String.compare_eq_iff.
  - split.
    + unfold String.le, String.leb. by rewrite Hc.
    + intros ->. rewrite compare_refl in Hc. discriminate Hc.
  - split.
    + unfold String.le, String.leb.
      rewrite String.compare_antisym, Hc. done.
    + intros ->. rewrite compare_refl in Hc. discriminate Hc.
Qed.

(** [pair_leb] is the lexicographic order of the two components. *)
Lemma pair_le_lex a b :
  pair_le a b ↔
  (String.le a.1 b.1 ∧ a.1 ≠ b.1) ∨ (a.1 = b.1 ∧ String.le a.2 b.2).
Proof.
  unfold pair_le, pair_leb, pair_compare.
  pose proof (compare_cases a.1 b.1) as H1.
  pose proof (compare_cases a.2 b.2) as H2.
  destruct (String.compare a.1 b.1).
  - destruct (String.compare a.2 b.2).
    + split; [|done]. intros _. right. split; [done|]. by rewrite H2.
    + split; [|done]. intros _. right. by destruct H2.
    + split; [done|]. intros [[_ Hne]|[_ Hle]]; [done|].
      destruct H2 as [Hge Hne]. destruct Hne. by apply (anti_symm String.le).
  - split; [|done]. intros _. by left.
  - split; [done|]. destruct H1 as [Hge Hne].
    intros [[Hle _]|[Heq _]]; [|done].
    destruct Hne. by apply (anti_symm String.le).
Qed.

Lemma pair_le_trans a b c : pair_le a b → pair_le b c → pair_le a c.
Proof.
  rewrite !pair_le_lex.
  intros [[H1 N1]|[E1 L1]] [[H2 N2]|[E2 L2]].
  - left. split; [by etrans|]. intros Heq. rewrite Heq in H1.
    destruct N2. by apply (anti_symm String.le).
  - left. rewrite <- E2. done.
  - left. rewrite E1. done.
  - right. split; [congruence|by etrans].
Qed.

Lemma pair_le_total a b : pair_leb a b = false → pair_le b a.
Proof.
  intros Hab. apply pair_le_lex.
  assert (Hn : ¬ pair_le a b) by (unfold pair_le; congruence).
  rewrite pair_le_lex in Hn.
  destruct (decide (a.1 = b.1)) as [Heq|Hne].
  - right. split; [done|].
    destruct (total String.le a.2 b.2) as [Hle|Hle]; [|done].
    destruct Hn. by right.
  - left. split; [|done].
    destruct (total String.le a.1 b.1) as [Hle|Hle]; [|done].
    destruct Hn. by left.
Qed.

Lemma pair_le_lt a b : pair_le a b → a ≠ b → pair_lt a b.
Proof.
  unfold pair_le, pair_leb, pair_lt, pair_compare.
  pose proof (compare_cases a.1 b.1) as H1.
  pose proof (compare_cases a.2 b.2) as H2.
  destruct (String.compare a.1 b.1); [|done..].
  destruct (String.compare a.2 b.2); [|done..].
  intros _ Hne. destruct Hne. destruct a, b; simpl in *; congruence.
Qed.

Lemma insert_sorted_perm a (l : list (string * string)) :
  insert_sorted a l ≡ₚ a :: l.
Proof.
  induction l as [|b l IH]; simpl; [done|].
  destruct (pair_leb a b); [done|]. rewrite IH. apply Permutation_swap.
Qed.

Lemma insert_sorted_sorted a (l : list (string * string)) :
  StronglySorted pair_le l → StronglySorted pair_le (insert_sorted a l).
Proof.
  induction 1 as [|b l Hs IH Hb]; simpl; [repeat constructor|].
  destruct (pair_leb a b) eqn:Hab.
  - apply SSorted_cons; [by apply SSorted_cons|].
    constructor; [exact Hab|].
    eapply Forall_impl; [exact Hb|]. intros c. by apply pair_le_trans.
  - apply SSorted_cons; [exact IH|].
    rewrite insert_sorted_perm. constructor; [by apply pair_le_total|exact Hb].
Qed.

Lemma sorted_perm (l : list (string * string)) : sorted l ≡ₚ l.
Proof.
  induction l as [|a l IH]; simpl; [done|].
  by rewrite insert_sorted_perm, IH.
Qed.

Lemma sorted_sorted (l : list (string * string)) : StronglySorted pair_le (sorted l).
Proof.
  induction l as [|a l IH]; simpl; [constructor|]. by apply insert_sorted_sorted.
Qed.

Lemma sorted_strict (l : list (string * string)) :
  StronglySorted pair_le l → NoDup l → StronglySorted pair_lt l.
Proof.
  induction 1 as [|a l Hs IH Ha]; intros Hnd; [constructor|].
  apply NoDup_cons in Hnd as [Hnotin Hnd].
  apply SSorted_cons; [by apply IH|].
  rewrite Forall_forall in Ha |- *. intros b Hb.
  apply pair_le_lt; [by apply Ha|]. intros ->. done.
Qed.

(** [sorted(set(pairs))] is strictly ascending and has the elements of
    [pairs]. *)
Lemma sorted_set_spec (pairs : list (string * string)) :
  StronglySorted pair_lt (sorted (py_set pairs)) ∧
  ∀ p, p ∈ sorted (py_set pairs) ↔ p ∈ pairs.
Proof.
  split.
  - apply sorted_strict; [apply sorted_sorted|].
    rewrite sorted_perm. apply NoDup_remove_dups.
  - intros p. rewrite sorted_perm. apply elem_of_remove_dups.
Qed.

End PairOrder.

Section ParseLine.
Context `{Engine}.

Lemma re_compile_pattern (pattern : string) (insensitive : bool) (r : regex) :
  re_compile pattern insensitive = Ok r → re_pattern r = pattern.
Proof.
  unfold re_compile. intros Hr. apply rbind_ok in Hr as (scan & _ & [= <-]). done.
Qed.

Lemma compile_pairs_texts (word_breaks insensitive : bool)
    (pairs : list (string * string)) (rules : list (regex * string)) :
  rmap (compile_pair word_breaks insensitive) pairs = Ok rules →
  rule_texts rules = map (fun p => (wrap_word_breaks word_breaks p.1, p.2)) pairs.
Proof.
  revert rules. induction pairs as [|p pairs IH]; intros rules; simpl.
  - by intros [= <-].
  - intros Hr. apply rbind_ok in Hr as ([r repl] & Hp & Hr).
    apply rbind_ok in Hr as (rs & Hrs & [= <-]).
    unfold compile_pair in Hp. apply rbind_ok in Hp as (r' & Hc & [= <- <-]).
    simpl. rewrite (re_compile_pattern _ _ _ Hc). f_equal. by apply IH.
Qed.

Lemma rule_texts_app (a b : list (regex * string)) :
  rule_texts (a ++ b) = rule_texts a ++ rule_texts b.
Proof. unfold rule_texts. apply map_app. Qed.

(** What a line gives with preserve_case when the parse goes on after it. *)
Lemma parse_line_case (literal word_breaks insensitive : bool) (line : string)
    (block : list (regex * string)) :
  parse_line literal word_breaks insensitive true line = Ok block →
  (is_comment line = true ∧ block = []) ∨
  (is_comment line = false ∧ case_block literal word_breaks line (rule_texts block)).
Proof.
  unfold parse_line, is_comment.
  destruct (Str.startswith "#" (Str.strip line)) eqn:Hc.
  { intros [= <-]. by left. }
  intros Hline. right. split; [done|].
  destruct (negb _ && _); [|discriminate Hline].
  destruct (Str.split Str.tab line) as [|pattern [|replacement [|? ?]]] eqn:Hbits;
    try discriminate Hline.
  set (pattern' := if literal then re_escape pattern else pattern) in *.
  apply rbind_ok in Hline as (pairs & Hpairs & Hcompile).
  unfold line_pairs in Hpairs.
  apply rbind_ok in Hpairs as (variants & Hvariants & [= <-]).
  apply rbind_ok in Hvariants as (vr & Hvr & Hvariants).
  apply rbind_ok in Hvariants as (vp & Hvp & [= <-]).
  destruct (sorted_set_spec (zip vr vp ++ [(pattern', replacement)])) as [Hsorted Helems].
  exists pattern, replacement, vr, vp,
    (sorted (py_set (zip vr vp ++ [(pattern', replacement)]))).
  repeat split; [exact Hbits|exact Hvr|exact Hvp|
                 exact (compile_pairs_texts _ _ _ _ Hcompile)|
                 exact Hsorted|apply Helems|apply Helems].
Qed.

Lemma parse_lines_case (literal word_breaks insensitive : bool) (lines : list string)
    (blocks : list (list (regex * string))) :
  rmap (parse_line literal word_breaks insensitive true) lines = Ok blocks →
  ∃ texts,
    rule_texts (concat blocks) = concat texts ∧
    Forall2 (case_block literal word_breaks)
            (filter (fun line => is_comment line = false) lines) texts.
Proof.
  revert blocks. induction lines as [|line lines IH]; intros blocks Hr.
  - injection Hr as <-. exists []. split; [done|constructor].
  - cbn [rmap] in Hr. apply rbind_ok in Hr as (block & Hline & Hr).
    apply rbind_ok in Hr as (rest & Hrest & [= <-]).
    destruct (IH rest Hrest) as (texts & Htexts & Hall).
    cbn [concat]. rewrite rule_texts_app, filter_cons.
    apply parse_line_case in Hline as [[Hc ->]|[Hc Hblock]].
    + rewrite decide_False by congruence. exists texts. by split.
    + rewrite decide_True by done. exists (rule_texts block :: texts).
      split; [cbn [concat]; by rewrite Htexts|by constructor].
Qed.

(** C4, as the code has it: with preserve_case the rules of a pattern file
    are, line by line in the order of the lines that are not comments, the
    four variant pairs and the original pair of the line, each once, in
    strictly ascending byte-wise order of (pattern, replacement); with
    word_breaks each pattern is wrapped after the sorting. *)
Theorem parse_patterns_preserve_case_sorted
    (literal word_breaks insensitive : bool)
    (patterns_str : string) (rules : list (regex * string)) :
  parse_patterns patterns_str literal word_breaks insensitive true = Ok rules →
  ∃ blocks,
    rule_texts rules = concat blocks ∧
    Forall2 (case_block literal word_breaks)
            (filter (fun line => is_comment line = false) (Str.splitlines patterns_str))
            blocks.
Proof.
  intros Hparse. unfold parse_patterns in Hparse.
  apply rbind_ok in Hparse as (blocks & Hblocks & [= <-]).
  by apply parse_lines_case in Hblocks.
Qed.

End ParseLine.

(** The theorem at a file of two rules and a comment. *)
Lemma parse_patterns_preserve_case_witness :
  parse_simple case_file true = Ok case_file_rules ∧
  ∃ blocks,
    rule_texts case_file_rules = concat blocks ∧
    Forall2 (@case_block Simple.engine false false)
            (filter (fun line => is_comment line = false) (Str.splitlines case_file))
            blocks.
Proof.
  assert (Hparse : parse_simple case_file true = Ok case_file_rules) by reflexivity.
  split; [exact Hparse|].
  exact (@parse_patterns_preserve_case_sorted Simple.engine false false false
           case_file case_file_rules Hparse).
Defined.

(** The rules of that file: the block of the first line, sorted, then the
    block of the second, in which the variants that coincide come once. *)
Example case_file_rules_texts :
  rule_texts case_file_rules
  = [("FOO_BAR", "XXX_YYY"); ("FooBar", "XxxYyy"); ("fooBar", "xxxYyy");
     ("foo_bar", "xxx_yyy");
     ("BAZ", "QUX"); ("Baz", "Qux"); ("baz", "qux")].
Proof. reflexivity. Qed.

(** C4, as stated, fails: for the line foo_bar -> xxx_yyy the rules are
    emitted in sorted order, FOO_BAR first, not in the order of the variants. *)
Lemma preserve_case_order_not_stable :
  texts_of (parse_simple (rule_line "foo_bar" "xxx_yyy") true)
    = Ok [("FOO_BAR", "XXX_YYY"); ("FooBar", "XxxYyy");
          ("fooBar", "xxxYyy"); ("foo_bar", "xxx_yyy")] ∧
  spec_line_pairs "foo_bar" "xxx_yyy"
    = Ok [("fooBar", "xxxYyy"); ("FooBar", "XxxYyy");
          ("foo_bar", "xxx_yyy"); ("FOO_BAR", "XXX_YYY")] ∧
  texts_of (parse_simple (rule_line "foo_bar" "xxx_yyy") true)
    ≠ spec_line_pairs "foo_bar" "xxx_yyy".
Proof. repeat split; try reflexivity. vm_compute. discriminate. Qed.

(** C8 at the failing input: the rules compiled from foo_bar -> xxx_yyy
    with preserve_case rewrite FooBar and FOO_BAR to XxxYyy and XXX_YYY, as
    the claim and the module's documentation say, but fooBar to xxxYyy and
    not to xxxYYY: [_capitalize] lowers all but the first byte of a word, so
    the lowerCamel form of xxx_yyy is xxxYyy.  The four variants of either
    side are the lowerCamel, UpperCamel, lower_underscore and
    UPPER_UNDERSCORE forms. *)
Theorem case_variants_rewrite :
  all_case_variants "foo_bar" = Ok ["fooBar"; "FooBar"; "foo_bar"; "FOO_BAR"] ∧
  all_case_variants "xxx_yyy" = Ok ["xxxYyy"; "XxxYyy"; "xxx_yyy"; "XXX_YYY"] ∧
  ∀ w, run_multi_replace "fooBar" case_rules w = Ok ("xxxYyy", {| found := 1; valid := 1 |}) ∧
       run_multi_replace "FooBar" case_rules w = Ok ("XxxYyy", {| found := 1; valid := 1 |}) ∧
       run_multi_replace "FOO_BAR" case_rules w = Ok ("XXX_YYY", {| found := 1; valid := 1 |}) ∧
       run_multi_replace "foo_bar" case_rules w = Ok ("xxx_yyy", {| found := 1; valid := 1 |}).
Proof.
  repeat split; reflexivity.
Qed.

(** The text the documentation gives for fooBar, xxxYYY, is not what the
    rules produce. *)
Lemma case_variants_not_xxxYYY :
  output_of (run_multi_replace "fooBar" case_rules empty_world) ≠ Some "xxxYYY".
Proof. vm_compute. discriminate. Qed.

(** ** Collision-safe moves *)

Section Strings.

Lemma append_nil_r (s : string) : s +:+ "" = s.
Proof. induction s; simpl; congruence. Qed.

Lemma append_inj_l (x s t : string) : x +:+ s = x +:+ t → s = t.
Proof. induction x; simpl; [done|]. intros [= Heq]. auto. Qed.

Lemma append_length (s t : string) :
  String.length (s +:+ t) = String.length s + String.length t.
Proof. induction s; simpl; congruence. Qed.

Lemma string_of_uint_digits (d : uint) : all_digits (NilEmpty.string_of_uint d) = true.
Proof. induction d; simpl; auto. Qed.

Lemma of_nat_digits (n : nat) : all_digits (Str.of_nat n) = true.
Proof. apply string_of_uint_digits. Qed.

Lemma of_nat_inj (n m : nat) : Str.of_nat n = Str.of_nat m → n = m.
Proof.
  unfold Str.of_nat. intros Heq. apply Unsigned.to_uint_inj.
  pose proof (NilEmpty.usu (Nat.to_uint n)) as Hn.
  pose proof (NilEmpty.usu (Nat.to_uint m)) as Hm.
  rewrite Heq in Hn. congruence.
Qed.

Lemma of_nat_nonempty (n : nat) : Str.of_nat n ≠ "".
Proof.
  unfold Str.of_nat. intros Heq.
  assert (Hnil : Nat.to_uint n = Nil).
  { pose proof (NilEmpty.usu (Nat.to_uint n)) as Hn. rewrite Heq in Hn.
    simpl in Hn. congruence. }
  pose proof (Unsigned.of_to n) as Hof. rewrite Hnil in Hof. simpl in Hof.
  subst n. discriminate Hnil.
Qed.

End Strings.

Module TrailingNumFacts.
Import TrailingNum.

Ltac step := cbn [group1 num_end digits_end all_digits append Str.contains_char].

Lemma digits_end_all (d : string) : all_digits d = true → digits_end d = true.
Proof.
  induction d as [|c d IH]; step; [done|].
  intros [Hc Hd]%andb_true_iff. rewrite Hc. auto.
Qed.

Lemma digits_end_dot (y d : string) : digits_end (y +:+ String "." d) = false.
Proof.
  induction y as [|c y IH]; step; [done|].
  destruct (Str.is_digit c); [exact IH|].
  apply andb_false_iff. right. by destruct y.
Qed.

Lemma num_end_dot (y d : string) : num_end (y +:+ String "." d) = false.
Proof.
  destruct y as [|c y]; step; [done|].
  rewrite digits_end_dot. apply andb_false_r.
Qed.

Lemma digit_not_dot (c : ascii) : Str.is_digit c = true → Ascii.eqb c "." = false.
Proof.
  intros Hc. destruct (Ascii.eqb_spec c "."); [|done]. subst c. discriminate Hc.
Qed.

Lemma digit_not_lf (c : ascii) : Str.is_digit c = true → Ascii.eqb c Str.lf = false.
Proof.
  intros Hc. destruct (Ascii.eqb_spec c Str.lf); [|done]. subst c. discriminate Hc.
Qed.

Lemma group1_digits (d : string) : all_digits d = true → group1 d = None.
Proof.
  induction d as [|c d IH]; step; [done|].
  intros [Hc Hd]%andb_true_iff.
  rewrite (digit_not_lf c Hc), (IH Hd), (digit_not_dot c Hc). done.
Qed.

(** A suffix the loop has appended is taken off again, when the text before
    it is on one line. *)
Lemma group1_suffix (x d : string) :
  Str.contains_char Str.lf x = false → all_digits d = true → d ≠ "" →
  group1 (x +:+ String "." d) = Some x.
Proof.
  intros Hx Hd Hne. induction x as [|c x IH]; step.
  - rewrite (group1_digits d Hd).
    destruct d as [|c d]; [done|]. step. cbn [all_digits] in Hd.
    apply andb_true_iff in Hd as [Hc Hd]. rewrite Hc, (digits_end_all d Hd). done.
  - cbn [Str.contains_char] in Hx. apply orb_false_iff in Hx as [Hc Hx].
    rewrite Ascii.eqb_sym, Hc. by rewrite (IH Hx).
Qed.

(** A line feed before the suffix keeps the pattern from matching. *)
Lemma group1_line_feed (x d : string) :
  Str.contains_char Str.lf x = true → group1 (x +:+ String "." d) = None.
Proof.
  induction x as [|c x IH]; step; [done|].
  intros Hx. rewrite num_end_dot, andb_false_r.
  destruct (Ascii.eqb c Str.lf) eqn:Hc; [done|].
  rewrite Ascii.eqb_sym, Hc in Hx. simpl in Hx. by rewrite (IH Hx).
Qed.

Lemma group1_no_line_feed (s g : string) :
  group1 s = Some g → Str.contains_char Str.lf g = false.
Proof.
  revert g. induction s as [|c s IH]; intros g; step; [done|].
  destruct (Ascii.eqb c Str.lf) eqn:Hc.
  - destruct (_ && _); [|done]. by intros [= <-].
  - destruct (group1 s) as [g'|].
    + intros [= <-]. step. rewrite Ascii.eqb_sym, Hc. by apply IH.
    + destruct (_ && _); [|done]. by intros [= <-].
Qed.

End TrailingNumFacts.

Module TrailingNumShape.
Import TrailingNum TrailingNumFacts.

Lemma digits_end_shape (s : string) :
  digits_end s = true → ∃ d, all_digits d = true ∧ (s = d ∨ s = d +:+ LF).
Proof.
  induction s as [|c s IH]; step.
  - intros _. exists "". by split; [|left].
  - destruct (Str.is_digit c) eqn:Hc.
    + intros Hs. destruct (IH Hs) as (d & Hd & Hshape).
      exists (String c d). split; [step; by rewrite Hc|].
      destruct Hshape as [->| ->]; [by left|by right].
    + intros [Hlf Hs]%andb_true_iff.
      apply Ascii.eqb_eq in Hlf as ->. apply String.eqb_eq in Hs as ->.
      exists "". split; [done|]. by right.
Qed.

Lemma num_end_shape (s : string) :
  num_end s = true →
  ∃ d, d ≠ "" ∧ all_digits d = true ∧ (s = d ∨ s = d +:+ LF).
Proof.
  destruct s as [|c s]; step; [done|].
  intros [Hc Hs]%andb_true_iff.
  destruct (digits_end_shape s Hs) as (d & Hd & Hshape).
  exists (String c d). split; [done|]. split; [step; by rewrite Hc|].
  destruct Hshape as [->| ->]; [by left|by right].
Qed.

(** What the pattern matches: the group, a dot, digits, and at most a line
    feed that ends the string. *)
Lemma group1_shape (s g : string) :
  group1 s = Some g →
  ∃ d, d ≠ "" ∧ all_digits d = true ∧
       (s = g +:+ String "." d ∨ s = g +:+ String "." (d +:+ LF)).
Proof.
  revert g. induction s as [|c s IH]; intros g; step; [done|].
  destruct (if Ascii.eqb c Str.lf then None else group1 s) as [g'|] eqn:Hg.
  - intros [= <-]. destruct (Ascii.eqb c Str.lf); [done|].
    destruct (IH g' Hg) as (d & Hne & Hd & Hshape).
    exists d. split; [done|]. split; [done|].
    destruct Hshape as [->| ->]; [by left|by right].
  - destruct (Ascii.eqb c ".") eqn:Hdot; [|done]. cbn [andb].
    destruct (num_end s) eqn:Hnum; [|done]. intros [= <-].
    apply Ascii.eqb_eq in Hdot as ->.
    destruct (num_end_shape s Hnum) as (d & Hne & Hd & Hshape).
    exists d. split; [done|]. split; [done|].
    destruct Hshape as [->| ->]; [by left|by right].
Qed.

End TrailingNumShape.

Section MoveFile.
Import TrailingNumFacts.

Implicit Types (f : gmap string entry) (w : World).

Lemma next_candidate_eq (d : string) (i : nat) :
  next_candidate d i = base_of d +:+ String "." (Str.of_nat i).
Proof. reflexivity. Qed.

Lemma contains_char_app (c : ascii) (x y : string) :
  Str.contains_char c (x +:+ y) = Str.contains_char c x || Str.contains_char c y.
Proof.
  induction x as [|d x IH]; cbn [append Str.contains_char]; [done|].
  by rewrite IH, orb_assoc.
Qed.

(** On one line, the candidates are the base with the suffixes 1, 2, ... *)
Lemma candidate_one_line (dest_path : string) (n : nat) :
  Str.contains_char Str.lf (base_of dest_path) = false →
  candidate dest_path (S n) = base_of dest_path +:+ String "." (Str.of_nat (S n)).
Proof.
  intros Hb. induction n as [|n IH]; [reflexivity|].
  change (candidate dest_path (S (S n)))
    with (next_candidate (candidate dest_path (S n)) (S (S n))).
  rewrite next_candidate_eq, IH. unfold base_of at 1.
  rewrite (group1_suffix _ _ Hb (of_nat_digits _) (of_nat_nonempty _)). done.
Qed.

(** With a line feed in the base, every candidate extends the one before. *)
Lemma candidate_multi_line (dest_path : string) (n : nat) :
  Str.contains_char Str.lf (base_of dest_path) = true →
  Str.contains_char Str.lf (candidate dest_path (S n)) = true ∧
  candidate dest_path (S (S n))
    = candidate dest_path (S n) +:+ String "." (Str.of_nat (S (S n))).
Proof.
  intros Hb.
  assert (Hshape : ∀ m, ∃ x, candidate dest_path (S m) = x +:+ String "." (Str.of_nat (S m))
                             ∧ Str.contains_char Str.lf x = true).
  { induction m as [|m (x & Hx & Hlf)].
    - exists (base_of dest_path). split; [reflexivity|exact Hb].
    - exists (candidate dest_path (S m)). split.
      + change (candidate dest_path (S (S m)))
          with (next_candidate (candidate dest_path (S m)) (S (S m))).
        rewrite next_candidate_eq. unfold base_of at 1.
        rewrite Hx at 1. by rewrite (group1_line_feed _ _ Hlf).
      + rewrite Hx, contains_char_app, Hlf. done. }
  destruct (Hshape n) as (x & Hx & Hlf). split.
  - rewrite Hx, contains_char_app, Hlf. done.
  - change (candidate dest_path (S (S n)))
      with (next_candidate (candidate dest_path (S n)) (S (S n))).
    rewrite next_candidate_eq. unfold base_of at 1.
    rewrite Hx at 1. by rewrite (group1_line_feed _ _ Hlf).
Qed.

Lemma candidate_length_mono (dest_path : string) (j k : nat) :
  Str.contains_char Str.lf (base_of dest_path) = true → j < k →
  String.length (candidate dest_path (S j)) < String.length (candidate dest_path (S k)).
Proof.
  intros Hb Hjk. induction Hjk as [|k Hjk IH].
  - destruct (candidate_multi_line dest_path j Hb) as [_ ->].
    rewrite append_length. cbn [String.length]. lia.
  - destruct (candidate_multi_line dest_path k Hb) as [_ ->].
    rewrite append_length. cbn [String.length]. lia.
Qed.

(** After the first, no candidate comes twice. *)
Lemma candidate_inj (dest_path : string) (j k : nat) :
  candidate dest_path (S j) = candidate dest_path (S k) → j = k.
Proof.
  intros Heq.
  destruct (Str.contains_char Str.lf (base_of dest_path)) eqn:Hb.
  - destruct (Nat.lt_trichotomy j k) as [Hlt|[->|Hlt]]; [|done|];
      pose proof (candidate_length_mono dest_path _ _ Hb Hlt) as Hlen;
      rewrite Heq in Hlen; lia.
  - rewrite !(candidate_one_line _ _ Hb) in Heq.
    apply String.app_inj in Heq. injection Heq as Heq.
    apply of_nat_inj in Heq. lia.
Qed.

(** Pigeonhole: among the candidates 1 .. size + 1 one is free. *)
Lemma free_candidate f (dest_path : string) :
  ∃ n, n ≤ size f + 1 ∧ f !! candidate dest_path n = None.
Proof.
  set (idx := seq 0 (size f + 1)).
  destruct (decide (Forall (fun j => is_Some (f !! candidate dest_path (S j))) idx))
    as [Hall|Hnot].
  - exfalso.
    set (cands := (fun j => candidate dest_path (S j)) <$> idx).
    assert (Hnd : NoDup cands).
    { apply NoDup_fmap_2_strong; [|apply NoDup_seq].
      intros j k _ _. apply candidate_inj. }
    assert (Hsub : (list_to_set cands : gset string) ⊆ dom f).
    { intros p Hp. apply elem_of_list_to_set, list_elem_of_fmap in Hp as (j & -> & Hj).
      apply elem_of_dom. rewrite Forall_forall in Hall. by apply Hall. }
    apply subseteq_size in Hsub.
    rewrite (size_list_to_set _ Hnd), size_dom in Hsub.
    unfold cands, idx in Hsub. rewrite length_fmap, length_seq in Hsub. lia.
  - apply not_Forall_Exists in Hnot; [|apply _].
    apply Exists_exists in Hnot as (j & Hj & Hfree).
    apply elem_of_seq in Hj. exists (S j). split; [lia|].
    simpl in Hfree. by apply eq_None_not_Some.
Qed.

Lemma os_path_exists_spec f (path : string) :
  os_path_exists f path = true ↔ is_Some (f !! path).
Proof. unfold os_path_exists. by rewrite bool_decide_eq_true. Qed.

(** With fuel for the distance to a free candidate, the loop returns the
    first free candidate. *)
Lemma move_file_loop_first f (dest_path : string) (fuel k n : nat) :
  k ≤ n → n - k ≤ fuel → f !! candidate dest_path n = None →
  ∃ m, k ≤ m ≤ n ∧
       move_file_loop fuel f (candidate dest_path k) (S k) = Some (candidate dest_path m) ∧
       f !! candidate dest_path m = None ∧
       ∀ j, k ≤ j < m → is_Some (f !! candidate dest_path j).
Proof.
  revert k. induction fuel as [|fuel IH]; intros k Hkn Hfuel Hfree.
  - assert (k = n) as -> by lia. exists n. simpl.
    destruct (os_path_exists f (candidate dest_path n)) eqn:Hex.
    + apply os_path_exists_spec in Hex. rewrite Hfree in Hex. by destruct Hex.
    + repeat split; [lia..|done|done|intros; lia].
  - simpl. destruct (os_path_exists f (candidate dest_path k)) eqn:Hex.
    + apply os_path_exists_spec in Hex.
      assert (k ≠ n) by (intros ->; rewrite Hfree in Hex; by destruct Hex).
      destruct (IH (S k)) as (m & Hm & Hloop & Hm_free & Hbefore); [lia..|done|].
      exists m. repeat split; [lia..|exact Hloop|exact Hm_free|].
      intros j Hj. destruct (decide (j = k)) as [->|]; [done|]. apply Hbefore. lia.
    + exists k. repeat split; [lia..|done| |intros; lia].
      apply eq_None_not_Some. intros Hs. apply os_path_exists_spec in Hs. congruence.
Qed.

(** The loop of [move_file] ends within its fuel, at the first candidate
    that does not exist. *)
Lemma move_file_loop_total f (dest_path : string) :
  ∃ m, move_file_loop (size f + 2) f dest_path 1 = Some (candidate dest_path m) ∧
       f !! candidate dest_path m = None ∧
       ∀ j, j < m → is_Some (f !! candidate dest_path j).
Proof.
  destruct (free_candidate f dest_path) as (n & Hn & Hfree).
  destruct (move_file_loop_first f dest_path (size f + 2) 0 n) as (m & _ & Hloop & Hm & Hb);
    [lia..|done|].
  exists m. repeat split; [exact Hloop|exact Hm|]. intros j Hj. apply Hb. lia.
Qed.

End MoveFile.

Section MoveFileSpec.

Lemma shutil_move_fresh (w : World) (src dst : string) (e : entry) :
  fs w !! src = Some e → fs w !! dst = None →
  shutil_move src dst w =
    (Ok tt, {| fs := <[dst := e]> (delete src (fs w));
               tally := tally w;
               moved := moved w ++ [(src, dst)] |}).
Proof.
  intros Hsrc Hdst. unfold shutil_move, mbind, M_bind, get_fs.
  rewrite Hsrc. unfold os_path_isdir. rewrite Hdst. reflexivity.
Qed.

(** [move_file] without [clobber] moves a file to the first candidate
    that does not exist: the destination itself, or the destination with its
    numeric suffix replaced by 1, 2, ... in turn.  The loop ends, the target
    did not exist before, and every other entry but the source keeps its
    content. *)
Theorem move_file_never_clobbers (w : World) (source_path dest_path : string)
    (content : string) (mode : N) :
  fs w !! source_path = Some (File content mode) →
  ∃ n,
    let target := candidate dest_path n in
    let w' := snd (move_file source_path dest_path false w) in
    fst (move_file source_path dest_path false w) = Ok tt ∧
    fs w !! target = None ∧
    (∀ j, j < n → is_Some (fs w !! candidate dest_path j)) ∧
    fs w' !! target = Some (File content mode) ∧
    moved w' = moved w ++ [(source_path, target)] ∧
    (∀ p x, p ≠ source_path → fs w !! p = Some x → fs w' !! p = Some x) ∧
    (Str.contains_char Str.lf (base_of dest_path) = false →
     ∀ k, candidate dest_path (S k) = base_of dest_path +:+ "." +:+ Str.of_nat (S k)).
Proof.
  intros Hsrc.
  destruct (move_file_loop_total (fs w) dest_path) as (n & Hloop & Hfree & Hbefore).
  exists n. cbn zeta.
  assert (Hrun : move_file source_path dest_path false w =
                 (Ok tt, {| fs := <[candidate dest_path n := File content mode]>
                                    (delete source_path (fs w));
                            tally := tally w;
                            moved := moved w ++ [(source_path, candidate dest_path n)] |})).
  { unfold move_file. cbn [negb]. unfold mbind, M_bind, get_fs.
    rewrite Hloop. by apply shutil_move_fresh. }
  rewrite Hrun. cbn [fst snd fs moved].
  repeat split; [exact Hfree|exact Hbefore|apply lookup_insert_eq| |].
  - intros p x Hp Hx.
    assert (p ≠ candidate dest_path n) by congruence.
    by rewrite lookup_insert_ne, lookup_delete_ne.
  - intros Hb k. by apply candidate_one_line.
Qed.

End MoveFileSpec.

(** The theorem at the three files [out], [out.1] and [new]. *)
Lemma move_file_never_clobbers_witness :
  fs three_files !! "new" = Some (File "C" 384%N) ∧
  ∃ n,
    let target := candidate "out" n in
    let w' := snd (move_file "new" "out" false three_files) in
    fst (move_file "new" "out" false three_files) = Ok tt ∧
    fs three_files !! target = None ∧
    (∀ j, j < n → is_Some (fs three_files !! candidate "out" j)) ∧
    fs w' !! target = Some (File "C" 384%N) ∧
    moved w' = moved three_files ++ [("new", target)] ∧
    (∀ p x, p ≠ "new" → fs three_files !! p = Some x → fs w' !! p = Some x) ∧
    (Str.contains_char Str.lf (base_of "out") = false →
     ∀ k, candidate "out" (S k) = base_of "out" +:+ "." +:+ Str.of_nat (S k)).
Proof.
  split; [reflexivity|].
  apply (move_file_never_clobbers three_files "new" "out" "C" 384%N).
  reflexivity.
Defined.

(** With [out] and [out.1] in place the new file lands at [out.2], and the
    three contents are there afterwards. *)
Example move_file_out_2 :
  let w' := snd (move_file "new" "out" false three_files) in
  fst (move_file "new" "out" false three_files) = Ok tt ∧
  candidate "out" 2 = "out.2" ∧
  moved w' = [("new", "out.2")] ∧
  fs w' !! "out" = Some (File "A" 420%N) ∧
  fs w' !! "out.1" = Some (File "B" 420%N) ∧
  fs w' !! "out.2" = Some (File "C" 384%N) ∧
  fs w' !! "new" = None.
Proof. vm_compute. repeat split; reflexivity. Qed.

Section OneLine.
Import TrailingNumFacts TrailingNumShape.

(** On a path without a line feed, [base_of] takes the numeric suffix off,
    and nothing else. *)
Lemma base_of_stripped (dest_path : string) :
  Str.contains_char Str.lf dest_path = false →
  stripped dest_path (base_of dest_path) ∧
  Str.contains_char Str.lf (base_of dest_path) = false.
Proof.
  intros Hlf. unfold base_of.
  destruct (TrailingNum.group1 dest_path) as [g|] eqn:Hg.
  - destruct (group1_shape _ _ Hg) as (d & Hne & Hd & [Hs|Hs]).
    + split; [left; by exists d|]. by eapply group1_no_line_feed.
    + exfalso. rewrite Hs in Hlf.
      change (String "." (d +:+ LF)) with ("." +:+ (d +:+ LF)) in Hlf.
      rewrite !contains_char_app in Hlf.
      change (Str.contains_char Str.lf LF) with true in Hlf.
      by rewrite !orb_true_r in Hlf.
  - split; [|done]. right. split; [done|]. intros b d Hne Hd Hs.
    assert (Hb : Str.contains_char Str.lf b = false).
    { rewrite Hs, contains_char_app in Hlf. by apply orb_false_iff in Hlf as [? _]. }
    rewrite Hs in Hg.
    change (b +:+ "." +:+ d) with (b +:+ String "." d) in Hg.
    by rewrite (group1_suffix b d Hb Hd Hne) in Hg.
Qed.

(** For a destination without a line feed, the move without [clobber]
    never overwrites: it returns, the file is at the destination itself when
    that was free, and otherwise at the first free path among base.1,
    base.2, ..., where base is the destination without its numeric suffix;
    every entry but the source is as it was. *)
Lemma move_file_one_line (w : World) (source_path dest_path : string)
    (content : string) (mode : N) :
  fs w !! source_path = Some (File content mode) →
  Str.contains_char Str.lf dest_path = false →
  ∃ n base,
    let target := if n =? 0 then dest_path else base +:+ "." +:+ Str.of_nat n in
    let w' := snd (move_file source_path dest_path false w) in
    stripped dest_path base ∧
    fst (move_file source_path dest_path false w) = Ok tt ∧
    fs w !! target = None ∧
    (is_Some (fs w !! dest_path) ↔ 0 < n) ∧
    (∀ j, 0 < j < n → is_Some (fs w !! (base +:+ "." +:+ Str.of_nat j))) ∧
    fs w' !! target = Some (File content mode) ∧
    moved w' = moved w ++ [(source_path, target)] ∧
    (∀ p x, p ≠ source_path → fs w !! p = Some x → fs w' !! p = Some x).
Proof.
  intros Hsrc Hlf.
  destruct (base_of_stripped dest_path Hlf) as [Hstripped Hbase].
  destruct (move_file_never_clobbers w source_path dest_path content mode Hsrc)
    as (n & Hrun & Hfree & Hbefore & Hthere & Hmoved & Hkeep & Hcands).
  specialize (Hcands Hbase).
  assert (Htarget : candidate dest_path n
                    = if n =? 0 then dest_path
                      else base_of dest_path +:+ "." +:+ Str.of_nat n).
  { destruct n as [|k]; [reflexivity|]. apply Hcands. }
  exists n, (base_of dest_path). cbn zeta. rewrite <- Htarget.
  repeat split; try done.
  - intros Hdest. destruct n as [|k]; [|lia].
    cbn [candidate] in Hfree. rewrite Hfree in Hdest. by destruct Hdest.
  - intros Hn. apply (Hbefore 0 Hn).
  - intros [|k] [Hj Hjn]; [lia|]. rewrite <- Hcands. by apply Hbefore.
Qed.

End OneLine.

(** The lemma at the three files [out], [out.1] and [new]. *)
Lemma move_file_one_line_out :
  ∃ n base,
    let target := if n =? 0 then "out" else base +:+ "." +:+ Str.of_nat n in
    let w' := snd (move_file "new" "out" false three_files) in
    stripped "out" base ∧
    fst (move_file "new" "out" false three_files) = Ok tt ∧
    fs three_files !! target = None ∧
    (is_Some (fs three_files !! "out") ↔ 0 < n) ∧
    (∀ j, 0 < j < n → is_Some (fs three_files !! (base +:+ "." +:+ Str.of_nat j))) ∧
    fs w' !! target = Some (File "C" 384%N) ∧
    moved w' = moved three_files ++ [("new", target)] ∧
    (∀ p x, p ≠ "new" → fs three_files !! p = Some x → fs w' !! p = Some x).
Proof.
  apply (move_file_one_line three_files "new" "out" "C" 384%N); reflexivity.
Qed.

(** C9 at a failing input: the destination a, line feed, b.1 exists.  The
    pattern of [move_file] does not match across the line feed, so the
    suffix .1 is not taken off: the file is moved to a, line feed, b.1.1,
    and not to a, line feed, b.2, where stripping the suffix and counting on
    would put it.  Nothing is overwritten there either; and for the files
    out and out.1 the new file lands at out.2 with the three contents in
    place. *)
Theorem move_file_keeps_suffix_after_line_feed :
  let dest := "a" +:+ LF +:+ "b.1" in
  let run := move_file "new" dest false lf_files in
  let plain := move_file "new" "out" false three_files in
  fs lf_files !! dest = Some (File "A" 420%N) ∧
  TrailingNum.group1 dest = None ∧
  TrailingNum.group1 "b.1" = Some "b" ∧
  fst run = Ok tt ∧
  moved (snd run) = [("new", dest +:+ ".1")] ∧
  fs (snd run) !! dest = Some (File "A" 420%N) ∧
  fs (snd run) !! (dest +:+ ".1") = Some (File "C" 384%N) ∧
  fs (snd run) !! ("a" +:+ LF +:+ "b.2") = None ∧
  fs (snd run) !! "new" = None ∧
  fst plain = Ok tt ∧
  moved (snd plain) = [("new", "out.2")] ∧
  fs (snd plain) !! "out" = Some (File "A" 420%N) ∧
  fs (snd plain) !! "out.1" = Some (File "B" 420%N) ∧
  fs (snd plain) !! "out.2" = Some (File "C" 384%N) ∧
  fs (snd plain) !! "new" = None.
Proof. vm_compute. repeat split; reflexivity. Qed.

(** ** Failure while the temporary file is written *)

Section Monad.

Lemma bind_inv {A B} (c : M A) (k : A → M B) (w w' : World) (r : result B) :
  (c ≫= k) w = (r, w') →
  (∃ e, c w = (Raise e, w') ∧ r = Raise e) ∨
  (∃ a w1, c w = (Ok a, w1) ∧ k a w1 = (r, w')).
Proof.
  unfold mbind, M_bind. destruct (c w) as [[a|e] w1]; intros Heq.
  - right. eauto.
  - left. injection Heq as <- <-. eauto.
Qed.

Lemma keeps_refl (temp_path : string) (w : World) : keeps temp_path w w.
Proof. split; auto. Qed.

Lemma keeps_trans (temp_path : string) (w1 w2 w3 : World) :
  keeps temp_path w1 w2 → keeps temp_path w2 w3 → keeps temp_path w1 w3.
Proof.
  intros [Hm1 Hf1] [Hm2 Hf2]. split; [congruence|]. eauto.
Qed.

Lemma keeps_same (temp_path : string) (w w' : World) :
  fs w' = fs w → moved w' = moved w → keeps temp_path w w'.
Proof. intros Hf Hm. split; [done|]. intros p x _. by rewrite Hf. Qed.

Lemma safe_bind {A B} (temp_path : string) (c : M A) (k : A → M B) :
  safe temp_path c → (∀ a, safe temp_path (k a)) → safe temp_path (c ≫= k).
Proof.
  intros Hc Hk w r w' Hrun.
  apply bind_inv in Hrun as [(e & Hrun & _)|(a & w1 & Hrun & Hrest)].
  - eapply Hc; eauto.
  - eapply keeps_trans; [eapply Hc|eapply Hk]; eauto.
Qed.

Lemma safe_ret {A} (temp_path : string) (a : A) : safe temp_path (mret a).
Proof. intros w r w' [= <- <-]. apply keeps_refl. Qed.

Lemma safe_raise {A} (temp_path : string) (e : exn) : safe temp_path (@raise A e).
Proof. intros w r w' [= <- <-]. apply keeps_refl. Qed.

Lemma safe_lift {A} (temp_path : string) (r : result A) : safe temp_path (lift r).
Proof. intros w r' w' [= <- <-]. apply keeps_refl. Qed.

Lemma safe_get_fs (temp_path : string) : safe temp_path get_fs.
Proof. intros w r w' [= <- <-]. apply keeps_refl. Qed.

Lemma safe_modify_tally (temp_path : string) (g : _Tally → _Tally) :
  safe temp_path (modify_tally g).
Proof. intros w r w' [= <- <-]. by apply keeps_same. Qed.

Lemma no_io_error_bind {A B} (c : M A) (k : A → M B) :
  no_io_error c → (∀ a, no_io_error (k a)) → no_io_error (c ≫= k).
Proof.
  intros Hc Hk w w' p Hrun.
  apply bind_inv in Hrun as [(e & Hrun & [= <-])|(a & w1 & Hrun & Hrest)].
  - by eapply Hc.
  - by eapply Hk.
Qed.

End Monad.

Section WritePhase.
Context `{Platform}.

Implicit Types (w : World) (f : gmap string entry).

Lemma mkdir_ancestors_keeps f f' (ps : list string) (r : result unit) :
  mkdir_ancestors f ps = (r, f') → ∀ p x, f !! p = Some x → f' !! p = Some x.
Proof.
  revert f. induction ps as [|q ps IH]; intros f; simpl.
  - by intros [= <- <-].
  - destruct (f !! q) as [[c m|]|] eqn:Hq; [by intros [= <- <-]|apply IH|].
    intros Hrun p x Hp. eapply IH; [exact Hrun|].
    rewrite lookup_insert_ne; [done|]. congruence.
Qed.

Lemma put_fs_keeps (temp_path : string) f :
  (∀ w, (∀ p x, p ≠ temp_path → fs w !! p = Some x → f !! p = Some x) →
        keeps temp_path w (snd (put_fs f w))).
Proof. intros w Hf. split; [done|]. exact Hf. Qed.

Lemma safe_os_makedirs (temp_path dir : string) : safe temp_path (os_makedirs dir).
Proof.
  intros w r w' Hrun. unfold os_makedirs in Hrun.
  unfold mbind, M_bind, get_fs, lift, put_fs, raise in Hrun.
  destruct (mkdir_ancestors (fs w) (Path.ancestors dir)) as [made f'] eqn:Hmk.
  pose proof (mkdir_ancestors_keeps _ _ _ _ Hmk) as Hkeep.
  cbn [fs] in Hrun.
  destruct made as [[]|e].
  - destruct (f' !! dir) as [x|] eqn:Hdir; injection Hrun as <- <-.
    + split; [done|]. intros p y _. apply Hkeep.
    + split; [done|]. intros p y _ Hp. cbn [fs].
      rewrite lookup_insert_ne; [by apply Hkeep|].
      intros ->. apply Hkeep in Hp. congruence.
  - injection Hrun as <- <-. split; [done|]. intros p y _. apply Hkeep.
Qed.

Lemma safe_make_parent_dirs (temp_path path : string) :
  safe temp_path (make_parent_dirs path).
Proof.
  unfold make_parent_dirs. apply safe_bind; [apply safe_get_fs|]. intros f.
  apply safe_bind; [|intros; apply safe_ret].
  destruct (_ && _); [apply safe_os_makedirs|apply safe_ret].
Qed.

Lemma safe_os_stat_perms (temp_path path : string) :
  safe temp_path (os_stat_perms path).
Proof.
  unfold os_stat_perms. apply safe_bind; [apply safe_get_fs|]. intros f.
  destruct (f !! path); [apply safe_ret|apply safe_raise].
Qed.

Lemma safe_open_rb (temp_path path : string) : safe temp_path (open_rb path).
Proof.
  unfold open_rb. apply safe_bind; [apply safe_get_fs|]. intros f.
  destruct (f !! path) as [[c m|]|]; [apply safe_ret|apply safe_raise..].
Qed.

Lemma os_open_keeps (temp_path : string) (perms : N) w r w' :
  os_open_wronly_creat temp_path perms w = (r, w') →
  keeps temp_path w w' ∧ ∀ h, r = Ok h → h_path h = temp_path.
Proof.
  unfold os_open_wronly_creat, mbind, M_bind, get_fs, put_fs, mret, M_ret, raise.
  destruct (fs w !! temp_path) as [[c m|]|] eqn:Htemp; intros [= <- <-].
  - split; [apply keeps_refl|]. by intros h [= <-].
  - split; [apply keeps_refl|]. done.
  - split; [|by intros h [= <-]].
    split; [done|]. intros p x Hp Hx. cbn [fs]. by rewrite lookup_insert_ne.
Qed.

Lemma file_write_keeps (output : handle) (data : string) w r w' :
  file_write output data w = (r, w') →
  keeps (h_path output) w w' ∧ ∀ h, r = Ok h → h_path h = h_path output.
Proof.
  unfold file_write, mbind, M_bind, get_fs, put_fs, mret, M_ret, raise.
  destruct (fs w !! h_path output) as [[c m|]|] eqn:Hout; cbn [fs].
  - destruct (io_fault (h_path output) (h_calls output)); intros [= <- <-].
    + split; [|done]. split; [done|].
      intros p x Hp Hx. cbn [fs]. by rewrite lookup_insert_ne.
    + split; [|by intros h [= <-]]. split; [done|].
      intros p x Hp Hx. cbn [fs]. by rewrite lookup_insert_ne.
  - intros [= <- <-]. split; [apply keeps_refl|done].
  - intros [= <- <-]. split; [apply keeps_refl|done].
Qed.

Lemma pure_transform_keeps (temp_path : string) t (s : string) w r w' :
  pure_transform t → t s w = (r, w') → keeps temp_path w w'.
Proof.
  intros Ht Hrun. destruct (Ht s w) as [Hf Hm]. rewrite Hrun in Hf, Hm.
  by apply keeps_same.
Qed.

Lemma transform_lines_keeps t (lines : list string) (output : handle)
    (counts : _MatchCounts) w r w' :
  (∀ u, t = Some u → pure_transform u) →
  transform_lines t lines output counts w = (r, w') →
  keeps (h_path output) w w'.
Proof.
  intros Ht. revert output counts w.
  induction lines as [|line lines IH]; intros output counts w; simpl.
  - intros [= <- <-]. apply keeps_refl.
  - destruct t as [u|]; [|intros [= <- <-]; apply keeps_refl].
    intros Hrun.
    apply bind_inv in Hrun as [(e & Hrun & _)|([new_line new_counts] & w1 & Hrun & Hrest)].
    { eapply pure_transform_keeps; eauto. }
    eapply keeps_trans; [eapply pure_transform_keeps; eauto|].
    apply bind_inv in Hrest as [(e & Hrun' & _)|(h & w2 & Hrun' & Hrest)].
    { by apply file_write_keeps in Hrun' as [? _]. }
    apply file_write_keeps in Hrun' as [Hk Hh].
    eapply keeps_trans; [exact Hk|].
    rewrite <- (Hh h eq_refl). eapply IH; eauto.
Qed.

Lemma transform_stream_keeps t (input : string) (output : handle) (by_line : bool)
    w r w' :
  (∀ u, t = Some u → pure_transform u) →
  transform_stream t input output by_line w = (r, w') →
  keeps (h_path output) w w'.
Proof.
  intros Ht. unfold transform_stream. destruct by_line.
  { by apply transform_lines_keeps. }
  intros Hrun.
  apply bind_inv in Hrun as [(e & Hrun & _)|([new_contents n] & w1 & Hrun & Hrest)].
  - destruct t as [u|].
    + apply bind_inv in Hrun as [(e' & Hrun & _)|([c n] & w1 & Hrun & Hrest)].
      * eapply pure_transform_keeps; eauto.
      * unfold mret, M_ret in Hrest. simplify_eq.
    + destruct input as [|c0 [|c1 [|c2 rest]]];
        unfold raise, mret, M_ret in Hrun; simplify_eq; apply keeps_refl.
  - assert (Hk1 : keeps (h_path output) w w1).
    { destruct t as [u|].
      - apply bind_inv in Hrun as [(e' & Hrun & _)|([c n'] & w2 & Hrun & Hret)].
        + eapply pure_transform_keeps; eauto.
        + unfold mret, M_ret in Hret. simplify_eq.
          eapply pure_transform_keeps; eauto.
      - destruct input as [|c0 [|c1 [|c2 rest]]];
          unfold raise, mret, M_ret in Hrun; simplify_eq; apply keeps_refl. }
    eapply keeps_trans; [exact Hk1|].
    apply bind_inv in Hrest as [(e & Hrun' & _)|(h & w2 & Hrun' & Hrest)].
    + by apply file_write_keeps in Hrun' as [? _].
    + unfold mret, M_ret in Hrest. simplify_eq.
      by apply file_write_keeps in Hrun' as [? _].
Qed.

End WritePhase.

Section Suffixes.

Lemma last_char_app (x s : string) :
  s ≠ "" → last_char (x +:+ s) = last_char s.
Proof.
  intros Hs. induction x as [|c x IH]; cbn [append last_char]; [done|].
  rewrite IH. destruct s as [|d s]; [done|].
  cbn [last_char]. by destruct (last_char s).
Qed.

(** A backup path is never a temporary path: the suffixes end differently. *)
Lemma backup_not_temp (source_path dest_path : string) :
  source_path +:+ BACKUP_SUFFIX ≠ dest_path +:+ TEMP_SUFFIX.
Proof.
  intros Heq. apply (f_equal last_char) in Heq.
  rewrite !last_char_app in Heq by done. discriminate Heq.
Qed.

End Suffixes.

Section Commit.
Context `{Platform}.

Ltac run_prims :=
  unfold mbind, M_bind, get_fs, put_fs, record_move, raise, mret, M_ret, modify_tally.

Lemma no_io_error_shutil_move (src dst : string) : no_io_error (shutil_move src dst).
Proof.
  intros w w' p. unfold shutil_move. run_prims.
  destruct (fs w !! src); [|done].
  by destruct (_ && _).
Qed.

Lemma no_io_error_move_file (src dst : string) (clobber : bool) :
  no_io_error (move_file src dst clobber).
Proof.
  unfold move_file. destruct clobber; cbn [negb]; [apply no_io_error_shutil_move|].
  intros w w' p. unfold mbind, M_bind, get_fs.
  destruct (move_file_loop _ _ _ _); [apply no_io_error_shutil_move|done].
Qed.

Lemma no_io_error_os_remove (path : string) : no_io_error (os_remove path).
Proof.
  intros w w' p. unfold os_remove. run_prims.
  by destruct (fs w !! path) as [[c m|]|].
Qed.

Lemma no_io_error_ret {A} (a : A) : no_io_error (mret a).
Proof. by intros w w' p. Qed.

Lemma no_io_error_modify_tally (g : _Tally → _Tally) : no_io_error (modify_tally g).
Proof. by intros w w' p. Qed.

(** When [transform_file] ends in an I/O error, which only reading the
    source and writing the temporary file raise, no move has been performed;
    a backup that existed is as it was, and so is every entry other than
    the temporary file itself, the source among them when it is not the
    temporary path. *)
Theorem transform_file_io_error_touches_nothing
    (t : string → M (string * _MatchCounts))
    (source_path dest_path : string) (by_line dry_run : bool)
    (w w' : World) (path : string) :
  pure_transform t →
  transform_file (Some t) source_path dest_path BACKUP_SUFFIX TEMP_SUFFIX by_line dry_run w
    = (Raise (IOError path), w') →
  moved w' = moved w ∧
  (∀ x, fs w !! (source_path +:+ BACKUP_SUFFIX) = Some x →
        fs w' !! (source_path +:+ BACKUP_SUFFIX) = Some x) ∧
  (source_path ≠ dest_path +:+ TEMP_SUFFIX →
   ∀ x, fs w !! source_path = Some x → fs w' !! source_path = Some x) ∧
  (∀ p x, p ≠ dest_path +:+ TEMP_SUFFIX → fs w !! p = Some x → fs w' !! p = Some x).
Proof.
  intros Ht Hrun.
  assert (Hkeeps : keeps (dest_path +:+ TEMP_SUFFIX) w w').
  { unfold transform_file in Hrun.
    apply bind_inv in Hrun as [(e & Hrun & _)|(? & w1 & Hrun & Hrest)];
      [by eapply safe_make_parent_dirs|].
    eapply keeps_trans; [by eapply safe_make_parent_dirs|]. clear Hrun.
    apply bind_inv in Hrest as [(e & Hrun & _)|(perms & w2 & Hrun & Hrest)];
      [by eapply safe_os_stat_perms|].
    eapply keeps_trans; [by eapply safe_os_stat_perms|]. clear Hrun.
    apply bind_inv in Hrest as [(e & Hrun & _)|(input & w3 & Hrun & Hrest)];
      [by eapply safe_open_rb|].
    eapply keeps_trans; [by eapply safe_open_rb|]. clear Hrun.
    apply bind_inv in Hrest as [(e & Hrun & _)|(output & w4 & Hrun & Hrest)];
      [by apply os_open_keeps in Hrun as [? _]|].
    apply os_open_keeps in Hrun as [Hk Hout]. specialize (Hout output eq_refl).
    eapply keeps_trans; [exact Hk|]. clear Hk.
    apply bind_inv in Hrest as [(e & Hrun & _)|(counts & w5 & Hrun & Hrest)].
    { rewrite <- Hout. eapply transform_stream_keeps; [|exact Hrun].
      by intros u [= <-]. }
    exfalso. revert Hrest.
    apply no_io_error_bind; [|intros _; apply no_io_error_bind;
      [apply no_io_error_modify_tally|intros _; apply no_io_error_ret]].
    destruct (_ && _); [|apply no_io_error_os_remove].
    apply no_io_error_bind; [|intros _]; apply no_io_error_move_file. }
  destruct Hkeeps as [Hmoved Hfs].
  repeat split; [exact Hmoved| | |exact Hfs].
  - intros x. apply Hfs, backup_not_temp.
  - intros Hne x. by apply Hfs.
Qed.

End Commit.

Section Runs.

Lemma multi_replace_pure (patterns : list (regex * string)) (is_path : bool)
    (source_name : option string) :
  pure_transform (fun contents => multi_replace contents patterns is_path source_name).
Proof.
  intros s w. unfold multi_replace, mbind, M_bind, lift.
  destruct (_apply_replacements _ _); [|done].
  by destruct is_path.
Qed.

End Runs.

(** The theorem at a run in which the first write to the temporary file of
    [a.txt] fails. *)
Lemma transform_file_io_error_witness :
  let run := @transform_file faulty (Some foo_transform) "a.txt" "a.txt"
               BACKUP_SUFFIX TEMP_SUFFIX true false run_files in
  pure_transform foo_transform ∧
  run = (Raise (IOError "a.txt.repren.tmp"), snd run) ∧
  moved (snd run) = moved run_files ∧
  (∀ x, fs run_files !! ("a.txt" +:+ BACKUP_SUFFIX) = Some x →
        fs (snd run) !! ("a.txt" +:+ BACKUP_SUFFIX) = Some x) ∧
  ("a.txt" ≠ "a.txt" +:+ TEMP_SUFFIX →
   ∀ x, fs run_files !! "a.txt" = Some x → fs (snd run) !! "a.txt" = Some x) ∧
  (∀ p x, p ≠ "a.txt" +:+ TEMP_SUFFIX → fs run_files !! p = Some x →
          fs (snd run) !! p = Some x).
Proof.
  intros run.
  assert (Hpure : pure_transform foo_transform) by apply multi_replace_pure.
  assert (Hrun : run = (Raise (IOError "a.txt.repren.tmp"), snd run)) by reflexivity.
  split; [exact Hpure|]. split; [exact Hrun|].
  exact (@transform_file_io_error_touches_nothing faulty foo_transform
           "a.txt" "a.txt" true false run_files (snd run) "a.txt.repren.tmp" Hpure Hrun).
Defined.

(** C2 at a failing input: the file x.repren.tmp is given as a root and the
    rules rename it to x, so that the temporary file of the destination is
    the source itself.  The first write stores two bytes and fails: the run
    ends in the I/O error before any move and before anything exists at the
    destination, but the two bytes have been written over the beginning of
    the source, whose content is no longer the original.  In the run over
    a.txt, whose temporary file is a file of its own, the same failure leaves
    the source and the old backup as they were. *)
Theorem transform_file_io_error_overwrites_source :
  let run := @rewrite_files leftover_faulty ["x.repren.tmp"] strip_rules true true
               DEFAULT_EXCLUDE_PAT true false leftover_file in
  let other := @rewrite_files faulty ["a.txt"] foo_rules false true
                 DEFAULT_EXCLUDE_PAT true false run_files in
  rule_texts strip_rules = [("foo", "quux"); ("\.repren\.tmp", "")] ∧
  fst (@walk_files leftover_faulty ["x.repren.tmp"] DEFAULT_EXCLUDE_PAT leftover_file)
    = Ok ["x.repren.tmp"] ∧
  fst (multi_replace "x.repren.tmp" strip_rules true None leftover_file)
    = Ok ("x", {| found := 1; valid := 1 |}) ∧
  "x" +:+ TEMP_SUFFIX = "x.repren.tmp" ∧
  fs leftover_file !! "x.repren.tmp"
    = Some (File ("foo" +:+ LF +:+ "keep me" +:+ LF) 420%N) ∧
  fst run = Raise (IOError "x.repren.tmp") ∧
  moved (snd run) = [] ∧
  fs (snd run) !! "x" = None ∧
  fs (snd run) !! "x.repren.tmp.orig" = None ∧
  fs (snd run) !! "x.repren.tmp"
    = Some (File ("quo" +:+ LF +:+ "keep me" +:+ LF) 420%N) ∧
  fst other = Raise (IOError "a.txt.repren.tmp") ∧
  moved (snd other) = [] ∧
  fs (snd other) !! "a.txt" = fs run_files !! "a.txt" ∧
  fs (snd other) !! "a.txt.orig" = fs run_files !! "a.txt.orig".
Proof. vm_compute. repeat split; reflexivity. Qed.

(** What the failed write leaves: the source and the old backup as they
    were, two bytes in the temporary file, no move. *)
Example transform_file_io_error_run :
  let run := @transform_file faulty (Some foo_transform) "a.txt" "a.txt"
               BACKUP_SUFFIX TEMP_SUFFIX true false run_files in
  fst run = Raise (IOError "a.txt.repren.tmp") ∧
  fs (snd run) !! "a.txt" = Some (File ("foo" +:+ LF +:+ "bar foo" +:+ LF) 420%N) ∧
  fs (snd run) !! "a.txt.orig" = Some (File "OLD" 420%N) ∧
  fs (snd run) !! "a.txt.repren.tmp" = Some (File "qu" 420%N) ∧
  moved (snd run) = [].
Proof. vm_compute. repeat split; reflexivity. Qed.

(** Without a fault the same call commits: the source becomes the backup
    and the temporary file becomes the destination. *)
Example transform_file_commit_run :
  let run := @transform_file sound (Some foo_transform) "a.txt" "a.txt"
               BACKUP_SUFFIX TEMP_SUFFIX true false run_files in
  fst run = Ok {| found := 2; valid := 2 |} ∧
  fs (snd run) !! "a.txt" = Some (File ("quux" +:+ LF +:+ "bar quux" +:+ LF) 420%N) ∧
  fs (snd run) !! "a.txt.orig" = Some (File ("foo" +:+ LF +:+ "bar foo" +:+ LF) 420%N) ∧
  fs (snd run) !! "a.txt.repren.tmp" = None ∧
  moved (snd run) = [("a.txt", "a.txt.orig"); ("a.txt.repren.tmp", "a.txt")].
Proof. vm_compute. repeat split; reflexivity. Qed.

(** ** A failure in a run over several files *)

Section Halting.
Context `{Platform}.

Lemma rewrite_each_stops (done_ rest : list string) (path : string)
    (patterns : list (regex * string)) (do_renames do_contents by_line dry_run : bool)
    (w0 w1 w2 : World) (e : exn) :
  rewrite_each done_ patterns do_renames do_contents by_line dry_run w0 = (Ok tt, w1) →
  rewrite_file path patterns do_renames do_contents by_line dry_run w1 = (Raise e, w2) →
  rewrite_each (done_ ++ path :: rest) patterns do_renames do_contents by_line dry_run w0
    = (Raise e, w2).
Proof.
  revert w0. induction done_ as [|p done_ IH]; intros w0 Hdone Hfail.
  - injection Hdone as <-. simpl. unfold mbind, M_bind. by rewrite Hfail.
  - simpl in Hdone |- *. unfold mbind, M_bind in Hdone |- *.
    destruct (rewrite_file p patterns do_renames do_contents by_line dry_run w0)
      as [[[]|e'] w'] eqn:Hp; [|discriminate Hdone].
    by apply IH.
Qed.

(** C3, as the code has it: an I/O error in the transform of one file
    leaves [rewrite_files] as it was raised.  The files listed before that
    file have been processed, the world is the one the failed transform
    left, and no file listed after it is processed. *)
Theorem rewrite_files_stops_at_io_error
    (root_paths done_ rest : list string) (path : string)
    (patterns : list (regex * string)) (do_renames do_contents : bool)
    (exclude_pat : string) (by_line dry_run : bool)
    (w w0 w1 w2 : World) (failed : string) :
  walk_files root_paths exclude_pat w = (Ok (done_ ++ path :: rest), w0) →
  rewrite_each done_ patterns do_renames do_contents by_line dry_run w0 = (Ok tt, w1) →
  rewrite_file path patterns do_renames do_contents by_line dry_run w1
    = (Raise (IOError failed), w2) →
  rewrite_files root_paths patterns do_renames do_contents exclude_pat by_line dry_run w
    = (Raise (IOError failed), w2).
Proof.
  intros Hwalk Hdone Hfail. unfold rewrite_files, mbind, M_bind.
  rewrite Hwalk. by eapply rewrite_each_stops.
Qed.

End Halting.

(** The theorem at the run over [b.txt], [a.txt], [c.txt] in which the write
    for [a.txt] fails. *)
Lemma rewrite_files_stops_witness :
  @walk_files faulty run_roots DEFAULT_EXCLUDE_PAT run_files
    = (Ok (["b.txt"] ++ "a.txt" :: ["c.txt"]), run_files) ∧
  @rewrite_each faulty ["b.txt"] foo_rules false true true false run_files
    = (Ok tt, after_b) ∧
  @rewrite_file faulty "a.txt" foo_rules false true true false after_b
    = (Raise (IOError "a.txt.repren.tmp"), after_a) ∧
  @rewrite_files faulty run_roots foo_rules false true DEFAULT_EXCLUDE_PAT true false run_files
    = (Raise (IOError "a.txt.repren.tmp"), after_a).
Proof.
  assert (Hwalk : @walk_files faulty run_roots DEFAULT_EXCLUDE_PAT run_files
                  = (Ok (["b.txt"] ++ "a.txt" :: ["c.txt"]), run_files)) by reflexivity.
  assert (Hdone : @rewrite_each faulty ["b.txt"] foo_rules false true true false run_files
                  = (Ok tt, after_b)) by reflexivity.
  assert (Hfail : @rewrite_file faulty "a.txt" foo_rules false true true false after_b
                  = (Raise (IOError "a.txt.repren.tmp"), after_a)) by reflexivity.
  split; [exact Hwalk|]. split; [exact Hdone|]. split; [exact Hfail|].
  exact (@rewrite_files_stops_at_io_error faulty run_roots ["b.txt"] ["c.txt"] "a.txt"
           foo_rules false true DEFAULT_EXCLUDE_PAT true false
           run_files run_files after_b after_a "a.txt.repren.tmp" Hwalk Hdone Hfail).
Defined.

(** C3, as stated, fails: in the run over b.txt, a.txt and c.txt the write
    for a.txt fails; b.txt has been rewritten, the error ends the run, and
    c.txt, which the run without the fault rewrites, is not processed. *)
Lemma rewrite_files_does_not_continue :
  let run := @rewrite_files faulty run_roots foo_rules false true
               DEFAULT_EXCLUDE_PAT true false run_files in
  let clean := @rewrite_files sound run_roots foo_rules false true
                 DEFAULT_EXCLUDE_PAT true false run_files in
  fst run = Raise (IOError "a.txt.repren.tmp") ∧
  fs (snd run) !! "b.txt" = Some (File "quux" 384%N) ∧
  fs (snd run) !! "c.txt" = Some (File "a foo" 420%N) ∧
  fs (snd run) !! "c.txt.orig" = None ∧
  t_files (tally (snd run)) = 1 ∧
  fst clean = Ok tt ∧
  fs (snd clean) !! "c.txt" = Some (File "a quux" 420%N) ∧
  t_files (tally (snd clean)) = 3.
Proof. vm_compute. repeat split; reflexivity. Qed.

(** * Further properties *)

(** ** What the selection keeps and what it drops *)

Section Selected.

Implicit Types (l : list (Match * string)) (mr : Match * string).

Lemma list_insert_at_perm {A} (i : nat) (x : A) (k : list A) :
  list_insert_at i x k ≡ₚ x :: k.
Proof.
  unfold list_insert_at. rewrite <- (take_drop i k) at 3.
  by rewrite Permutation_middle.
Qed.

Lemma sdo_step_cases st mr :
  sdo_step st mr = st ∨
  ∃ i, fst (sdo_step st mr) = list_insert_at i mr (fst st).
Proof.
  destruct st as [l a], mr as [m r]. unfold sdo_step.
  destruct (_ && _); [by left|]. destruct (_ && _); [by left|].
  right. eexists. reflexivity.
Qed.

Lemma fold_sdo_submseteq (matches : list (Match * string)) st :
  fst (fold_left sdo_step matches st) ⊆+ matches ++ fst st.
Proof.
  revert st. induction matches as [|mr matches IH]; intros st; simpl; [done|].
  etrans; [apply IH|].
  destruct (sdo_step_cases st mr) as [->|[i ->]].
  - by apply submseteq_cons.
  - rewrite list_insert_at_perm. by rewrite <- Permutation_middle.
Qed.

Lemma sdo_submseteq (matches : list (Match * string)) :
  _sort_drop_overlaps matches ⊆+ matches.
Proof.
  unfold _sort_drop_overlaps, sdo_loop.
  pose proof (fold_sdo_submseteq matches ([], [])) as H. simpl in H.
  by rewrite app_nil_r in H.
Qed.

Lemma sdo_length_le (matches : list (Match * string)) :
  length (_sort_drop_overlaps matches) ≤ length matches.
Proof. apply submseteq_length, sdo_submseteq. Qed.

(** X1: the selection is taken from the collected matches, each at most as
    often as it was collected, so that no more matches are valid than were
    found. *)
Theorem sort_drop_overlaps_submseteq (matches : list (Match * string)) :
  _sort_drop_overlaps matches ⊆+ matches ∧
  (∀ mr, mr ∈ _sort_drop_overlaps matches → mr ∈ matches) ∧
  length (_sort_drop_overlaps matches) ≤ length matches.
Proof.
  pose proof (sdo_submseteq matches) as Hsub.
  split; [exact Hsub|]. split.
  - intros mr Hmr. eapply elem_of_submseteq; eauto.
  - apply sdo_length_le.
Qed.

Lemma sdo_step_keeps st mr x : x ∈ fst st → x ∈ fst (sdo_step st mr).
Proof.
  intros Hx. destruct (sdo_step_cases st mr) as [->|[i ->]]; [done|].
  rewrite list_insert_at_perm. by apply elem_of_cons; right.
Qed.

Lemma fold_sdo_keeps (matches : list (Match * string)) st x :
  x ∈ fst st → x ∈ fst (fold_left sdo_step matches st).
Proof.
  revert st. induction matches as [|mr matches IH]; intros st Hx; simpl; [done|].
  by apply IH, sdo_step_keeps.
Qed.

(** A match that is not inserted overlaps one that is already selected. *)
Lemma sdo_step_rejects st mr :
  mr ∈ fst (sdo_step st mr) ∨
  ∃ s, s ∈ fst st ∧ _overlap (fst s) (fst mr) = true.
Proof.
  destruct st as [l a], mr as [m r]. unfold sdo_step.
  set (index := bisect_left a (m_start m)).
  destruct ((0 <? index) && overlaps_at l (index - 1) m) eqn:Hleft.
  { right. apply andb_true_iff in Hleft as [_ Hov]. unfold overlaps_at in Hov.
    destruct (l !! (index - 1)) as [[p rp]|] eqn:Hp; [|done].
    exists (p, rp). split; [|done]. by eapply list_elem_of_lookup_2. }
  destruct ((index <? length l) && overlaps_at l index m) eqn:Hright.
  { right. apply andb_true_iff in Hright as [_ Hov]. unfold overlaps_at in Hov.
    destruct (l !! index) as [[n rn]|] eqn:Hn; [|done].
    exists (n, rn). split; [|done]. by eapply list_elem_of_lookup_2. }
  left. cbn [fst]. rewrite list_insert_at_perm. by apply elem_of_cons; left.
Qed.

Lemma fold_sdo_maximal (matches : list (Match * string)) st mr :
  mr ∈ matches →
  mr ∈ fst (fold_left sdo_step matches st) ∨
  ∃ s, s ∈ fst (fold_left sdo_step matches st) ∧ _overlap (fst s) (fst mr) = true.
Proof.
  revert st. induction matches as [|x matches IH]; intros st Hmr; simpl.
  - by apply elem_of_nil in Hmr.
  - apply elem_of_cons in Hmr as [->|Hmr]; [|by apply IH].
    destruct (sdo_step_rejects st x) as [Hin|(s & Hs & Hov)].
    + left. by apply fold_sdo_keeps.
    + right. exists s. split; [|done]. by apply fold_sdo_keeps, sdo_step_keeps.
Qed.

(** X3: a match that overlaps no match selected among those collected
    before it is selected: a match is only ever dropped in favour of one that
    comes earlier in the list, and the first match of the first rule is
    always selected. *)
Theorem sort_drop_overlaps_priority (pre post : list (Match * string)) mr :
  (∀ s, s ∈ _sort_drop_overlaps pre → _overlap (fst s) (fst mr) = false) →
  mr ∈ _sort_drop_overlaps (pre ++ mr :: post).
Proof.
  intros Hclear. unfold _sort_drop_overlaps, sdo_loop.
  rewrite fold_left_app. cbn [fold_left]. apply fold_sdo_keeps.
  destruct (sdo_step_rejects (fold_left sdo_step pre ([], [])) mr)
    as [Hin|(s & Hs & Hov)]; [done|].
  apply Hclear in Hs. congruence.
Qed.

(** X2: the selection is maximal: every collected match is selected or
    overlaps a selected match; none is dropped for another reason. *)
Theorem sort_drop_overlaps_maximal (matches : list (Match * string)) :
  Forall (fun mr =>
            mr ∈ _sort_drop_overlaps matches ∨
            ∃ s, s ∈ _sort_drop_overlaps matches ∧ _overlap (fst s) (fst mr) = true)
         matches.
Proof. apply Forall_forall. intros mr Hmr. by apply fold_sdo_maximal. Qed.

End Selected.

(** The theorem at the two matches of the rules foo -> bar, bar -> foo in
    the buffer foo bar. *)
Lemma sort_drop_overlaps_priority_witness :
  let a := (Simple.make_match "foo bar" (0, 3), "bar") in
  let b := (Simple.make_match "foo bar" (4, 7), "foo") in
  (∀ s, s ∈ _sort_drop_overlaps [a] → _overlap (fst s) (fst b) = false) ∧
  b ∈ _sort_drop_overlaps ([a] ++ b :: []).
Proof.
  intros a b.
  assert (Hclear : ∀ s, s ∈ _sort_drop_overlaps [a] → _overlap (fst s) (fst b) = false).
  { intros s Hs. change (_sort_drop_overlaps [a]) with [a] in Hs.
    apply list_elem_of_singleton in Hs as ->. reflexivity. }
  split; [exact Hclear|].
  exact (sort_drop_overlaps_priority [a] [] b Hclear).
Defined.

(** The theorem at the rules foo -> bar, bar -> foo and the buffer
    foo bar. *)
Lemma selection_disjoint_witness :
  (∀ rule, rule ∈ swap_rules →
           Forall (fun m => m_start m < m_end m) (re_finditer rule.1 "foo bar")) ∧
  ascending (_sort_drop_overlaps (collect_matches "foo bar" swap_rules)) ∧
  pairwise_disjoint (_sort_drop_overlaps (collect_matches "foo bar" swap_rules)).
Proof.
  assert (Hcheck : forallb (fun rule : regex * string =>
                              forallb (fun m => m_start m <? m_end m)
                                      (re_finditer rule.1 "foo bar"))
                           swap_rules = true) by (vm_compute; reflexivity).
  assert (Hrules : ∀ rule, rule ∈ swap_rules →
            Forall (fun m => m_start m < m_end m) (re_finditer rule.1 "foo bar")).
  { intros rule Hrule. rewrite forallb_forall in Hcheck.
    apply list_elem_of_In in Hrule. specialize (Hcheck _ Hrule).
    rewrite forallb_forall in Hcheck.
    apply Forall_forall. intros m Hm. apply Nat.ltb_lt, Hcheck.
    by apply list_elem_of_In. }
  split; [exact Hrules|].
  exact (selection_disjoint_without_empty_matches "foo bar" swap_rules Hrules).
Defined.

(** ** What the applier copies *)

Section Applier.

Lemma substring_empty (i n : nat) : String.substring i n "" = "".
Proof. by destruct i, n. Qed.

Lemma substring_whole (s : string) : String.substring 0 (String.length s) s = s.
Proof. induction s as [|c s IH]; simpl; [done|]. by rewrite IH. Qed.

Lemma substring_app (s : string) (i n m : nat) :
  String.substring i n s +:+ String.substring (i + n) m s = String.substring i (n + m) s.
Proof.
  revert i n. induction s as [|c s IH]; intros i n.
  - by rewrite !substring_empty.
  - destruct i as [|i].
    + destruct n as [|n]; [done|].
      cbn [String.substring Nat.add append]. f_equal. apply (IH 0 n).
    + cbn [String.substring Nat.add]. apply IH.
Qed.

Lemma slice_from_0 (s : string) : Str.slice_from s 0 = s.
Proof. unfold Str.slice_from. rewrite Nat.sub_0_r. apply substring_whole. Qed.

(** Three adjacent slices make up the rest of the string. *)
Lemma slice_split (s : string) (pos a b : nat) :
  pos ≤ a → a ≤ b → b ≤ String.length s →
  Str.slice s pos a +:+ Str.slice s a b +:+ Str.slice_from s b = Str.slice_from s pos.
Proof.
  intros Hpa Hab Hb. unfold Str.slice, Str.slice_from.
  replace b with (a + (b - a)) at 2 by lia.
  rewrite substring_app.
  replace a with (pos + (a - pos)) at 2 by lia.
  rewrite substring_app. f_equal. lia.
Qed.

Lemma apply_from_echo (input : string) (matches : list (Match * string)) (pos : nat) :
  StronglySorted before matches →
  Forall (echoes input) matches →
  Forall (fun mr => pos ≤ start_of mr) matches →
  pos ≤ String.length input →
  _apply_replacements_from input pos matches = Ok (Str.slice_from input pos).
Proof.
  intros Hs. revert pos. induction Hs as [|[m r] rest Hs IH Hb]; intros pos He Hpos Hlen.
  - done.
  - apply Forall_cons in He as [(Hse & Hend & Hexp) He].
    apply Forall_cons in Hpos as [Hp _].
    unfold start_of, end_of in *. cbn [fst snd] in *.
    cbn [_apply_replacements_from]. rewrite Hexp. cbn [mbind result_bind].
    rewrite (IH (m_end m)); [|done|exact Hb|done].
    cbn [mbind result_bind]. f_equal. by apply slice_split.
Qed.

(** X5: when the matches follow one another without overlap and each
    replacement expands to the text it matched, the output is the input:
    every byte outside the matches is copied once, in order. *)
Theorem _apply_replacements_echo (input : string) (matches : list (Match * string)) :
  StronglySorted before matches →
  Forall (echoes input) matches →
  _apply_replacements input matches = Ok input.
Proof.
  intros Hs He. unfold _apply_replacements.
  rewrite (apply_from_echo input matches 0 Hs He); [by rewrite slice_from_0| |lia].
  apply Forall_forall. intros; lia.
Qed.

(** X6: when no rule matches in the buffer, [multi_replace] returns the
    buffer as it is, with both counts at zero; only the count of bytes read
    changes, and only for file contents. *)
Theorem multi_replace_no_match (input : string) (patterns : list (regex * string))
    (is_path : bool) (source_name : option string) (w : World) :
  collect_matches input patterns = [] →
  fst (multi_replace input patterns is_path source_name w)
    = Ok (input, {| found := 0; valid := 0 |}) ∧
  fs (snd (multi_replace input patterns is_path source_name w)) = fs w ∧
  t_matches (tally (snd (multi_replace input patterns is_path source_name w)))
    = t_matches (tally w) ∧
  t_chars (tally (snd (multi_replace input patterns is_path source_name w)))
    = t_chars (tally w) + (if is_path then 0 else String.length input).
Proof.
  intros Hnone. unfold multi_replace. rewrite Hnone.
  change (_sort_drop_overlaps []) with (@nil (Match * string)).
  unfold _apply_replacements. cbn [_apply_replacements_from].
  rewrite slice_from_0.
  destruct is_path; repeat split; try reflexivity; simpl; lia.
Qed.

End Applier.

(** The theorem at the selection for foo -> foo, bar -> bar in foo bar. *)
Lemma _apply_replacements_echo_witness :
  let matches := _sort_drop_overlaps (collect_matches "foo bar" echo_rules) in
  StronglySorted before matches ∧
  Forall (echoes "foo bar") matches ∧
  _apply_replacements "foo bar" matches = Ok "foo bar".
Proof.
  intros matches.
  assert (Hs : StronglySorted before matches).
  { vm_compute. repeat constructor. }
  assert (He : Forall (echoes "foo bar") matches).
  { vm_compute. repeat constructor. }
  split; [exact Hs|]. split; [exact He|].
  exact (_apply_replacements_echo "foo bar" matches Hs He).
Defined.

(** The theorem at the rule foo -> quux and the buffer bar. *)
Lemma multi_replace_no_match_witness :
  collect_matches "bar" foo_rules = [] ∧
  fst (multi_replace "bar" foo_rules false None empty_world)
    = Ok ("bar", {| found := 0; valid := 0 |}) ∧
  fs (snd (multi_replace "bar" foo_rules false None empty_world)) = fs empty_world ∧
  t_matches (tally (snd (multi_replace "bar" foo_rules false None empty_world)))
    = t_matches (tally empty_world) ∧
  t_chars (tally (snd (multi_replace "bar" foo_rules false None empty_world)))
    = t_chars (tally empty_world) + (if false then 0 else String.length "bar").
Proof.
  split; [reflexivity|].
  exact (multi_replace_no_match "bar" foo_rules false None empty_world eq_refl).
Defined.

(** ** Words of a name *)

Section Words.

Lemma append_assoc (a b c : string) : (a +:+ b) +:+ c = a +:+ (b +:+ c).
Proof. induction a as [|x a IH]; cbn [append]; [done|]. by rewrite IH. Qed.

Lemma join_cons2 (sep a b : string) (l : list string) :
  Str.join sep (a :: b :: l) = a +:+ sep +:+ Str.join sep (b :: l).
Proof. reflexivity. Qed.

Lemma join_one (sep a : string) : Str.join sep [a] = a.
Proof. reflexivity. Qed.

(** [sep.join(s.split(sep))] is [s]. *)
Lemma join_split (sep : ascii) (s : string) :
  Str.join (String sep "") (Str.split sep s) = s.
Proof.
  induction s as [|c s IH]; [done|].
  cbn [Str.split]. pose proof (split_not_nil sep s) as Hne.
  destruct (Str.split sep s) as [|w ws] eqn:Hs; [done|].
  destruct (Ascii.eqb_spec c sep) as [->|Hc].
  - rewrite join_cons2, IH. reflexivity.
  - destruct ws as [|w' ws].
    + rewrite join_one in *. by rewrite IH.
    + rewrite join_cons2 in *. cbn [append] in *. by rewrite IH.
Qed.

(** [''.join(s.split(sep))] is [s] without its separators. *)
Lemma join_empty_split (sep : ascii) (s : string) :
  Str.join "" (Str.split sep s) = del_char sep s.
Proof.
  induction s as [|c s IH]; [done|].
  cbn [Str.split del_char]. pose proof (split_not_nil sep s) as Hne.
  destruct (Str.split sep s) as [|w ws] eqn:Hs; [done|].
  destruct (Ascii.eqb c sep).
  - rewrite join_cons2, IH. reflexivity.
  - destruct ws as [|w' ws].
    + rewrite join_one in *. by rewrite IH.
    + rewrite join_cons2 in *. cbn [append] in *. by rewrite IH.
Qed.

Lemma del_char_absent (c : ascii) (s : string) :
  Str.contains_char c s = false → del_char c s = s.
Proof.
  induction s as [|d s IH]; cbn [Str.contains_char del_char]; [done|].
  intros [Hd Hs]%orb_false_iff. rewrite Ascii.eqb_sym, Hd. by rewrite IH.
Qed.

Lemma upper_not_tab (c : ascii) : Str.is_upper c = true → Ascii.eqb c Str.tab = false.
Proof.
  intros Hc. destruct (Ascii.eqb_spec c Str.tab) as [->|]; [discriminate Hc|done].
Qed.

Lemma pat1_unfold (c1 c2 : ascii) (s : string) :
  _camel_split_pat1_sub (String c1 (String c2 s)) =
  if negb (Str.is_upper c1) && Str.is_upper c2
  then String c1 (String Str.tab (String c2 (_camel_split_pat1_sub s)))
  else String c1 (_camel_split_pat1_sub (String c2 s)).
Proof. reflexivity. Qed.

Lemma pat2_unfold (c1 c2 c3 : ascii) (s : string) :
  _camel_split_pat2_sub (String c1 (String c2 (String c3 s))) =
  if Str.is_upper c1 && Str.is_upper c2 && negb (Str.is_upper c3)
  then String c1 (String Str.tab (String c2 (String c3 (_camel_split_pat2_sub s))))
  else String c1 (_camel_split_pat2_sub (String c2 (String c3 s))).
Proof. reflexivity. Qed.

(** The first pattern only inserts tabs. *)
Lemma del_tab_pat1 (s : string) :
  del_char Str.tab (_camel_split_pat1_sub s) = del_char Str.tab s.
Proof.
  assert (H : del_char Str.tab (_camel_split_pat1_sub s) = del_char Str.tab s ∧
              ∀ c, del_char Str.tab (_camel_split_pat1_sub (String c s))
                   = del_char Str.tab (String c s)); [|by destruct H].
  induction s as [|c2 s [IH1 IH2]]; [done|].
  split; [apply IH2|]. intros c1.
  rewrite pat1_unfold.
  destruct (negb (Str.is_upper c1) && Str.is_upper c2) eqn:Hc.
  - cbn [del_char]. rewrite Ascii.eqb_refl. cbn [del_char]. by rewrite IH1.
  - cbn [del_char]. by rewrite IH2.
Qed.

(** So does the second. *)
Lemma del_tab_pat2 (s : string) :
  del_char Str.tab (_camel_split_pat2_sub s) = del_char Str.tab s.
Proof.
  assert (H : del_char Str.tab (_camel_split_pat2_sub s) = del_char Str.tab s ∧
              (∀ c, del_char Str.tab (_camel_split_pat2_sub (String c s))
                    = del_char Str.tab (String c s)) ∧
              (∀ c d, del_char Str.tab (_camel_split_pat2_sub (String c (String d s)))
                      = del_char Str.tab (String c (String d s)))); [|by destruct H].
  induction s as [|c3 s (IH1 & IH2 & IH3)]; [done|].
  split; [apply IH2|]. split; [intros c; apply IH3|]. intros c1 c2.
  rewrite pat2_unfold.
  destruct (Str.is_upper c1 && Str.is_upper c2 && negb (Str.is_upper c3)) eqn:Hc.
  - cbn [del_char]. rewrite Ascii.eqb_refl. cbn [del_char]. by rewrite IH1.
  - cbn [del_char]. by rewrite IH3.
Qed.

(** X7: [_split_name] loses nothing: joined with the separator it returns,
    the words are the name again, for every name that has an underscore or
    has no tab. *)
Theorem _split_name_join (name : string) :
  Str.contains_char "_" name = true ∨ Str.contains_char Str.tab name = false →
  Str.join (fst (_split_name name)) (snd (_split_name name)) = name.
Proof.
  intros Hname. unfold _split_name.
  destruct (Str.contains_char "_" name) eqn:Hu; cbn [fst snd].
  - apply join_split.
  - destruct Hname as [|Htab]; [done|].
    rewrite join_empty_split, del_tab_pat2, del_tab_pat1.
    by apply del_char_absent.
Qed.

End Words.

(** The theorem at an underscore name and at a camel-case name. *)
Lemma _split_name_join_witness :
  (Str.contains_char "_" "foo_bar" = true ∨ Str.contains_char Str.tab "foo_bar" = false) ∧
  Str.join (fst (_split_name "foo_bar")) (snd (_split_name "foo_bar")) = "foo_bar" ∧
  (Str.contains_char "_" "XMLFooBar" = true ∨ Str.contains_char Str.tab "XMLFooBar" = false) ∧
  Str.join (fst (_split_name "XMLFooBar")) (snd (_split_name "XMLFooBar")) = "XMLFooBar".
Proof.
  split; [left; reflexivity|].
  split; [exact (_split_name_join "foo_bar" (or_introl eq_refl))|].
  split; [right; reflexivity|].
  exact (_split_name_join "XMLFooBar" (or_intror eq_refl)).
Defined.

Section Renderers.

Lemma map_chars_app (f : ascii → ascii) (a b : string) :
  Str.map_chars f (a +:+ b) = Str.map_chars f a +:+ Str.map_chars f b.
Proof. induction a as [|c a IH]; cbn [append Str.map_chars]; [done|]. by rewrite IH. Qed.

Lemma map_chars_join (f : ascii → ascii) (sep : string) (words : list string) :
  Str.map_chars f (Str.join sep words)
  = Str.join (Str.map_chars f sep) (map (Str.map_chars f) words).
Proof.
  induction words as [|a [|b l] IH]; [done..|].
  cbn [map]. rewrite !join_cons2, !map_chars_app. cbn [map] in IH. by rewrite IH.
Qed.

(** X8: for a name with an underscore the two underscore renderers change
    the case of the letters and nothing else: they return [name.lower()] and
    [name.upper()]. *)
Theorem to_underscore_of_underscore_name (name : string) :
  Str.contains_char "_" name = true →
  to_lower_underscore name = Ok (Str.lower name) ∧
  to_upper_underscore name = Ok (Str.upper name).
Proof.
  intros Hu. unfold to_lower_underscore, to_upper_underscore, _split_name.
  rewrite Hu. cbn [snd]. unfold Str.lower, Str.upper. split; f_equal.
  - rewrite <- (join_split "_" name) at 2. by rewrite map_chars_join.
  - rewrite <- (join_split "_" name) at 2. by rewrite map_chars_join.
Qed.

End Renderers.

(** The theorem at a name of mixed case. *)
Lemma to_underscore_of_underscore_name_witness :
  Str.contains_char "_" "Foo_barBaz_" = true ∧
  to_lower_underscore "Foo_barBaz_" = Ok (Str.lower "Foo_barBaz_") ∧
  to_upper_underscore "Foo_barBaz_" = Ok (Str.upper "Foo_barBaz_").
Proof.
  split; [reflexivity|].
  exact (to_underscore_of_underscore_name "Foo_barBaz_" eq_refl).
Defined.

Section CamelWords.

Lemma tabs_followed_tail (c : ascii) (s : string) :
  tabs_followed (String c s) = true → tabs_followed s = true.
Proof.
  cbn [tabs_followed]. destruct (Ascii.eqb c Str.tab); [|done].
  destruct s as [|d s]; [done|]. by intros [_ ?]%andb_true_iff.
Qed.

(** A string may take the place of one with the same first byte. *)
Lemma tabs_followed_cons (c : ascii) (s s' : string) :
  tabs_followed (String c s) = true → tabs_followed s' = true →
  first_char s' = first_char s → tabs_followed (String c s') = true.
Proof.
  cbn [tabs_followed]. destruct (Ascii.eqb c Str.tab); [|done].
  destruct s as [|d s]; [done|]. intros [Hd _]%andb_true_iff Hs' Hfirst.
  destruct s' as [|d' s']; [done|]. injection Hfirst as ->.
  rewrite Hd. exact Hs'.
Qed.

Lemma tabs_followed_insert (c : ascii) (s : string) :
  Ascii.eqb c Str.tab = false → tabs_followed (String c s) = true →
  tabs_followed (String Str.tab (String c s)) = true.
Proof.
  intros Hc Hs. change (tabs_followed (String Str.tab (String c s)))
    with (negb (Ascii.eqb c Str.tab) && tabs_followed (String c s)).
  by rewrite Hc, Hs.
Qed.

Lemma first_char_pat1 (s : string) :
  first_char (_camel_split_pat1_sub s) = first_char s.
Proof.
  destruct s as [|c1 [|c2 s]]; [done..|].
  rewrite pat1_unfold. by destruct (_ && _).
Qed.

Lemma first_char_pat2 (s : string) :
  first_char (_camel_split_pat2_sub s) = first_char s.
Proof.
  destruct s as [|c1 [|c2 [|c3 s]]]; [done..|].
  rewrite pat2_unfold. by destruct (_ && _).
Qed.

Lemma tabs_followed_no_tab (s : string) :
  Str.contains_char Str.tab s = false → tabs_followed s = true.
Proof.
  induction s as [|c s IH]; [done|].
  cbn [Str.contains_char tabs_followed].
  intros [Hc Hs]%orb_false_iff. rewrite Ascii.eqb_sym, Hc. by apply IH.
Qed.

(** After the first pattern every tab is followed by a letter. *)
Lemma tabs_followed_pat1 (s : string) :
  Str.contains_char Str.tab s = false →
  tabs_followed (_camel_split_pat1_sub s) = true.
Proof.
  assert (H : (Str.contains_char Str.tab s = false →
               tabs_followed (_camel_split_pat1_sub s) = true) ∧
              ∀ c, Str.contains_char Str.tab (String c s) = false →
                   tabs_followed (_camel_split_pat1_sub (String c s)) = true);
    [|by destruct H].
  induction s as [|c2 s [IH1 IH2]].
  { split; [done|]. intros c Hc. by apply tabs_followed_no_tab. }
  split; [apply IH2|]. intros c1 Hno.
  pose proof Hno as Hno'. cbn [Str.contains_char] in Hno'.
  apply orb_false_iff in Hno' as [Hc1 Hno2].
  pose proof Hno2 as Hno2'. cbn [Str.contains_char] in Hno2'.
  apply orb_false_iff in Hno2' as [Hc2 Hno3].
  rewrite Ascii.eqb_sym in Hc1. rewrite Ascii.eqb_sym in Hc2.
  rewrite pat1_unfold. destruct (_ && _).
  - cbn [tabs_followed]. rewrite Hc1, Hc2. cbn [negb andb]. by apply IH1.
  - cbn [tabs_followed]. rewrite Hc1. by apply IH2.
Qed.

(** The second pattern keeps it so. *)
Lemma tabs_followed_pat2 (s : string) :
  tabs_followed s = true → tabs_followed (_camel_split_pat2_sub s) = true.
Proof.
  assert (H : (tabs_followed s = true → tabs_followed (_camel_split_pat2_sub s) = true) ∧
              (∀ c, tabs_followed (String c s) = true →
                    tabs_followed (_camel_split_pat2_sub (String c s)) = true) ∧
              (∀ c d, tabs_followed (String c (String d s)) = true →
                      tabs_followed (_camel_split_pat2_sub (String c (String d s))) = true));
    [|by destruct H].
  induction s as [|c3 s (IH1 & IH2 & IH3)]; [done|].
  split; [apply IH2|]. split; [intros c; apply IH3|]. intros c1 c2 Hok.
  rewrite pat2_unfold.
  destruct (Str.is_upper c1 && Str.is_upper c2 && negb (Str.is_upper c3)) eqn:Hc.
  - apply andb_true_iff in Hc as [[Hu1 Hu2]%andb_true_iff _].
    apply upper_not_tab in Hu1, Hu2.
    pose proof (tabs_followed_tail _ _ (tabs_followed_tail _ _ Hok)) as Hok3.
    assert (Hout3 : tabs_followed (String c3 (_camel_split_pat2_sub s)) = true).
    { eapply tabs_followed_cons; [exact Hok3| |apply first_char_pat2].
      apply IH1. by eapply tabs_followed_tail. }
    cbn [tabs_followed]. rewrite Hu1, Hu2. cbn [negb andb].
    cbn [tabs_followed] in Hout3. exact Hout3.
  - eapply tabs_followed_cons; [exact Hok| |apply first_char_pat2].
    apply IH3. by eapply tabs_followed_tail.
Qed.

(** When every tab is followed by another byte, only the first word of the
    split can be empty. *)
Lemma split_tabs_followed (s : string) :
  tabs_followed s = true →
  Forall (fun w => w ≠ "") (tail (Str.split Str.tab s)) ∧
  (∀ c, first_char s = Some c → Ascii.eqb c Str.tab = false →
        Forall (fun w => w ≠ "") (Str.split Str.tab s)).
Proof.
  induction s as [|c s IH]; [by split|].
  intros Hok. pose proof (tabs_followed_tail _ _ Hok) as Hs.
  destruct (IH Hs) as [IHt IHa]. cbn [Str.split].
  pose proof (split_not_nil Str.tab s) as Hne.
  destruct (Ascii.eqb c Str.tab) eqn:Hc.
  - cbn [tabs_followed] in Hok. rewrite Hc in Hok.
    destruct s as [|d s]; [done|]. apply andb_true_iff in Hok as [Hd _].
    apply negb_true_iff in Hd. split.
    + cbn [tail]. by apply (IHa d).
    + intros c' [= <-] Hc'. congruence.
  - destruct (Str.split Str.tab s) as [|w ws]; [done|]. cbn [tail] in *.
    split; [exact IHt|]. intros _ _ _. by constructor.
Qed.

(** A name without underscores and tabs that is not empty splits into words
    none of which is empty: the camel-case patterns never put two boundaries
    together, nor one at either end. *)
Lemma camel_words_nonempty (name : string) :
  Str.contains_char "_" name = false →
  Str.contains_char Str.tab name = false →
  name ≠ "" →
  words_nonempty name.
Proof.
  intros Hu Htab Hne. unfold words_nonempty, _split_name. rewrite Hu. cbn [snd].
  destruct name as [|c name]; [done|].
  assert (Hc : Ascii.eqb c Str.tab = false).
  { cbn [Str.contains_char] in Htab. apply orb_false_iff in Htab as [Hc _].
    by rewrite Ascii.eqb_sym. }
  destruct (split_tabs_followed
              (_camel_split_pat2_sub (_camel_split_pat1_sub (String c name))))
    as [_ Hall]; [by apply tabs_followed_pat2, tabs_followed_pat1|].
  apply (Hall c); [|exact Hc]. by rewrite first_char_pat2, first_char_pat1.
Qed.

Lemma word_not_tab (c : ascii) : Str.is_word c = true → Ascii.eqb Str.tab c = false.
Proof.
  intros Hc. destruct (Ascii.eqb_spec Str.tab c) as [<-|]; [discriminate Hc|done].
Qed.

(** The runs of word bytes of an expression are not empty and hold no tab,
    and no underscore when the expression holds none. *)
Lemma name_tokens_plain (cur s : string) :
  Str.contains_char Str.tab cur = false →
  Str.contains_char "_" cur = false →
  Str.contains_char "_" s = false →
  Forall (fun t => t ≠ "" ∧ Str.contains_char Str.tab t = false
                   ∧ Str.contains_char "_" t = false)
         (_name_pat_findall cur s).
Proof.
  revert cur. induction s as [|c s IH]; intros cur Htab Hu Hs;
    cbn [_name_pat_findall].
  - destruct (String.eqb_spec cur ""); [constructor|].
    by repeat constructor.
  - cbn [Str.contains_char] in Hs. apply orb_false_iff in Hs as [Hc Hs].
    destruct (Str.is_word c) eqn:Hw.
    + apply IH; [| |exact Hs]; rewrite contains_char_app; cbn [Str.contains_char].
      * by rewrite Htab, (word_not_tab c Hw).
      * by rewrite Hu, Hc.
    + apply Forall_app. split; [|by apply IH].
      destruct (String.eqb_spec cur ""); [constructor|]. by repeat constructor.
Qed.

(** X9: for an expression without underscores [all_case_variants] returns
    its four variants and never raises: the camel-case patterns split a run
    of letters and digits into words none of which is empty. *)
Theorem all_case_variants_without_underscore (expr : string) :
  Str.contains_char "_" expr = false →
  ∃ a b c d, all_case_variants expr = Ok [a; b; c; d].
Proof.
  intros Hu.
  assert (Hwords : ∀ t, t ∈ name_tokens expr → words_nonempty t).
  { intros t Ht. pose proof (name_tokens_plain "" expr eq_refl eq_refl Hu) as Hall.
    rewrite Forall_forall in Hall. destruct (Hall t Ht) as (Hne & Htab & Hut).
    by apply camel_words_nonempty. }
  assert (Hok : is_ok (all_case_variants expr) = true).
  { unfold all_case_variants. apply rmap_is_ok.
    repeat apply Forall_cons_2; [| | | |constructor];
      apply _transform_expr_is_ok; intros t Ht.
    - apply to_lower_camel_is_ok; auto.
    - apply to_upper_camel_is_ok; auto.
    - done.
    - done. }
  apply is_ok_true in Hok as [vs Hvs].
  pose proof (rmap_length _ _ _ Hvs) as Hlen.
  destruct vs as [|a [|b [|c [|d [|? ?]]]]]; simpl in Hlen; try discriminate.
  exists a, b, c, d. exact Hvs.
Qed.

End CamelWords.

(** The theorem at an expression with an acronym, digits and punctuation. *)
Lemma all_case_variants_without_underscore_witness :
  Str.contains_char "_" "XMLFoo2HTTPBar(x, fooBar)" = false ∧
  ∃ a b c d, all_case_variants "XMLFoo2HTTPBar(x, fooBar)" = Ok [a; b; c; d].
Proof.
  split; [reflexivity|].
  exact (all_case_variants_without_underscore "XMLFoo2HTTPBar(x, fooBar)" eq_refl).
Defined.

(** ** Rules in the order of the lines *)

Section PlainParse.
Context `{Engine}.

Lemma sorted_set_one (p : string * string) : sorted (py_set [p]) = [p].
Proof. reflexivity. Qed.

Lemma omap_cons_some {A B} (f : A → option B) (x : A) (y : B) (l : list A) :
  f x = Some y → omap f (x :: l) = y :: omap f l.
Proof. intros Hx. cbn. by rewrite Hx. Qed.

(** What a line gives when the parse goes on after it. *)
Lemma parse_line_plain (literal word_breaks insensitive : bool) (line : string)
    (block : list (regex * string)) :
  parse_line literal word_breaks insensitive false line = Ok block →
  (is_comment line = true ∧ block = []) ∨
  (is_comment line = false ∧ Str.strip line ≠ "" ∧ tab_count line = 1 ∧
   ∃ text, plain_rule literal word_breaks line = Some text ∧ rule_texts block = [text]).
Proof.
  unfold parse_line, is_comment, plain_rule.
  destruct (Str.startswith "#" (Str.strip line)) eqn:Hc.
  { intros [= <-]. by left. }
  intros Hline. right. split; [done|].
  destruct (String.eqb_spec (Str.strip line) "") as [Hb|Hb]; [discriminate Hline|].
  cbn [negb andb] in Hline.
  destruct (length (Str.split Str.tab line) =? 2) eqn:Hlen; [|discriminate Hline].
  apply Nat.eqb_eq in Hlen. split; [done|].
  split; [rewrite split_tab_count in Hlen; lia|].
  destruct (Str.split Str.tab line) as [|pattern [|replacement [|? ?]]];
    try discriminate Hlen.
  apply rbind_ok in Hline as (pairs & Hpairs & Hcompile).
  unfold line_pairs in Hpairs. cbn [mbind result_bind app] in Hpairs.
  rewrite sorted_set_one in Hpairs. injection Hpairs as <-.
  eexists. split; [reflexivity|].
  by rewrite (compile_pairs_texts _ _ _ _ Hcompile).
Qed.

Lemma parse_lines_plain (literal word_breaks insensitive : bool) (lines : list string)
    (blocks : list (list (regex * string))) :
  rmap (parse_line literal word_breaks insensitive false) lines = Ok blocks →
  let kept := filter (fun line => is_comment line = false) lines in
  rule_texts (concat blocks) = omap (plain_rule literal word_breaks) kept ∧
  length (concat blocks) = length kept ∧
  Forall (fun line => Str.strip line ≠ "" ∧ tab_count line = 1) kept.
Proof.
  revert blocks. induction lines as [|line lines IH]; intros blocks Hr; cbn zeta.
  - injection Hr as <-. by repeat split.
  - cbn [rmap] in Hr. apply rbind_ok in Hr as (block & Hline & Hr).
    apply rbind_ok in Hr as (rest & Hrest & [= <-]).
    destruct (IH rest Hrest) as (Htexts & Hlen & Hall).
    cbn [concat]. rewrite rule_texts_app, length_app, filter_cons.
    apply parse_line_plain in Hline
      as [[Hc ->]|(Hc & Hb & Htabs & text & Hrule & Hblock)].
    + rewrite decide_False by congruence. done.
    + rewrite decide_True by done. rewrite (omap_cons_some _ _ _ _ Hrule), Hblock.
      assert (length block = 1) as ->.
      { unfold rule_texts in Hblock. apply (f_equal length) in Hblock.
        by rewrite length_map in Hblock. }
      repeat split; [by rewrite Htexts|cbn [length]; lia|by constructor].
Qed.

(** X10: without preserve_case, a pattern file that parses gives one rule
    for each line that is not a comment, in the order of the lines; each
    such line is not blank and has exactly one tab, and the rule is its
    pattern (escaped when literal, wrapped when word_breaks) and its
    replacement. *)
Theorem parse_patterns_plain_order (patterns_str : string)
    (literal word_breaks insensitive : bool) (rules : list (regex * string)) :
  parse_patterns patterns_str literal word_breaks insensitive false = Ok rules →
  let kept := filter (fun line => is_comment line = false) (Str.splitlines patterns_str) in
  rule_texts rules = omap (plain_rule literal word_breaks) kept ∧
  length rules = length kept ∧
  Forall (fun line => Str.strip line ≠ "" ∧ tab_count line = 1) kept.
Proof.
  intros Hparse. unfold parse_patterns in Hparse.
  apply rbind_ok in Hparse as (blocks & Hblocks & [= <-]).
  by apply parse_lines_plain in Hblocks.
Qed.

End PlainParse.

(** The theorem at a file of two rules and a comment, parsed with literal
    and word_breaks. *)
Lemma parse_patterns_plain_order_witness :
  @parse_patterns Simple.engine mixed_file true true false false = Ok mixed_rules ∧
  let kept := filter (fun line => is_comment line = false) (Str.splitlines mixed_file) in
  rule_texts mixed_rules = omap (@plain_rule Simple.engine true true) kept ∧
  length mixed_rules = length kept ∧
  Forall (fun line => Str.strip line ≠ "" ∧ tab_count line = 1) kept.
Proof.
  assert (Hparse : @parse_patterns Simple.engine mixed_file true true false false
                   = Ok mixed_rules) by reflexivity.
  split; [exact Hparse|].
  exact (@parse_patterns_plain_order Simple.engine mixed_file true true false
           mixed_rules Hparse).
Defined.

Example mixed_rules_texts :
  rule_texts mixed_rules = [("\ba\.b\b", "X"); ("\bc\b", "Y")].
Proof. reflexivity. Qed.

(** ** Computations that change nothing *)

Section Static.
Context `{Platform}.

Lemma static_bind {A B} (c : M A) (k : A → M B) :
  static c → (∀ a, static (k a)) → static (c ≫= k).
Proof.
  intros Hc Hk w. unfold mbind, M_bind.
  specialize (Hc w). destruct (c w) as [[a|e] w1]; cbn [snd] in *; subst w1; [|done].
  apply Hk.
Qed.

Lemma static_ret {A} (a : A) : static (mret a).
Proof. by intros w. Qed.

Lemma static_raise {A} (e : exn) : static (@raise A e).
Proof. by intros w. Qed.

Lemma static_lift {A} (r : result A) : static (lift r).
Proof. by intros w. Qed.

Lemma static_get_fs : static get_fs.
Proof. by intros w. Qed.

Lemma static_multi_replace_path (input : string) (patterns : list (regex * string))
    (source_name : option string) :
  static (multi_replace input patterns true source_name).
Proof.
  unfold multi_replace. apply static_bind; [apply static_lift|]. intros out.
  apply static_bind; [apply static_ret|]. intros _. apply static_ret.
Qed.

Lemma static_walk_paths (exclude : string → bool) (paths : list string) :
  static (walk_paths exclude paths).
Proof.
  induction paths as [|path paths IH]; [apply static_ret|].
  cbn [walk_paths]. apply static_bind; [apply static_get_fs|]. intros f.
  apply static_bind; [destruct (os_path_exists f path);
                      [apply static_ret|apply static_raise]|]. intros _.
  apply static_bind; [apply static_ret|]. intros here.
  apply static_bind; [exact IH|]. intros rest. apply static_ret.
Qed.

Lemma static_walk_files (paths : list string) (exclude_pat : string) :
  static (walk_files paths exclude_pat).
Proof.
  unfold walk_files. apply static_bind; [apply static_lift|]. intros exclude.
  apply static_walk_paths.
Qed.

Lemma static_rewrite_file_renames_only (path : string) (patterns : list (regex * string))
    (do_renames by_line dry_run : bool) :
  static (rewrite_file path patterns do_renames false by_line dry_run).
Proof.
  unfold rewrite_file. apply static_bind.
  { destruct do_renames; [|apply static_ret].
    apply static_bind; [apply static_multi_replace_path|]. intros r. apply static_ret. }
  intros dest_path. apply static_bind; [|intros; apply static_ret].
  unfold transform_file. apply static_ret.
Qed.

(** X11: without do_contents, which is what the option for renames only
    sets, [rewrite_files] changes nothing: no file is written, moved or
    renamed and the tally stays as it was, whatever the rules and the
    paths. *)
Theorem rewrite_files_renames_only_changes_nothing
    (root_paths : list string) (patterns : list (regex * string)) (do_renames : bool)
    (exclude_pat : string) (by_line dry_run : bool) (w : World) :
  snd (rewrite_files root_paths patterns do_renames false exclude_pat by_line dry_run w) = w.
Proof.
  revert w. change (static (rewrite_files root_paths patterns do_renames false
                              exclude_pat by_line dry_run)).
  unfold rewrite_files. apply static_bind; [apply static_walk_files|]. intros paths.
  induction paths as [|path paths IH]; [apply static_ret|].
  cbn [rewrite_each]. apply static_bind; [|intros _; exact IH].
  apply static_rewrite_file_renames_only.
Qed.

End Static.

(** ** Parent directories *)

Section ParentDirs.

Implicit Types (f : gmap string entry) (w : World).

(** X12: when [make_parent_dirs] returns, it returns its argument and the
    parent directory of the path is a directory; every entry that existed is
    as it was, no move was made and the tally is untouched. *)
Theorem make_parent_dirs_ensures (path : string) (w w' : World) (p : string) :
  make_parent_dirs path w = (Ok p, w') →
  p = path ∧
  (Path.dirname path = "" ∨ os_path_isdir (fs w') (Path.dirname path) = true) ∧
  (∀ q x, fs w !! q = Some x → fs w' !! q = Some x) ∧
  moved w' = moved w ∧ tally w' = tally w.
Proof.
  unfold make_parent_dirs, mbind, M_bind, get_fs, mret, M_ret.
  destruct (String.eqb_spec (Path.dirname path) "") as [Hd|Hd]; cbn [negb andb].
  { intros [= <- <-]. repeat split; auto. }
  destruct (os_path_isdir (fs w) (Path.dirname path)) eqn:Hdir; cbn [negb].
  { intros [= <- <-]. repeat split; auto. }
  unfold os_makedirs, mbind, M_bind, get_fs, put_fs, lift, raise.
  destruct (mkdir_ancestors (fs w) (Path.ancestors (Path.dirname path)))
    as [[[]|e] f'] eqn:Hmk; cbn [fs tally moved]; [|done].
  pose proof (mkdir_ancestors_keeps _ _ _ _ Hmk) as Hkeep.
  destruct (f' !! Path.dirname path) eqn:Hnew; [done|].
  intros [= <- <-]. cbn [fs tally moved].
  repeat split; auto.
  - right. unfold os_path_isdir. by rewrite lookup_insert_eq.
  - intros q x Hq. apply Hkeep in Hq.
    rewrite lookup_insert_ne; [done|]. congruence.
Qed.

End ParentDirs.

(** The theorem at a path two directories deep, one of them missing. *)
Lemma make_parent_dirs_ensures_witness :
  let run := make_parent_dirs "top/sub/file.txt" bare_tree in
  run = (Ok "top/sub/file.txt", snd run) ∧
  "top/sub/file.txt" = "top/sub/file.txt" ∧
  (Path.dirname "top/sub/file.txt" = ""
   ∨ os_path_isdir (fs (snd run)) (Path.dirname "top/sub/file.txt") = true) ∧
  (∀ q x, fs bare_tree !! q = Some x → fs (snd run) !! q = Some x) ∧
  moved (snd run) = moved bare_tree ∧ tally (snd run) = tally bare_tree.
Proof.
  intros run.
  assert (Hrun : run = (Ok "top/sub/file.txt", snd run)) by reflexivity.
  split; [exact Hrun|].
  exact (make_parent_dirs_ensures "top/sub/file.txt" bare_tree (snd run)
           "top/sub/file.txt" Hrun).
Defined.

Example make_parent_dirs_creates :
  fs (snd (make_parent_dirs "top/sub/file.txt" bare_tree)) !! "top/sub" = Some Dir ∧
  fst (make_parent_dirs "notes.txt/file.txt" bare_tree) = Raise (OSError "notes.txt").
Proof. vm_compute. split; reflexivity. Qed.

(** ** The files of a run *)

Section Walk.
Context `{Platform}.

Implicit Types (w : World) (paths : list string).

Lemma isfile_exists (f : gmap string entry) (p : string) :
  os_path_isfile f p = true → os_path_exists f p = true.
Proof.
  unfold os_path_isfile, os_path_exists.
  by destruct (f !! p) as [[c m|]|].
Qed.

Lemma walk_paths_file_roots (exclude : string → bool) paths w :
  Forall (fun p => os_path_isfile (fs w) p = true) paths →
  walk_paths exclude paths w = (Ok paths, w).
Proof.
  induction 1 as [|p paths Hp _ IH]; [done|].
  cbn [walk_paths]. unfold mbind, M_bind, get_fs, mret, M_ret.
  rewrite (isfile_exists _ _ Hp), Hp.
  unfold mbind, M_bind in IH. by rewrite IH.
Qed.

Lemma walk_paths_missing (exclude : string → bool) (pre post : list string) (p : string) w :
  Forall (fun q => os_path_exists (fs w) q = true) pre →
  os_path_exists (fs w) p = false →
  walk_paths exclude (pre ++ p :: post) w = (Raise (SystemExit (PathNotFound p)), w).
Proof.
  intros Hpre Hp. induction Hpre as [|q pre Hq _ IH].
  - cbn [app walk_paths]. unfold mbind, M_bind, get_fs, fail, raise. by rewrite Hp.
  - cbn [app walk_paths]. unfold mbind, M_bind, get_fs, mret, M_ret.
    rewrite Hq. unfold mbind, M_bind in IH. by rewrite IH.
Qed.

Lemma walk_paths_listed (exclude : string → bool) paths w out w' :
  walk_paths exclude paths w = (Ok out, w') →
  Forall (listed (fs w) paths exclude) out.
Proof.
  revert out. induction paths as [|p paths IH]; intros out.
  { intros [= <- <-]. constructor. }
  cbn [walk_paths]. unfold mbind, M_bind, get_fs, mret, M_ret, fail, raise.
  destruct (os_path_exists (fs w) p); [|done].
  pose proof (static_walk_paths exclude paths w) as Hw.
  destruct (walk_paths exclude paths w) as [[rest|e] w1] eqn:Hrest; [|done].
  cbn [snd] in Hw. subst w1. intros [= <- <-].
  apply Forall_app. split.
  - destruct (os_path_isfile (fs w) p) eqn:Hfile.
    + rewrite Forall_singleton. left. split; [left|done].
    + apply Forall_forall. intros q Hq.
      apply list_elem_of_In, in_flat_map in Hq as ([[root dirs] files] & _ & Hq).
      apply in_map_iff in Hq as (name & <- & Hname).
      apply list_elem_of_In, list_elem_of_filter in Hname as [Hkeep _].
      apply andb_true_iff in Hkeep as [Hkeep Htemp].
      apply andb_true_iff in Hkeep as [Hex Hbackup].
      right. exists root, name.
      by rewrite !negb_true_iff in *.
  - eapply Forall_impl; [by apply IH|].
    intros q [[Hq Hfile]|Hq]; [left|by right].
    split; [by right|done].
Qed.

(** X13: roots that are files are listed as they are given, in order and
    with repetitions, whatever their names: the exclusion pattern and the
    suffix tests apply to the names found in walked directories only. *)
Theorem walk_files_file_roots paths (exclude_pat : string) (exclude : string → bool) w :
  exclude_compile exclude_pat = Ok exclude →
  Forall (fun p => os_path_isfile (fs w) p = true) paths →
  walk_files paths exclude_pat w = (Ok paths, w).
Proof.
  intros Hex Hfiles. unfold walk_files, mbind, M_bind, lift. rewrite Hex.
  by apply walk_paths_file_roots.
Qed.

(** X14: the first root that does not exist ends [walk_files] with the
    exit [path not found], and the world is as it was. *)
Theorem walk_files_missing_path (pre post : list string) (p : string)
    (exclude_pat : string) (exclude : string → bool) w :
  exclude_compile exclude_pat = Ok exclude →
  Forall (fun q => os_path_exists (fs w) q = true) pre →
  os_path_exists (fs w) p = false →
  walk_files (pre ++ p :: post) exclude_pat w
    = (Raise (SystemExit (PathNotFound p)), w).
Proof.
  intros Hex Hpre Hp. unfold walk_files, mbind, M_bind, lift. rewrite Hex.
  by apply walk_paths_missing.
Qed.

(** X15: [walk_files] changes nothing, and every path it lists is a root
    that is a file, or a name found in a walked directory that the exclusion
    pattern does not match and that is neither a backup nor a temporary
    file. *)
Theorem walk_files_lists paths (exclude_pat : string) w :
  snd (walk_files paths exclude_pat w) = w ∧
  ∀ out, fst (walk_files paths exclude_pat w) = Ok out →
    ∃ exclude, exclude_compile exclude_pat = Ok exclude ∧
               Forall (listed (fs w) paths exclude) out.
Proof.
  unfold walk_files, mbind, M_bind, lift.
  destruct (exclude_compile exclude_pat) as [exclude|e]; [|done].
  split; [apply static_walk_paths|].
  intros out Hout. exists exclude. split; [done|].
  destruct (walk_paths exclude paths w) as [r w'] eqn:Hrun.
  cbn [fst] in Hout. subst r. by eapply walk_paths_listed.
Qed.

End Walk.

(** The theorem at roots that a walk would skip: a hidden file and a backup,
    one of them given twice. *)
Lemma walk_files_file_roots_witness :
  (∃ exclude, @exclude_compile sound DEFAULT_EXCLUDE_PAT = Ok exclude) ∧
  Forall (fun p => os_path_isfile (fs dot_files) p = true)
         [".hidden"; "old.orig"; ".hidden"] ∧
  @walk_files sound [".hidden"; "old.orig"; ".hidden"] DEFAULT_EXCLUDE_PAT dot_files
    = (Ok [".hidden"; "old.orig"; ".hidden"], dot_files).
Proof.
  assert (Hex : ∃ exclude, @exclude_compile sound DEFAULT_EXCLUDE_PAT = Ok exclude)
    by (eexists; reflexivity).
  assert (Hfiles : Forall (fun p => os_path_isfile (fs dot_files) p = true)
                          [".hidden"; "old.orig"; ".hidden"])
    by (repeat constructor).
  split; [exact Hex|]. split; [exact Hfiles|].
  destruct Hex as [exclude Hex].
  exact (@walk_files_file_roots sound [".hidden"; "old.orig"; ".hidden"]
           DEFAULT_EXCLUDE_PAT exclude dot_files Hex Hfiles).
Defined.

(** The theorem at a run whose second root is missing. *)
Lemma walk_files_missing_path_witness :
  (∃ exclude, @exclude_compile sound DEFAULT_EXCLUDE_PAT = Ok exclude) ∧
  Forall (fun q => os_path_exists (fs dot_files) q = true) [".hidden"] ∧
  os_path_exists (fs dot_files) "gone" = false ∧
  @walk_files sound ([".hidden"] ++ "gone" :: ["old.orig"]) DEFAULT_EXCLUDE_PAT dot_files
    = (Raise (SystemExit (PathNotFound "gone")), dot_files).
Proof.
  assert (Hex : ∃ exclude, @exclude_compile sound DEFAULT_EXCLUDE_PAT = Ok exclude)
    by (eexists; reflexivity).
  assert (Hpre : Forall (fun q => os_path_exists (fs dot_files) q = true) [".hidden"])
    by (repeat constructor).
  assert (Hgone : os_path_exists (fs dot_files) "gone" = false) by reflexivity.
  split; [exact Hex|]. split; [exact Hpre|]. split; [exact Hgone|].
  destruct Hex as [exclude Hex].
  exact (@walk_files_missing_path sound [".hidden"] ["old.orig"] "gone"
           DEFAULT_EXCLUDE_PAT exclude dot_files Hex Hpre Hgone).
Defined.

(** A walk of a directory: hidden names, backups and temporary files are
    left out, the hidden directory is not entered, and the root given as a
    file is listed although it is a backup. *)
Example walk_files_source_tree :
  fst (@walk_files sound ["src"; "top.orig"] DEFAULT_EXCLUDE_PAT source_tree)
  = Ok ["src/a.txt"; "src/lib/c.txt"; "top.orig"].
Proof. vm_compute. reflexivity. Qed.

(** ** Transforms that are discarded *)

Section Discard.
Context `{Platform}.

Implicit Types (w : World) (f : gmap string entry).

Lemma untouched_refl (temp_path : string) w : untouched temp_path w w.
Proof. split; auto. Qed.

Lemma untouched_trans (temp_path : string) w1 w2 w3 :
  untouched temp_path w1 w2 → untouched temp_path w2 w3 → untouched temp_path w1 w3.
Proof.
  intros [Hm1 Hf1] [Hm2 Hf2]. split; [congruence|].
  intros p Hp. destruct (Hf1 p Hp) as [H1|[H1 H1']], (Hf2 p Hp) as [H2|[H2 H2']].
  - left. congruence.
  - right. split; congruence.
  - right. split; congruence.
  - congruence.
Qed.

Lemma untouched_same (temp_path : string) w w' :
  fs w' = fs w → moved w' = moved w → untouched temp_path w w'.
Proof. intros Hf Hm. split; [done|]. intros p _. left. by rewrite Hf. Qed.

Lemma mkdir_ancestors_adds_dirs f f' (ps : list string) (r : result unit) :
  mkdir_ancestors f ps = (r, f') →
  ∀ p, f' !! p = f !! p ∨ (f !! p = None ∧ f' !! p = Some Dir).
Proof.
  revert f. induction ps as [|q ps IH]; intros f; cbn [mkdir_ancestors].
  - intros [= <- <-]. auto.
  - destruct (f !! q) as [[c m|]|] eqn:Hq; [intros [= <- <-]; auto|apply IH|].
    intros Hrun p. destruct (IH _ Hrun p) as [Hp|[Hp Hp']].
    + destruct (decide (p = q)) as [->|Hne].
      * right. rewrite Hp, lookup_insert_eq. done.
      * left. by rewrite Hp, lookup_insert_ne.
    + destruct (decide (p = q)) as [->|Hne].
      * by rewrite lookup_insert_eq in Hp.
      * right. by rewrite lookup_insert_ne in Hp.
Qed.

Lemma make_parent_dirs_untouched (temp_path path : string) w r w' :
  make_parent_dirs path w = (r, w') →
  moved w' = moved w ∧
  ∀ p, fs w' !! p = fs w !! p ∨ (fs w !! p = None ∧ fs w' !! p = Some Dir).
Proof.
  unfold make_parent_dirs, mbind, M_bind, get_fs, mret, M_ret.
  destruct (_ && _); [|intros [= <- <-]; auto].
  unfold os_makedirs, mbind, M_bind, get_fs, put_fs, lift, raise.
  destruct (mkdir_ancestors (fs w) (Path.ancestors (Path.dirname path)))
    as [made f'] eqn:Hmk.
  pose proof (mkdir_ancestors_adds_dirs _ _ _ _ Hmk) as Hadd.
  cbn [fs tally moved].
  destruct made as [[]|e]; [|intros [= <- <-]; auto].
  destruct (f' !! Path.dirname path) as [x|] eqn:Hdir; intros [= <- <-];
    cbn [fs moved]; [auto|].
  split; [done|]. intros p.
  destruct (decide (p = Path.dirname path)) as [->|Hne].
  - rewrite lookup_insert_eq. right. split; [|done].
    destruct (Hadd (Path.dirname path)) as [Hp|[Hp _]]; congruence.
  - rewrite lookup_insert_ne by done. apply Hadd.
Qed.

Lemma os_stat_perms_static (path : string) w r w' :
  os_stat_perms path w = (r, w') → w' = w.
Proof.
  unfold os_stat_perms, mbind, M_bind, get_fs, mret, M_ret, raise.
  by destruct (fs w !! path); intros [= <- <-].
Qed.

Lemma open_rb_static (path : string) w r w' :
  open_rb path w = (r, w') → w' = w.
Proof.
  unfold open_rb, mbind, M_bind, get_fs, mret, M_ret, raise.
  by destruct (fs w !! path) as [[c m|]|]; intros [= <- <-].
Qed.

Lemma os_open_untouched (temp_path : string) (perms : N) w h w' :
  os_open_wronly_creat temp_path perms w = (Ok h, w') →
  h_path h = temp_path ∧ untouched temp_path w w' ∧
  ∃ c m, fs w' !! temp_path = Some (File c m).
Proof.
  unfold os_open_wronly_creat, mbind, M_bind, get_fs, put_fs, mret, M_ret, raise.
  destruct (fs w !! temp_path) as [[c m|]|] eqn:Htemp; intros [= <- <-].
  - split; [done|]. split; [apply untouched_refl|]. eauto.
  - split; [done|]. split.
    + split; [done|]. intros p Hp. left. cbn [fs]. by rewrite lookup_insert_ne.
    + cbn [fs]. rewrite lookup_insert_eq. eauto.
Qed.

Lemma file_write_untouched (output : handle) (data : string) w h w' :
  file_write output data w = (Ok h, w') →
  h_path h = h_path output ∧ untouched (h_path output) w w' ∧
  ((∃ c m, fs w !! h_path output = Some (File c m)) →
   ∃ c m, fs w' !! h_path output = Some (File c m)).
Proof.
  unfold file_write, mbind, M_bind, get_fs, put_fs, mret, M_ret, raise.
  destruct (fs w !! h_path output) as [[c m|]|] eqn:Hout; cbn [fs]; [|done..].
  destruct (io_fault (h_path output) (h_calls output)); intros [= <- <-].
  split; [done|]. split.
  - split; [done|]. intros p Hp. left. cbn [fs]. by rewrite lookup_insert_ne.
  - intros _. cbn [fs]. rewrite lookup_insert_eq. eauto.
Qed.

Lemma pure_transform_untouched (temp_path : string) t (s : string) w r w' :
  pure_transform t → t s w = (r, w') → untouched temp_path w w' ∧ fs w' = fs w.
Proof.
  intros Ht Hrun. destruct (Ht s w) as [Hf Hm]. rewrite Hrun in Hf, Hm.
  split; [by apply untouched_same|done].
Qed.

Lemma transform_lines_untouched t (lines : list string) (output : handle)
    (counts c : _MatchCounts) w w' :
  pure_transform t →
  (∃ c m, fs w !! h_path output = Some (File c m)) →
  transform_lines (Some t) lines output counts w = (Ok c, w') →
  untouched (h_path output) w w' ∧ ∃ c m, fs w' !! h_path output = Some (File c m).
Proof.
  intros Ht. revert output counts w.
  induction lines as [|line lines IH]; intros output counts w Hfile; cbn [transform_lines].
  - intros [= <- <-]. split; [apply untouched_refl|done].
  - intros Hrun.
    apply bind_inv in Hrun as [(e & _ & [=])|([new_line new_counts] & w1 & Hrun & Hrest)].
    apply (pure_transform_untouched (h_path output)) in Hrun as [Hu1 Hfs1]; [|done].
    apply bind_inv in Hrest as [(e & _ & [=])|(h & w2 & Hrun' & Hrest)].
    apply file_write_untouched in Hrun' as (Hh & Hu2 & Hfile2).
    rewrite Hfs1 in Hfile2. specialize (Hfile2 Hfile).
    rewrite <- Hh in Hfile2 |- *.
    apply IH in Hrest as [Hu3 Hfile3]; [|done].
    rewrite Hh in *. split; [|done].
    eauto using untouched_trans.
Qed.

Lemma transform_stream_untouched t (input : string) (output : handle) (by_line : bool)
    (c : _MatchCounts) w w' :
  pure_transform t →
  (∃ c m, fs w !! h_path output = Some (File c m)) →
  transform_stream (Some t) input output by_line w = (Ok c, w') →
  untouched (h_path output) w w' ∧
  (∃ c m, fs w' !! h_path output = Some (File c m)) ∧
  (by_line = false → c = {| found := 0; valid := 0 |}).
Proof.
  intros Ht Hfile. unfold transform_stream. destruct by_line.
  { intros Hrun. apply transform_lines_untouched in Hrun as [Hu Hf]; done. }
  intros Hrun.
  apply bind_inv in Hrun as [(e & _ & [=])|([new_contents n] & w1 & Hrun & Hrest)].
  apply bind_inv in Hrun as [(e' & _ & [=])|([c' n'] & w2 & Hrun & Hret)].
  unfold mret, M_ret in Hret. simplify_eq.
  apply (pure_transform_untouched (h_path output)) in Hrun as [Hu1 Hfs1]; [|done].
  apply bind_inv in Hrest as [(e & _ & [=])|(h & w2 & Hrun' & Hrest)].
  unfold mret, M_ret in Hrest. simplify_eq.
  apply file_write_untouched in Hrun' as (Hh & Hu2 & Hfile2).
  rewrite Hfs1 in Hfile2. specialize (Hfile2 Hfile).
  split; [eauto using untouched_trans|]. done.
Qed.

Lemma transform_file_discards_run t (source_path dest_path : string)
    (by_line dry_run : bool) (c : _MatchCounts) w w' :
  pure_transform t →
  negb dry_run && (0 <? found c) = false ∨ by_line = false →
  transform_file (Some t) source_path dest_path BACKUP_SUFFIX TEMP_SUFFIX by_line dry_run w
    = (Ok c, w') →
  (by_line = false → c = {| found := 0; valid := 0 |}) ∧
  moved w' = moved w ∧
  fs w' !! (dest_path +:+ TEMP_SUFFIX) = None ∧
  ∀ p, p ≠ dest_path +:+ TEMP_SUFFIX →
       fs w' !! p = fs w !! p ∨ (fs w !! p = None ∧ fs w' !! p = Some Dir).
Proof.
  intros Ht Hwhy Hrun. unfold transform_file in Hrun.
  set (temp_path := dest_path +:+ TEMP_SUFFIX) in *.
  apply bind_inv in Hrun as [(e & _ & [=])|(? & w1 & Hrun & Hrest)].
  apply (make_parent_dirs_untouched temp_path) in Hrun as [Hm1 Hf1].
  apply bind_inv in Hrest as [(e & _ & [=])|(perms & w2 & Hrun & Hrest)].
  apply os_stat_perms_static in Hrun as ->.
  apply bind_inv in Hrest as [(e & _ & [=])|(input & w3 & Hrun & Hrest)].
  apply open_rb_static in Hrun as ->.
  apply bind_inv in Hrest as [(e & _ & [=])|(output & w4 & Hrun & Hrest)].
  apply os_open_untouched in Hrun as (Hout & Hu4 & Hfile4).
  rewrite <- Hout in Hfile4.
  apply bind_inv in Hrest as [(e & _ & [=])|(counts & w5 & Hrun & Hrest)].
  apply transform_stream_untouched in Hrun as (Hu5 & Hfile5 & Hzero); [|done..].
  rewrite Hout in *.
  apply bind_inv in Hrest as [(e & _ & [=])|([] & w6 & Hrun & Hrest)].
  apply bind_inv in Hrest as [(e & _ & [=])|([] & w7 & Htally & Hrest)].
  injection Hrest as -> ->. injection Htally as <-.
  assert (Hbranch : negb dry_run && (0 <? found c) = false).
  { destruct Hwhy as [?|Hby]; [done|]. rewrite (Hzero Hby). apply andb_false_r. }
  rewrite Hbranch in Hrun.
  assert (Hu : untouched temp_path w w5).
  { apply (untouched_trans _ w w1 w5);
      [|apply (untouched_trans _ w1 w4 w5); assumption].
    split; [exact Hm1|]. intros p _. apply Hf1. }
  destruct Hu as [Hm Hu]. destruct Hfile5 as (c5 & m5 & Hfile5).
  revert Hrun. unfold os_remove, mbind, M_bind, get_fs, put_fs.
  rewrite Hfile5. intros [= <-]. cbn [fs moved].
  split; [done|]. split; [done|]. split; [by rewrite lookup_delete_eq|].
  intros p Hp. rewrite lookup_delete_ne by done. by apply Hu.
Qed.


(** X17: when the contents are transformed at once rather than line by
    line, the counts of the transform are dropped: [transform_file] returns
    the counts 0 and 0 and so never commits, whatever was matched.  No move
    is made, the temporary file is removed and every other path holds what it
    held. *)
Theorem transform_file_at_once_never_commits t (source_path dest_path : string)
    (dry_run : bool) (c : _MatchCounts) w w' :
  pure_transform t →
  transform_file (Some t) source_path dest_path BACKUP_SUFFIX TEMP_SUFFIX false dry_run w
    = (Ok c, w') →
  c = {| found := 0; valid := 0 |} ∧
  moved w' = moved w ∧
  fs w' !! (dest_path +:+ TEMP_SUFFIX) = None ∧
  ∀ p, p ≠ dest_path +:+ TEMP_SUFFIX →
       fs w' !! p = fs w !! p ∨ (fs w !! p = None ∧ fs w' !! p = Some Dir).
Proof.
  intros Ht Hrun.
  eapply transform_file_discards_run in Hrun as (Hzero & Hrest); [|done|by right].
  split; [by apply Hzero|exact Hrest].
Qed.

End Discard.


(** The theorem at the same file, transformed at once and not as a dry
    run. *)
Lemma transform_file_at_once_witness :
  let run := @transform_file sound (Some foo_transform) "a.txt" "a.txt"
               BACKUP_SUFFIX TEMP_SUFFIX false false run_files in
  pure_transform foo_transform ∧
  run = (fst run, snd run) ∧
  fst run = Ok {| found := 0; valid := 0 |} ∧
  moved (snd run) = moved run_files ∧
  fs (snd run) !! ("a.txt" +:+ TEMP_SUFFIX) = None ∧
  ∀ p, p ≠ "a.txt" +:+ TEMP_SUFFIX →
       fs (snd run) !! p = fs run_files !! p
       ∨ (fs run_files !! p = None ∧ fs (snd run) !! p = Some Dir).
Proof.
  intros run.
  assert (Hpure : pure_transform foo_transform) by apply multi_replace_pure.
  assert (Hrun : run = (Ok {| found := 0; valid := 0 |}, snd run)) by reflexivity.
  split; [exact Hpure|]. split; [reflexivity|].
  destruct (@transform_file_at_once_never_commits sound foo_transform "a.txt" "a.txt"
              false {| found := 0; valid := 0 |} run_files (snd run) Hpure Hrun)
    as (_ & Hrest).
  split; [reflexivity|exact Hrest].
Defined.

(** At once, the file with two matches is left as it is. *)
Example rewrite_file_at_once_run :
  let run := @rewrite_file sound "a.txt" foo_rules false true false false run_files in
  fst run = Ok tt ∧
  fs (snd run) !! "a.txt" = Some (File ("foo" +:+ LF +:+ "bar foo" +:+ LF) 420%N) ∧
  fs (snd run) !! "a.txt.orig" = Some (File "OLD" 420%N) ∧
  t_matches (tally (snd run)) = 2 ∧
  t_files_written (tally (snd run)) = 0.
Proof. vm_compute. repeat split; reflexivity. Qed.

(** ** A rewrite that is committed *)

Section Committed.
Context `{Platform}.

Implicit Types (w : World) (f : gmap string entry).

Lemma bind_ok {A B} (c : M A) (k : A → M B) (a : A) w w1 :
  c w = (Ok a, w1) → (c ≫= k) w = k a w1.
Proof. intros Hc. unfold mbind, M_bind. by rewrite Hc. Qed.

Lemma substring_none (s : string) (i : nat) : String.substring i 0 s = "".
Proof. revert i. induction s as [|c s IH]; intros [|i]; cbn; auto. Qed.

Lemma concat_cons (x : string) (xs : list string) :
  String.concat "" (x :: xs) = x +:+ String.concat "" xs.
Proof. destruct xs; cbn [String.concat append]; [by rewrite append_nil_r|done]. Qed.

Lemma overwrite_at_end (old data : string) :
  overwrite old (String.length old) data = old +:+ data.
Proof.
  unfold overwrite, Str.slice_from. rewrite substring_whole.
  replace (String.length old - _) with 0 by lia.
  by rewrite substring_none, append_nil_r.
Qed.

Lemma rsplit_slash_plain (s : string) :
  Str.contains_char "/" s = false → Path.rsplit_slash s = ("", s).
Proof.
  induction s as [|c s IH]; [done|].
  cbn [Str.contains_char Path.rsplit_slash]. intros Hc.
  apply orb_false_iff in Hc as [Hc Hs]. rewrite (IH Hs), Hs. by rewrite Ascii.eqb_sym, Hc.
Qed.

Lemma rsplit_slash_append (p s : string) :
  Str.contains_char "/" s = false →
  Path.rsplit_slash (p +:+ s)
  = (fst (Path.rsplit_slash p), snd (Path.rsplit_slash p) +:+ s).
Proof.
  intros Hs. induction p as [|c p IH].
  - cbn [append]. by rewrite rsplit_slash_plain.
  - cbn [append Path.rsplit_slash]. rewrite IH, contains_char_app, Hs, orb_false_r.
    destruct (Path.rsplit_slash p) as [head tail]. cbn [fst snd].
    destruct (Str.contains_char "/" p); [done|].
    by destruct (Ascii.eqb c "/").
Qed.

(** The temporary file is in the directory of the destination. *)
Lemma dirname_temp (path : string) :
  Path.dirname (path +:+ TEMP_SUFFIX) = Path.dirname path.
Proof. unfold Path.dirname. by rewrite rsplit_slash_append. Qed.

Lemma append_not_self (path s : string) : s ≠ "" → path +:+ s ≠ path.
Proof.
  intros Hs Heq. apply (f_equal String.length) in Heq.
  rewrite append_length in Heq. destruct s; [done|]. cbn in Heq. lia.
Qed.

Lemma make_parent_dirs_present (path : string) w :
  Path.dirname path = "" ∨ os_path_isdir (fs w) (Path.dirname path) = true →
  make_parent_dirs path w = (Ok path, w).
Proof.
  intros Hdir. unfold make_parent_dirs, mbind, M_bind, get_fs, mret, M_ret.
  destruct Hdir as [-> | ->]; [done|]. by rewrite andb_false_r.
Qed.

Lemma multi_replace_contents (line : string) (patterns : list (regex * string))
    (source_name : option string) (out : string) w :
  replaced patterns line = Ok out →
  multi_replace line patterns false source_name w
  = (Ok (out, {| found := length (collect_matches line patterns);
                 valid := length (_sort_drop_overlaps (collect_matches line patterns)) |}),
     {| fs := fs w;
        tally :=
          {| t_files := t_files (tally w);
             t_chars := t_chars (tally w) + String.length line;
             t_matches := t_matches (tally w) + length (collect_matches line patterns);
             t_valid_matches :=
               t_valid_matches (tally w)
               + length (_sort_drop_overlaps (collect_matches line patterns));
             t_files_written := t_files_written (tally w);
             t_renames := t_renames (tally w) |};
        moved := moved w |}).
Proof.
  unfold replaced. intros Hout.
  unfold multi_replace, mbind, M_bind, lift. by rewrite Hout.
Qed.

Lemma file_write_sound (output : handle) (data old : string) (mode : N) w :
  io_fault (h_path output) (h_calls output) = None →
  fs w !! h_path output = Some (File old mode) →
  h_pos output = String.length old →
  file_write output data w
  = (Ok {| h_path := h_path output;
           h_pos := String.length (old +:+ data);
           h_calls := S (h_calls output) |},
     {| fs := <[h_path output := File (old +:+ data) mode]> (fs w);
        tally := tally w; moved := moved w |}).
Proof.
  intros Hfault Hfile Hpos.
  unfold file_write, mbind, M_bind, get_fs, put_fs, mret, M_ret.
  rewrite Hfile, Hfault, Hpos, overwrite_at_end, append_length. reflexivity.
Qed.

(** The loop over the lines, when no write fails and every line can be
    replaced: the outputs are appended to the file in order. *)
Lemma transform_lines_sound (patterns : list (regex * string))
    (source_name : option string) (lines outs : list string) :
  rmap (replaced patterns) lines = Ok outs →
  ∀ (output : handle) (counts : _MatchCounts) (old : string) (mode : N) w,
  (∀ k, io_fault (h_path output) k = None) →
  fs w !! h_path output = Some (File old mode) →
  h_pos output = String.length old →
  ∃ w',
    transform_lines (Some (fun contents => multi_replace contents patterns false source_name))
      lines output counts w
    = (Ok {| found := found counts + found_in patterns lines;
             valid := valid counts + valid_in patterns lines |}, w') ∧
    fs w' = <[h_path output := File (old +:+ String.concat "" outs) mode]> (fs w) ∧
    moved w' = moved w ∧
    t_files (tally w') = t_files (tally w) ∧
    t_files_written (tally w') = t_files_written (tally w) ∧
    t_renames (tally w') = t_renames (tally w) ∧
    t_matches (tally w') = t_matches (tally w) + found_in patterns lines ∧
    t_valid_matches (tally w') = t_valid_matches (tally w) + valid_in patterns lines.
Proof.
  revert outs. induction lines as [|line lines IH]; intros outs Houts output counts old mode w
    Hfault Hfile Hpos.
  - injection Houts as <-. exists w. cbn [transform_lines].
    unfold found_in, valid_in. cbn.
    rewrite !Nat.add_0_r, append_nil_r, insert_id by done.
    destruct counts. done.
  - cbn [rmap] in Houts.
    apply rbind_ok in Houts as (out & Hout & Houts).
    apply rbind_ok in Houts as (outs' & Houts & [= <-]).
    cbn [transform_lines].
    erewrite bind_ok; [|by apply multi_replace_contents].
    cbv beta iota.
    erewrite bind_ok; [|by apply (file_write_sound output out old mode)].
    cbv beta iota.
    match goal with
    | |- ∃ w', transform_lines _ _ ?h ?c ?w0 = _ ∧ _ =>
        destruct (IH outs' Houts h c (old +:+ out) mode w0)
          as (w' & Hrun & Hfs & Hmoved & Hf & Hw & Hr & Hm & Hv)
    end.
    { exact Hfault. }
    { cbn [h_path fs]. by rewrite lookup_insert_eq. }
    { reflexivity. }
    cbn [h_path fs tally moved t_files t_files_written t_renames t_matches
         t_valid_matches counts_add found valid] in *.
    exists w'. rewrite Hrun, Hfs, insert_insert_eq, concat_cons, append_assoc.
    unfold found_in, valid_in in *. cbn [map sum_list sum_list_with] in *. unfold id in *.
    repeat split; try done; try lia.
    f_equal. f_equal. f_equal; lia.
Qed.

Lemma os_stat_perms_entry (path : string) (e : entry) w :
  fs w !! path = Some e →
  os_stat_perms path w = (Ok (N.land (stat_mode e) 511), w).
Proof.
  intros He. unfold os_stat_perms, mbind, M_bind, get_fs. by rewrite He.
Qed.

Lemma open_rb_file (path content : string) (mode : N) w :
  fs w !! path = Some (File content mode) → open_rb path w = (Ok content, w).
Proof.
  intros He. unfold open_rb, mbind, M_bind, get_fs. by rewrite He.
Qed.

Lemma os_open_fresh (path : string) (perms : N) w :
  fs w !! path = None →
  os_open_wronly_creat path perms w
  = (Ok {| h_path := path; h_pos := 0; h_calls := 0 |},
     {| fs := <[path := File "" (N.ldiff perms umask)]> (fs w);
        tally := tally w; moved := moved w |}).
Proof.
  intros He. unfold os_open_wronly_creat, mbind, M_bind, get_fs. by rewrite He.
Qed.

Lemma shutil_move_over (src dst : string) (e : entry) w :
  fs w !! src = Some e → os_path_isdir (fs w) dst = false →
  shutil_move src dst w
  = (Ok tt, {| fs := <[dst := e]> (delete src (fs w));
               tally := tally w;
               moved := moved w ++ [(src, dst)] |}).
Proof.
  intros Hsrc Hdst. unfold shutil_move, mbind, M_bind, get_fs.
  by rewrite Hsrc, Hdst.
Qed.

Lemma move_file_free (src dst : string) w :
  fs w !! dst = None → move_file src dst false w = shutil_move src dst w.
Proof.
  intros Hdst. unfold move_file, mbind, M_bind, get_fs. cbn [negb].
  assert (Hfree : os_path_exists (fs w) dst = false).
  { unfold os_path_exists. rewrite Hdst. apply bool_decide_eq_false_2. by intros [? ?]. }
  destruct (size (fs w) + 2); cbn [move_file_loop]; by rewrite Hfree.
Qed.

(** The transform [rewrite_file] passes for the contents of [path]. *)
Lemma transform_file_commits (path : string) (patterns : list (regex * string))
    (content : string) (mode : N) (outs : list string) w :
  (∀ k, io_fault (path +:+ TEMP_SUFFIX) k = None) →
  fs w !! path = Some (File content mode) →
  fs w !! (path +:+ TEMP_SUFFIX) = None →
  os_path_isdir (fs w) (path +:+ BACKUP_SUFFIX) = false →
  Path.dirname path = "" ∨ os_path_isdir (fs w) (Path.dirname path) = true →
  rmap (replaced patterns) (file_lines content) = Ok outs →
  0 < found_in patterns (file_lines content) →
  ∃ w',
    transform_file (Some (fun contents => multi_replace contents patterns false (Some path)))
      path path BACKUP_SUFFIX TEMP_SUFFIX true false w
    = (Ok {| found := found_in patterns (file_lines content);
             valid := valid_in patterns (file_lines content) |}, w') ∧
    fs w' !! path = Some (File (String.concat "" outs) (N.ldiff (N.land mode 511) umask)) ∧
    fs w' !! (path +:+ BACKUP_SUFFIX) = Some (File content mode) ∧
    (∀ p, p ≠ path → p ≠ path +:+ BACKUP_SUFFIX → fs w' !! p = fs w !! p) ∧
    moved w' = moved w ++ [(path, path +:+ BACKUP_SUFFIX); (path +:+ TEMP_SUFFIX, path)] ∧
    t_files (tally w') = t_files (tally w) + 1 ∧
    t_files_written (tally w') = t_files_written (tally w) + 1 ∧
    t_renames (tally w') = t_renames (tally w) ∧
    t_matches (tally w') = t_matches (tally w) + found_in patterns (file_lines content) ∧
    t_valid_matches (tally w')
    = t_valid_matches (tally w) + valid_in patterns (file_lines content).
Proof.
  intros Hfault Hfile Htemp Horig Hdir Houts Hfound.
  set (temp := path +:+ TEMP_SUFFIX) in *.
  set (orig := path +:+ BACKUP_SUFFIX) in *.
  set (perms := N.land mode 511).
  set (made := N.ldiff perms umask).
  assert (Hot : orig ≠ temp) by apply backup_not_temp.
  assert (Htp : temp ≠ path) by (by apply append_not_self).
  assert (Hop : orig ≠ path) by (by apply append_not_self).
  pose (w4 := {| fs := <[temp := File "" made]> (fs w);
                 tally := tally w; moved := moved w |}).
  destruct (transform_lines_sound patterns (Some path) (file_lines content) outs Houts
              {| h_path := temp; h_pos := 0; h_calls := 0 |}
              {| found := 0; valid := 0 |} "" made w4)
    as (w5 & Hrun5 & Hfs5 & Hmoved5 & Hf & Hw & Hr & Hm & Hv).
  { exact Hfault. }
  { cbn [h_path fs w4]. by rewrite lookup_insert_eq. }
  { reflexivity. }
  cbn [h_path fs tally moved w4 append Nat.add found valid] in Hrun5, Hfs5, Hmoved5, Hf, Hw, Hr, Hm, Hv.
  rewrite insert_insert_eq in Hfs5.
  set (new := String.concat "" outs) in *.
  unfold transform_file. fold temp orig.
  erewrite bind_ok;
    [|apply make_parent_dirs_present; unfold temp; rewrite dirname_temp; exact Hdir].
  erewrite bind_ok; [|by apply (os_stat_perms_entry path (File content mode))].
  erewrite bind_ok; [|by apply (open_rb_file path content mode)].
  erewrite bind_ok; [|by apply os_open_fresh].
  unfold transform_stream. fold w4.
  erewrite bind_ok; [|exact Hrun5].
  cbn [found negb andb].
  assert (Hpos : (0 <? found_in patterns (file_lines content)) = true)
    by (by apply Nat.ltb_lt).
  rewrite Hpos.
  assert (Hpath5 : fs w5 !! path = Some (File content mode)).
  { by rewrite Hfs5, lookup_insert_ne. }
  assert (Horig5 : os_path_isdir (fs w5) orig = false).
  { unfold os_path_isdir in *. by rewrite Hfs5, lookup_insert_ne. }
  pose (w6 := {| fs := <[orig := File content mode]> (delete path (fs w5));
                 tally := tally w5; moved := moved w5 ++ [(path, orig)] |}).
  assert (Hmove1 : move_file path orig true w5 = (Ok tt, w6)).
  { unfold move_file. cbn [negb]. by apply shutil_move_over. }
  assert (Htemp6 : fs w6 !! temp = Some (File new made)).
  { cbn [fs w6]. rewrite lookup_insert_ne, lookup_delete_ne by done.
    by rewrite Hfs5, lookup_insert_eq. }
  assert (Hpath6 : fs w6 !! path = None).
  { cbn [fs w6]. by rewrite lookup_insert_ne, lookup_delete_eq. }
  pose (w7 := {| fs := <[path := File new made]> (delete temp (fs w6));
                 tally := tally w6; moved := moved w6 ++ [(temp, path)] |}).
  assert (Hmove2 : move_file temp path false w6 = (Ok tt, w7)).
  { rewrite move_file_free by done. apply shutil_move_over; [done|].
    unfold os_path_isdir. by rewrite Hpath6. }
  erewrite bind_ok; [|erewrite bind_ok; [exact Hmove2|exact Hmove1]].
  unfold modify_tally, mbind, M_bind, mret, M_ret.
  eexists. split; [reflexivity|].
  cbn [fs tally moved w7 w6 tally_file t_files t_files_written t_renames
       t_matches t_valid_matches found].
  rewrite Hpos, String.eqb_refl, Hmoved5, Hf, Hw, Hr, Hm, Hv. cbn [negb andb].
  repeat split; try lia.
  - by rewrite lookup_insert_eq.
  - rewrite lookup_insert_ne, lookup_delete_ne, lookup_insert_eq by done. done.
  - intros p Hp Hpo. rewrite lookup_insert_ne by done.
    destruct (decide (p = temp)) as [->|Hpt].
    + by rewrite lookup_delete_eq, Htemp.
    + rewrite lookup_delete_ne, lookup_insert_ne, lookup_delete_ne by done.
      by rewrite Hfs5, lookup_insert_ne.
  - by rewrite <- app_assoc.
Qed.

(** X18: the contents of a file are rewritten line by line, in place.
    When the file exists in an existing directory, no temporary file is
    left over from an earlier run, the backup path is not a directory, no
    write fails, every line can be replaced and at least one match is found,
    [rewrite_file] returns, and afterwards the file holds the replaced lines
    in order with the permission bits of the original that the umask leaves
    ([mode & 0o777 & ~umask]: the temporary file is created by [os.open], so
    bits of the original can be lost), the backup holds the original with its
    mode, no other path has changed, and the two moves and the tally are as
    the run made them. *)
Theorem rewrite_file_commits (path : string) (patterns : list (regex * string))
    (content : string) (mode : N) (outs : list string) w :
  (∀ k, io_fault (path +:+ TEMP_SUFFIX) k = None) →
  fs w !! path = Some (File content mode) →
  fs w !! (path +:+ TEMP_SUFFIX) = None →
  os_path_isdir (fs w) (path +:+ BACKUP_SUFFIX) = false →
  Path.dirname path = "" ∨ os_path_isdir (fs w) (Path.dirname path) = true →
  rmap (replaced patterns) (file_lines content) = Ok outs →
  0 < found_in patterns (file_lines content) →
  ∃ w',
    rewrite_file path patterns false true true false w = (Ok tt, w') ∧
    fs w' !! path = Some (File (String.concat "" outs) (N.ldiff (N.land mode 511) umask)) ∧
    fs w' !! (path +:+ BACKUP_SUFFIX) = Some (File content mode) ∧
    (∀ p, p ≠ path → p ≠ path +:+ BACKUP_SUFFIX → fs w' !! p = fs w !! p) ∧
    moved w' = moved w ++ [(path, path +:+ BACKUP_SUFFIX); (path +:+ TEMP_SUFFIX, path)] ∧
    t_files (tally w') = t_files (tally w) + 1 ∧
    t_files_written (tally w') = t_files_written (tally w) + 1 ∧
    t_renames (tally w') = t_renames (tally w) ∧
    t_matches (tally w') = t_matches (tally w) + found_in patterns (file_lines content) ∧
    t_valid_matches (tally w')
    = t_valid_matches (tally w) + valid_in patterns (file_lines content).
Proof.
  intros Hfault Hfile Htemp Horig Hdir Houts Hfound.
  destruct (transform_file_commits path patterns content mode outs w
              Hfault Hfile Htemp Horig Hdir Houts Hfound) as (w' & Hrun & Hrest).
  exists w'. split; [|exact Hrest].
  unfold rewrite_file.
  erewrite bind_ok; [|reflexivity].
  erewrite bind_ok; [|exact Hrun]. reflexivity.
Qed.

End Committed.

(** The theorem at a file that everyone may write, under the mask 022:
    the rewritten file has lost the write bits of group and others. *)
Lemma rewrite_file_commits_witness :
  (∀ k, @io_fault sound ("c.txt" +:+ TEMP_SUFFIX) k = None) ∧
  fs shared_file !! "c.txt" = Some (File "a foo" 438%N) ∧
  fs shared_file !! ("c.txt" +:+ TEMP_SUFFIX) = None ∧
  os_path_isdir (fs shared_file) ("c.txt" +:+ BACKUP_SUFFIX) = false ∧
  (Path.dirname "c.txt" = "" ∨ os_path_isdir (fs shared_file) (Path.dirname "c.txt") = true) ∧
  rmap (replaced foo_rules) (file_lines "a foo") = Ok ["a quux"] ∧
  0 < found_in foo_rules (file_lines "a foo") ∧
  ∃ w',
    @rewrite_file sound "c.txt" foo_rules false true true false shared_file = (Ok tt, w') ∧
    fs w' !! "c.txt"
    = Some (File (String.concat "" ["a quux"]) (N.ldiff (N.land 438 511) (@umask sound))) ∧
    fs w' !! ("c.txt" +:+ BACKUP_SUFFIX) = Some (File "a foo" 438%N) ∧
    (∀ p, p ≠ "c.txt" → p ≠ "c.txt" +:+ BACKUP_SUFFIX → fs w' !! p = fs shared_file !! p) ∧
    moved w' = moved shared_file
               ++ [("c.txt", "c.txt" +:+ BACKUP_SUFFIX); ("c.txt" +:+ TEMP_SUFFIX, "c.txt")] ∧
    t_files (tally w') = t_files (tally shared_file) + 1 ∧
    t_files_written (tally w') = t_files_written (tally shared_file) + 1 ∧
    t_renames (tally w') = t_renames (tally shared_file) ∧
    t_matches (tally w')
    = t_matches (tally shared_file) + found_in foo_rules (file_lines "a foo") ∧
    t_valid_matches (tally w')
    = t_valid_matches (tally shared_file) + valid_in foo_rules (file_lines "a foo").
Proof.
  assert (Hfault : ∀ k, @io_fault sound ("c.txt" +:+ TEMP_SUFFIX) k = None)
    by reflexivity.
  assert (Hfile : fs shared_file !! "c.txt" = Some (File "a foo" 438%N)) by reflexivity.
  assert (Htemp : fs shared_file !! ("c.txt" +:+ TEMP_SUFFIX) = None) by reflexivity.
  assert (Horig : os_path_isdir (fs shared_file) ("c.txt" +:+ BACKUP_SUFFIX) = false)
    by reflexivity.
  assert (Hdir : Path.dirname "c.txt" = ""
                 ∨ os_path_isdir (fs shared_file) (Path.dirname "c.txt") = true)
    by (left; reflexivity).
  assert (Houts : rmap (replaced foo_rules) (file_lines "a foo") = Ok ["a quux"])
    by reflexivity.
  assert (Hfound : 0 < found_in foo_rules (file_lines "a foo"))
    by (vm_compute; lia).
  repeat (split; [assumption|]).
  exact (@rewrite_file_commits sound "c.txt" foo_rules "a foo" 438%N ["a quux"]
           shared_file Hfault Hfile Htemp Horig Hdir Houts Hfound).
Defined.

(** The same run, evaluated: a file of mode 666 is rewritten as a file of
    mode 644, and the backup keeps the mode 666. *)
Example rewrite_file_masks_mode :
  let run := @rewrite_file sound "c.txt" foo_rules false true true false shared_file in
  fst run = Ok tt ∧
  fs (snd run) !! "c.txt" = Some (File "a quux" 420%N) ∧
  fs (snd run) !! "c.txt.orig" = Some (File "a foo" 438%N).
Proof. vm_compute. repeat split; reflexivity. Qed.

(** ** The counters of the summary *)

Section Tally.
Context `{Platform}.

Implicit Types (w : World) (f : gmap string entry).

Lemma quiet_steady {A} (c : M A) : quiet c → steady c.
Proof. intros Hq w Hok. by rewrite Hq. Qed.

Lemma steady_bind {A B} (c : M A) (k : A → M B) :
  steady c → (∀ a, steady (k a)) → steady (c ≫= k).
Proof.
  intros Hc Hk w Hok. unfold mbind, M_bind.
  specialize (Hc w Hok). destruct (c w) as [[a|e] w1]; cbn [snd] in *; [|done].
  by apply Hk.
Qed.

Lemma quiet_bind {A B} (c : M A) (k : A → M B) :
  quiet c → (∀ a, quiet (k a)) → quiet (c ≫= k).
Proof.
  intros Hc Hk w. unfold mbind, M_bind.
  specialize (Hc w). destruct (c w) as [[a|e] w1]; cbn [snd] in *; [|done].
  rewrite <- Hc. apply Hk.
Qed.

Lemma quiet_ret {A} (a : A) : quiet (mret a).
Proof. by intros w. Qed.

Lemma quiet_raise {A} (e : exn) : quiet (@raise A e).
Proof. by intros w. Qed.

Lemma quiet_lift {A} (r : result A) : quiet (lift r).
Proof. by intros w. Qed.

Lemma quiet_get_fs : quiet get_fs.
Proof. by intros w. Qed.

Lemma quiet_put_fs f : quiet (put_fs f).
Proof. by intros w. Qed.

Lemma quiet_record_move (src dst : string) : quiet (record_move src dst).
Proof. by intros w. Qed.

Lemma quiet_os_makedirs (dir : string) : quiet (os_makedirs dir).
Proof.
  unfold os_makedirs. apply quiet_bind; [apply quiet_get_fs|]. intros f.
  destruct (mkdir_ancestors f (Path.ancestors dir)) as [r f'].
  apply quiet_bind; [apply quiet_put_fs|]. intros _.
  apply quiet_bind; [apply quiet_lift|]. intros _.
  destruct (f' !! dir); [apply quiet_raise|apply quiet_put_fs].
Qed.

Lemma quiet_make_parent_dirs (path : string) : quiet (make_parent_dirs path).
Proof.
  unfold make_parent_dirs. apply quiet_bind; [apply quiet_get_fs|]. intros f.
  apply quiet_bind; [|intros; apply quiet_ret].
  destruct (_ && _); [apply quiet_os_makedirs|apply quiet_ret].
Qed.

Lemma quiet_shutil_move (src dst : string) : quiet (shutil_move src dst).
Proof.
  unfold shutil_move. apply quiet_bind; [apply quiet_get_fs|]. intros f.
  destruct (f !! src); [|apply quiet_raise].
  destruct (_ && _); [apply quiet_raise|].
  apply quiet_bind; [apply quiet_put_fs|]. intros _. apply quiet_record_move.
Qed.

Lemma quiet_move_file (src dst : string) (clobber : bool) :
  quiet (move_file src dst clobber).
Proof.
  unfold move_file. destruct clobber; cbn [negb]; [apply quiet_shutil_move|].
  apply quiet_bind; [apply quiet_get_fs|]. intros f.
  destruct (move_file_loop _ _ _ _); [apply quiet_shutil_move|apply quiet_raise].
Qed.

Lemma quiet_os_stat_perms (path : string) : quiet (os_stat_perms path).
Proof.
  unfold os_stat_perms. apply quiet_bind; [apply quiet_get_fs|]. intros f.
  destruct (f !! path); [apply quiet_ret|apply quiet_raise].
Qed.

Lemma quiet_open_rb (path : string) : quiet (open_rb path).
Proof.
  unfold open_rb. apply quiet_bind; [apply quiet_get_fs|]. intros f.
  destruct (f !! path) as [[c m|]|]; [apply quiet_ret|apply quiet_raise..].
Qed.

Lemma quiet_os_open (path : string) (perms : N) :
  quiet (os_open_wronly_creat path perms).
Proof.
  unfold os_open_wronly_creat. apply quiet_bind; [apply quiet_get_fs|]. intros f.
  destruct (f !! path) as [[c m|]|]; [apply quiet_ret|apply quiet_raise|].
  apply quiet_bind; [apply quiet_put_fs|]. intros _. apply quiet_ret.
Qed.

Lemma quiet_file_write (output : handle) (data : string) :
  quiet (file_write output data).
Proof.
  unfold file_write. apply quiet_bind; [apply quiet_get_fs|]. intros f.
  destruct (f !! h_path output) as [[c m|]|]; [|apply quiet_raise..].
  apply quiet_bind; [apply quiet_put_fs|]. intros _.
  destruct (io_fault _ _); [apply quiet_raise|apply quiet_ret].
Qed.

Lemma quiet_os_remove (path : string) : quiet (os_remove path).
Proof.
  unfold os_remove. apply quiet_bind; [apply quiet_get_fs|]. intros f.
  destruct (f !! path) as [[c m|]|]; [apply quiet_put_fs|apply quiet_raise..].
Qed.

Lemma quiet_walk_paths (exclude : string → bool) (paths : list string) :
  quiet (walk_paths exclude paths).
Proof.
  induction paths as [|p paths IH]; [apply quiet_ret|].
  cbn [walk_paths]. apply quiet_bind; [apply quiet_get_fs|]. intros f.
  apply quiet_bind; [destruct (os_path_exists f p); [apply quiet_ret|apply quiet_raise]|].
  intros _. apply quiet_bind; [apply quiet_ret|]. intros here.
  apply quiet_bind; [apply IH|]. intros rest. apply quiet_ret.
Qed.

Lemma quiet_walk_files (paths : list string) (exclude_pat : string) :
  quiet (walk_files paths exclude_pat).
Proof.
  unfold walk_files. apply quiet_bind; [apply quiet_lift|]. intros exclude.
  apply quiet_walk_paths.
Qed.

Lemma steady_multi_replace (input : string) (patterns : list (regex * string))
    (is_path : bool) (source_name : option string) :
  steady (multi_replace input patterns is_path source_name).
Proof.
  unfold multi_replace.
  apply steady_bind; [apply quiet_steady, quiet_lift|]. intros result.
  apply steady_bind; [|intros; apply quiet_steady, quiet_ret].
  destruct is_path; cbn [negb]; [apply quiet_steady, quiet_ret|].
  intros w (Hv & Hr & Hf). unfold modify_tally. cbn.
  pose proof (sdo_length_le (collect_matches input patterns)).
  repeat split; cbn; lia.
Qed.

Lemma steady_transform_lines (t : option transform_fn) (lines : list string)
    (output : handle) (counts : _MatchCounts) :
  (∀ u, t = Some u → ∀ s, steady (u s)) →
  steady (transform_lines t lines output counts).
Proof.
  intros Ht. revert output counts.
  induction lines as [|line lines IH]; intros output counts; cbn [transform_lines].
  - apply quiet_steady, quiet_ret.
  - destruct t as [u|]; [|apply quiet_steady, quiet_raise].
    apply steady_bind; [by apply Ht|]. intros [new_line new_counts].
    apply steady_bind; [apply quiet_steady, quiet_file_write|]. intros h.
    apply IH.
Qed.

Lemma steady_transform_stream (t : option transform_fn) (input : string)
    (output : handle) (by_line : bool) :
  (∀ u, t = Some u → ∀ s, steady (u s)) →
  steady (transform_stream t input output by_line).
Proof.
  intros Ht. unfold transform_stream.
  destruct by_line; [by apply steady_transform_lines|].
  apply steady_bind.
  - destruct t as [u|].
    + apply steady_bind; [by apply Ht|]. intros [c n]. apply quiet_steady, quiet_ret.
    + destruct input as [|c0 [|c1 [|c2 rest]]]; apply quiet_steady;
        first [apply quiet_ret|apply quiet_raise].
  - intros [new_contents n].
    apply steady_bind; [apply quiet_steady, quiet_file_write|]. intros h.
    apply quiet_steady, quiet_ret.
Qed.

Lemma steady_tally_file (counts : _MatchCounts) (renamed : bool) :
  steady (modify_tally (tally_file counts renamed)).
Proof.
  intros w (Hv & Hr & Hf). unfold modify_tally, tally_file, tally_ok. cbn.
  destruct (found counts), renamed; cbn; lia.
Qed.

Lemma steady_transform_file (t : option transform_fn)
    (source_path dest_path orig_suffix temp_suffix : string) (by_line dry_run : bool) :
  (∀ u, t = Some u → ∀ s, steady (u s)) →
  steady (transform_file t source_path dest_path orig_suffix temp_suffix by_line dry_run).
Proof.
  intros Ht. unfold transform_file.
  destruct t as [u|]; [|apply quiet_steady, quiet_ret].
  apply steady_bind; [apply quiet_steady, quiet_make_parent_dirs|]. intros _.
  apply steady_bind; [apply quiet_steady, quiet_os_stat_perms|]. intros perms.
  apply steady_bind; [apply quiet_steady, quiet_open_rb|]. intros input.
  apply steady_bind; [apply quiet_steady, quiet_os_open|]. intros output.
  apply steady_bind; [by apply steady_transform_stream|]. intros counts.
  apply steady_bind.
  - apply quiet_steady. destruct (_ && _); [|apply quiet_os_remove].
    apply quiet_bind; [|intros _]; apply quiet_move_file.
  - intros _. apply steady_bind; [apply steady_tally_file|]. intros _.
    apply quiet_steady, quiet_ret.
Qed.

Lemma steady_rewrite_file (path : string) (patterns : list (regex * string))
    (do_renames do_contents by_line dry_run : bool) :
  steady (rewrite_file path patterns do_renames do_contents by_line dry_run).
Proof.
  unfold rewrite_file. apply steady_bind.
  - destruct do_renames; [|apply quiet_steady, quiet_ret].
    apply steady_bind; [apply steady_multi_replace|]. intros r.
    apply quiet_steady, quiet_ret.
  - intros dest_path. apply steady_bind; [|intros; apply quiet_steady, quiet_ret].
    apply steady_transform_file. intros u Hu s.
    destruct do_contents; [|done]. injection Hu as <-. apply steady_multi_replace.
Qed.

Lemma steady_rewrite_each (paths : list string) (patterns : list (regex * string))
    (do_renames do_contents by_line dry_run : bool) :
  steady (rewrite_each paths patterns do_renames do_contents by_line dry_run).
Proof.
  induction paths as [|p paths IH]; cbn [rewrite_each].
  - apply quiet_steady, quiet_ret.
  - apply steady_bind; [apply steady_rewrite_file|]. intros _. apply IH.
Qed.

(** X19: a run keeps the counters of the summary consistent, whether it
    ends normally or in an exception: afterwards no more matches are counted
    as valid than were found, no more files as renamed than as written, and
    no more as written than as read, so that the number the summary gives as
    skipped is the difference of two counters in the right order. *)
Theorem rewrite_files_keeps_tally_consistent
    (root_paths : list string) (patterns : list (regex * string))
    (do_renames do_contents : bool) (exclude_pat : string) (by_line dry_run : bool) w :
  tally_ok (tally w) →
  tally_ok (tally (snd (rewrite_files root_paths patterns do_renames do_contents
                          exclude_pat by_line dry_run w))).
Proof.
  revert w. change (steady (rewrite_files root_paths patterns do_renames do_contents
                              exclude_pat by_line dry_run)).
  unfold rewrite_files.
  apply steady_bind; [apply quiet_steady, quiet_walk_files|]. intros paths.
  apply steady_rewrite_each.
Qed.

End Tally.

(** The theorem at the run over b.txt, a.txt and c.txt that fails at a.txt. *)
Lemma rewrite_files_keeps_tally_consistent_witness :
  tally_ok (tally run_files) ∧
  tally_ok (tally (snd (@rewrite_files faulty run_roots foo_rules false true
                          DEFAULT_EXCLUDE_PAT true false run_files))).
Proof.
  assert (Hok : tally_ok (tally run_files)) by (repeat split; cbn; lia).
  split; [exact Hok|].
  exact (@rewrite_files_keeps_tally_consistent faulty run_roots foo_rules false true
           DEFAULT_EXCLUDE_PAT true false run_files Hok).
Defined.

(** ** The files a run reads *)

Section FilesRead.
Context `{Platform}.

Implicit Types (w : World).

Lemma reads_bind {A B} (n m : nat) (c : M A) (k : A → M B) :
  reads n c → (∀ a, reads m (k a)) → reads (n + m) (c ≫= k).
Proof.
  intros Hc Hk w b w' Hrun.
  apply bind_inv in Hrun as [(e & _ & [=])|(a & w1 & Hrun & Hrest)].
  apply Hc in Hrun. apply Hk in Hrest. lia.
Qed.

Lemma quiet_reads {A} (c : M A) : quiet c → reads 0 c.
Proof.
  intros Hq w a w' Hrun. specialize (Hq w). rewrite Hrun in Hq. cbn [snd] in Hq.
  rewrite Hq. lia.
Qed.

Lemma reads_multi_replace (input : string) (patterns : list (regex * string))
    (is_path : bool) (source_name : option string) :
  reads 0 (multi_replace input patterns is_path source_name).
Proof.
  intros w a w'. unfold multi_replace, mbind, M_bind, lift, modify_tally, mret, M_ret.
  destruct (_apply_replacements _ _); [|done].
  destruct is_path; intros [= <- <-]; cbn; lia.
Qed.

Lemma reads_transform_lines (t : transform_fn) (lines : list string)
    (output : handle) (counts : _MatchCounts) :
  (∀ s, reads 0 (t s)) → reads 0 (transform_lines (Some t) lines output counts).
Proof.
  intros Ht. revert output counts.
  induction lines as [|line lines IH]; intros output counts; cbn [transform_lines].
  - apply quiet_reads, quiet_ret.
  - apply (reads_bind 0 0); [apply Ht|]. intros [new_line new_counts].
    apply (reads_bind 0 0); [apply quiet_reads, quiet_file_write|]. intros h.
    apply IH.
Qed.

Lemma reads_transform_stream (t : transform_fn) (input : string)
    (output : handle) (by_line : bool) :
  (∀ s, reads 0 (t s)) → reads 0 (transform_stream (Some t) input output by_line).
Proof.
  intros Ht. unfold transform_stream.
  destruct by_line; [by apply reads_transform_lines|].
  apply (reads_bind 0 0).
  - apply (reads_bind 0 0); [apply Ht|]. intros [c n]. apply quiet_reads, quiet_ret.
  - intros [new_contents n].
    apply (reads_bind 0 0); [apply quiet_reads, quiet_file_write|]. intros h.
    apply quiet_reads, quiet_ret.
Qed.

Lemma reads_transform_file (t : transform_fn)
    (source_path dest_path orig_suffix temp_suffix : string) (by_line dry_run : bool) :
  (∀ s, reads 0 (t s)) →
  reads 1 (transform_file (Some t) source_path dest_path orig_suffix temp_suffix
             by_line dry_run).
Proof.
  intros Ht. unfold transform_file.
  apply (reads_bind 0 1); [apply quiet_reads, quiet_make_parent_dirs|]. intros _.
  apply (reads_bind 0 1); [apply quiet_reads, quiet_os_stat_perms|]. intros perms.
  apply (reads_bind 0 1); [apply quiet_reads, quiet_open_rb|]. intros input.
  apply (reads_bind 0 1); [apply quiet_reads, quiet_os_open|]. intros output.
  apply (reads_bind 0 1); [by apply reads_transform_stream|]. intros counts.
  apply (reads_bind 0 1).
  - apply quiet_reads. destruct (_ && _); [|apply quiet_os_remove].
    apply quiet_bind; [|intros _]; apply quiet_move_file.
  - intros _. apply (reads_bind 1 0); [|intros _; apply quiet_reads, quiet_ret].
    intros w a w' Hrun. unfold modify_tally in Hrun. by simplify_eq.
Qed.

Lemma reads_rewrite_file (path : string) (patterns : list (regex * string))
    (do_renames by_line dry_run : bool) :
  reads 1 (rewrite_file path patterns do_renames true by_line dry_run).
Proof.
  unfold rewrite_file. apply (reads_bind 0 1).
  - destruct do_renames; [|apply quiet_reads, quiet_ret].
    apply (reads_bind 0 0); [apply reads_multi_replace|]. intros r.
    apply quiet_reads, quiet_ret.
  - intros dest_path.
    apply (reads_bind 1 0); [|intros; apply quiet_reads, quiet_ret].
    apply reads_transform_file. intros s. apply reads_multi_replace.
Qed.

Lemma reads_rewrite_each (paths : list string) (patterns : list (regex * string))
    (do_renames by_line dry_run : bool) :
  reads (length paths) (rewrite_each paths patterns do_renames true by_line dry_run).
Proof.
  induction paths as [|p paths IH]; cbn [rewrite_each length].
  - apply quiet_reads, quiet_ret.
  - apply (reads_bind 1 (length paths)); [apply reads_rewrite_file|]. intros _. apply IH.
Qed.

(** X20: when a run that rewrites contents returns, the number of files it
    counts as read has grown by the number of files [walk_files] listed:
    every listed file is read, whether or not anything matched in it and
    also in a dry run. *)
Theorem rewrite_files_reads_every_file
    (root_paths : list string) (patterns : list (regex * string))
    (do_renames : bool) (exclude_pat : string) (by_line dry_run : bool) w w' :
  rewrite_files root_paths patterns do_renames true exclude_pat by_line dry_run w
    = (Ok tt, w') →
  ∃ paths, walk_files root_paths exclude_pat w = (Ok paths, w) ∧
           t_files (tally w') = t_files (tally w) + length paths.
Proof.
  unfold rewrite_files. intros Hrun.
  apply bind_inv in Hrun as [(e & _ & [=])|(paths & w1 & Hwalk & Hrest)].
  assert (w1 = w) as ->.
  { unfold walk_files, mbind, M_bind, lift in Hwalk.
    destruct (exclude_compile exclude_pat) as [exclude|e]; [|done].
    pose proof (static_walk_paths exclude root_paths w) as Hw.
    by rewrite Hwalk in Hw. }
  exists paths. split; [done|].
  by apply reads_rewrite_each in Hrest.
Qed.

End FilesRead.

(** The theorem at the dry run over b.txt, a.txt and c.txt. *)
Lemma rewrite_files_reads_every_file_witness :
  let run := @rewrite_files sound run_roots foo_rules false true
               DEFAULT_EXCLUDE_PAT true true run_files in
  run = (Ok tt, snd run) ∧
  ∃ paths, @walk_files sound run_roots DEFAULT_EXCLUDE_PAT run_files = (Ok paths, run_files) ∧
           t_files (tally (snd run)) = t_files (tally run_files) + length paths.
Proof.
  intros run.
  assert (Hrun : run = (Ok tt, snd run)) by (vm_compute; reflexivity).
  split; [exact Hrun|].
  exact (@rewrite_files_reads_every_file sound run_roots foo_rules false
           DEFAULT_EXCLUDE_PAT true true run_files (snd run) Hrun).
Defined.

(** ** A write that fails *)

Section FailedWrite.
Context `{Platform}.

Implicit Types (w : World).

Lemma bind_raise {A B} (c : M A) (k : A → M B) (e : exn) w w1 :
  c w = (Raise e, w1) → (c ≫= k) w = (Raise e, w1).
Proof. intros Hc. unfold mbind, M_bind. by rewrite Hc. Qed.

(** A write that the platform makes fail stores the bytes it got through
    and raises the I/O error. *)
Lemma file_write_fault (output : handle) (data old : string) (mode : N) (k : nat) w :
  io_fault (h_path output) (h_calls output) = Some k →
  fs w !! h_path output = Some (File old mode) →
  file_write output data w
  = (Raise (IOError (h_path output)),
     {| fs := <[h_path output :=
                  File (overwrite old (h_pos output) (String.substring 0 k data)) mode]> (fs w);
        tally := tally w; moved := moved w |}).
Proof.
  intros Hfault Hfile.
  unfold file_write, mbind, M_bind, get_fs, put_fs, raise.
  by rewrite Hfile, Hfault.
Qed.

(** The abort, from the fault: when the first write to the temporary file
    fails, [transform_file] ends in the I/O error; no move has been made and
    every path but the temporary one holds what it held.  The temporary path
    holds the bytes that got through, written over what was there: over the
    source, when the source is the temporary path. *)
Lemma transform_file_first_write_fault
    (t : transform_fn) (source_path dest_path : string) (dry_run : bool)
    (content line out : string) (rest : list string) (n : _MatchCounts)
    (mode : N) (k : nat) w :
  pure_transform t →
  (∀ w0, fst (t line w0) = Ok (out, n)) →
  fs w !! source_path = Some (File content mode) →
  file_lines content = line :: rest →
  Path.dirname dest_path = "" ∨ os_path_isdir (fs w) (Path.dirname dest_path) = true →
  os_path_isdir (fs w) (dest_path +:+ TEMP_SUFFIX) = false →
  io_fault (dest_path +:+ TEMP_SUFFIX) 0 = Some k →
  ∃ w',
    transform_file (Some t) source_path dest_path BACKUP_SUFFIX TEMP_SUFFIX true dry_run w
    = (Raise (IOError (dest_path +:+ TEMP_SUFFIX)), w') ∧
    moved w' = moved w ∧
    (∀ p, p ≠ dest_path +:+ TEMP_SUFFIX → fs w' !! p = fs w !! p) ∧
    (source_path = dest_path +:+ TEMP_SUFFIX →
     fs w' !! source_path
     = Some (File (overwrite content 0 (String.substring 0 k out)) mode)).
Proof.
  intros Ht Hout Hfile Hlines Hdir Hnodir Hfault.
  set (temp := dest_path +:+ TEMP_SUFFIX) in *.
  set (perms := N.land mode 511).
  (* the world and the content of the temporary file once it is open *)
  assert (Hopen : ∃ w4 old m,
    os_open_wronly_creat temp perms w
      = (Ok {| h_path := temp; h_pos := 0; h_calls := 0 |}, w4) ∧
    fs w4 !! temp = Some (File old m) ∧ moved w4 = moved w ∧
    (∀ p, p ≠ temp → fs w4 !! p = fs w !! p) ∧
    (source_path = temp → old = content ∧ m = mode)).
  { unfold os_open_wronly_creat, mbind, M_bind, get_fs, put_fs, mret, M_ret.
    unfold os_path_isdir in Hnodir.
    destruct (fs w !! temp) as [[c m|]|] eqn:Htemp; [|done|].
    - exists w, c, m. split; [reflexivity|]. split; [exact Htemp|].
      split; [done|]. split; [done|].
      intros Hst. rewrite Hst in Hfile. split; congruence.
    - eexists _, "", _. split; [reflexivity|]. cbn [fs moved].
      split; [by rewrite lookup_insert_eq|]. split; [done|]. split.
      + intros p Hp. by rewrite lookup_insert_ne.
      + intros Hst. rewrite Hst in Hfile. congruence. }
  destruct Hopen as (w4 & old & m & Hopen & Htemp4 & Hmoved4 & Hfs4 & Hsame).
  destruct (t line w4) as [r w5] eqn:Hrun.
  pose proof (Hout w4) as Hr. rewrite Hrun in Hr. cbn [fst] in Hr. subst r.
  destruct (Ht line w4) as [Hfs5 Hmoved5]. rewrite Hrun in Hfs5, Hmoved5.
  cbn [snd] in Hfs5, Hmoved5.
  set (w6 := {| fs := <[temp := File (overwrite old 0 (String.substring 0 k out)) m]> (fs w5);
                tally := tally w5; moved := moved w5 |}).
  assert (Hstream : transform_stream (Some t) content
                      {| h_path := temp; h_pos := 0; h_calls := 0 |} true w4
                    = (Raise (IOError temp), w6)).
  { unfold transform_stream. rewrite Hlines. cbn [transform_lines].
    erewrite bind_ok; [|exact Hrun]. cbv beta iota.
    apply bind_raise.
    rewrite (file_write_fault _ out old m k); [reflexivity|exact Hfault|].
    cbn [h_path]. by rewrite Hfs5. }
  exists w6. split.
  - unfold transform_file. fold temp.
    erewrite bind_ok;
      [|apply make_parent_dirs_present; unfold temp; rewrite dirname_temp; exact Hdir].
    erewrite bind_ok; [|by apply (os_stat_perms_entry source_path (File content mode))].
    erewrite bind_ok; [|by apply (open_rb_file source_path content mode)].
    erewrite bind_ok; [|exact Hopen].
    by apply bind_raise.
  - cbn [fs moved w6]. split; [congruence|]. split.
    + intros p Hp. rewrite lookup_insert_ne by done. rewrite Hfs5. by apply Hfs4.
    + intros Hsrc. destruct (Hsame Hsrc) as [-> ->].
      rewrite Hsrc. by rewrite lookup_insert_eq.
Qed.

End FailedWrite.
